(** * BirdSong visualizer: the audio analysis pipeline, embedded in Rocq

    The TypeScript sources compute with IEEE doubles.  This development
    embeds them over exact rationals [Q]: every arithmetic operator is the
    exact one and comparisons are the numeric ones.  What cannot be written
    over [Q] is a parameter, so that the theorems hold for every
    implementation of it:
    - [Math.sqrt] and [Math.log2], where a modelled function calls them;
    - the spectral kernels of the frame loops (window, FFT, filterbank, MFCC,
      RMS, spectral descriptors), bundled in a record per pipeline;
    - the eigenvalue decomposition of the linear-algebra library.
    Array indices, frame counts and sample offsets are [nat] or [Z], as the
    loops of the sources have them.

    Modules follow the source files: [AudioFeatures] is
    client/src/lib/audio-features.ts, [Pca] is client/src/lib/pca.ts,
    [Server] is the server analyser with the zero-crossing pitch
    (unnamed/part_000), [ServerPca] the server analyser with MFCC frames
    (unnamed/part_002); [Segmenter] and [Knn] hold the two functions that
    both server analysers share word for word. *)

From Stdlib Require Import String Ascii Decimal DecimalString DecimalNat.
From Stdlib Require Import DecimalFacts.
From Stdlib Require Import ZArith QArith Qminmax Qround Qabs Lia Lqa List Bool.
From Stdlib Require Import Sorted Permutation.
Import ListNotations.

Set Implicit Arguments.

(** ** JavaScript number operations *)

Module Js.

Open Scope Q_scope.

(** [a < b], [a <= b] and [a === b] on numbers. *)
Definition ltb (a b : Q) : bool := negb (Qle_bool b a).
Definition leb (a b : Q) : bool := Qle_bool a b.
Definition eqb (a b : Q) : bool := Qeq_bool a b.

(** [Math.max], [Math.min], [Math.abs] on two finite numbers. *)
Definition max (a b : Q) : Q := Qmax a b.
Definition min (a b : Q) : Q := Qmin a b.
Definition abs (a : Q) : Q := Qabs a.

(** [Math.floor], [Math.ceil]; [Math.round] rounds halves upwards. *)
Definition floor (a : Q) : Z := Qfloor a.
Definition ceil (a : Q) : Z := Qceiling a.
Definition round (a : Q) : Z := Qfloor (a + (1 # 2)).

(** [Math.max(...xs)] and [Math.min(...xs)] over a non-empty array, seeded
    with the first element; over the empty array JavaScript gives an
    infinity, which the callers below guard against. *)
Definition maxOf (x : Q) (xs : list Q) : Q := fold_left max xs x.
Definition minOf (x : Q) (xs : list Q) : Q := fold_left min xs x.

Lemma ltb_lt (a b : Q) : ltb a b = true <-> a < b.
Proof.
  unfold ltb. rewrite negb_true_iff.
  split; intro H.
  - apply Qnot_le_lt. intro Hle. apply Qle_bool_iff in Hle. congruence.
  - destruct (Qle_bool b a) eqn:E; [|reflexivity].
    apply Qle_bool_iff in E. exfalso. exact (Qlt_not_le _ _ H E).
Qed.

Lemma ltb_ge (a b : Q) : ltb a b = false <-> b <= a.
Proof.
  unfold ltb. rewrite negb_false_iff. apply Qle_bool_iff.
Qed.

Lemma leb_le (a b : Q) : leb a b = true <-> a <= b.
Proof. apply Qle_bool_iff. Qed.

Lemma leb_gt (a b : Q) : leb a b = false <-> b < a.
Proof.
  unfold leb. split; intro H.
  - apply Qnot_le_lt. intro Hle. apply Qle_bool_iff in Hle. congruence.
  - destruct (Qle_bool a b) eqn:E; [|reflexivity].
    apply Qle_bool_iff in E. exfalso. exact (Qlt_not_le _ _ H E).
Qed.

Lemma eqb_eq (a b : Q) : eqb a b = true <-> a == b.
Proof. apply Qeq_bool_iff. Qed.

Lemma eqb_neq (a b : Q) : eqb a b = false <-> ~ a == b.
Proof.
  unfold eqb. split; intro H.
  - intro E. apply Qeq_bool_iff in E. congruence.
  - destruct (Qeq_bool a b) eqn:E; [|reflexivity].
    apply Qeq_bool_iff in E. contradiction.
Qed.

(** Clamping [Math.max(lo, Math.min(hi, x))] lands in [[lo, hi]]. *)
Lemma clamp_bounds (lo hi x : Q) :
  lo <= hi -> lo <= max lo (min hi x) /\ max lo (min hi x) <= hi.
Proof.
  intro H. unfold max, min. split.
  - apply Q.le_max_l.
  - apply Q.max_lub; [exact H | apply Q.le_min_l].
Qed.

End Js.

(** ** Range normalisation helpers *)

Open Scope Q_scope.

(** [normalizeValue] of both server analysers. *)
Definition normalizeValue (value min max : Q) : Q :=
  if Js.eqb max min then 1 # 2
  else Js.max 0 (Js.min 1 ((value - min) / (max - min))).

(** [norm] of the visual mapper (unnamed/part_006). *)
Definition norm (value min max : Q) : Q :=
  if Js.leb max min then 1 # 2
  else Js.max 0 (Js.min 1 ((value - min) / (max - min))).

(** ** Client-side feature extraction (chroma, YIN pitch, the frame loop) *)

Module AudioFeatures.

Definition sumQ (xs : list Q) : Q := fold_left Qplus xs 0.

(** [a[i] += v] on a typed array: an index past the end is ignored. *)
Fixpoint addAt (i : nat) (v : Q) (a : list Q) : list Q :=
  match a, i with
  | [], _ => []
  | x :: rest, O => (x + v) :: rest
  | x :: rest, S i' => x :: addAt i' v rest
  end.

(** *** Chroma *)

Section Chroma.

Variable log2 : Q -> Q.

(** [k * sampleRate / fftSize]. *)
Definition binFrequency (k : nat) (sampleRate : Q) (fftSize : nat) : Q :=
  inject_Z (Z.of_nat k) * sampleRate / inject_Z (Z.of_nat fftSize).

Definition refFreq : Q := 440.

(** [((Math.round(semitone) % 12) + 12) % 12], with the truncating [%]. *)
Definition pitchClassOf (freq : Q) : nat :=
  let semitone := 12 * log2 (freq / refFreq) in
  Z.to_nat (Z.rem (Z.rem (Js.round semitone) 12 + 12) 12).

Definition inChromaRange (freq : Q) : bool :=
  negb (Js.ltb freq 30 || Js.ltb 5000 freq).

(** The body of [for (let k = 1; k < halfN; k++)]. *)
Definition chromaStep (magnitude : list Q) (fftSize : nat) (sampleRate : Q)
  (chroma : list Q) (k : nat) : list Q :=
  let freq := binFrequency k sampleRate fftSize in
  if inChromaRange freq then
    let m := nth k magnitude 0 in
    addAt (pitchClassOf freq) (m * m) chroma
  else chroma.

(** The twelve accumulated pitch-class energies, before normalisation. *)
Definition accumulateChroma (magnitude : list Q) (fftSize : nat)
  (sampleRate : Q) : list Q :=
  fold_left (chromaStep magnitude fftSize sampleRate)
            (seq 1 (length magnitude - 1)) (repeat 0 12).

Definition computeChroma (magnitude : list Q) (fftSize : nat)
  (sampleRate : Q) : list Q :=
  let chroma := accumulateChroma magnitude fftSize sampleRate in
  let sum := sumQ chroma in
  if Js.ltb 0 sum then map (fun c => c / sum) chroma else chroma.

End Chroma.

(** *** YIN pitch detection *)

Record Pitch : Type := mkPitch {
  f0 : option Q;
  confidence : Q
}.

Definition noPitch : Pitch := mkPitch None 0.

Definition yinThreshold : Q := 15 # 100.

Section Yin.

Variable samples : list Q.
Variable start : nat.
Variable frameSize : nat.
Variable sampleRate : Q.

Definition halfW : nat := frameSize / 2.

Definition sample (i : nat) : Q := nth i samples 0.

(** Step 1: [diff[tau]], for [tau < halfW]. *)
Definition difference (tau : nat) : Q :=
  fold_left
    (fun sum j =>
       let d := sample (start + j) - sample (start + j + tau) in
       sum + d * d)
    (seq 0 halfW) 0.

Definition diff : list Q := map difference (seq 0 halfW).

(** Step 2: the cumulative mean normalized difference, from [tau] on. *)
Fixpoint cmndfLoop (diffs : list Q) (tau : nat) (runningSum : Q) : list Q :=
  match diffs with
  | [] => []
  | d :: rest =>
      let runningSum' := runningSum + d in
      (if Js.ltb 0 runningSum'
       then d * inject_Z (Z.of_nat tau) / runningSum' else 1)
        :: cmndfLoop rest (S tau) runningSum'
  end.

Definition cmndf : list Q :=
  match diff with
  | [] => []
  | _ :: rest => 1 :: cmndfLoop rest 1 0
  end.

Definition cmndfAt (tau : nat) : Q := nth tau cmndf 0.

Definition minPeriod : Z := Js.floor (sampleRate / 2000).
Definition maxPeriod : Z := Js.floor (sampleRate / 50).

(** The lags scanned by both search loops:
    [Math.max(2, minPeriod) <= tau < Math.min(halfW, maxPeriod)]. *)
Definition lags : list nat :=
  let lo := Z.max 2 minPeriod in
  let hi := Z.min (Z.of_nat halfW) maxPeriod in
  map (fun n => (Z.to_nat lo + n)%nat) (seq 0 (Z.to_nat (hi - lo))).

(** [while (tau + 1 < halfW && cmndf[tau + 1] < cmndf[tau]) tau++]: the
    walk stops before [halfW], so [halfW] steps are enough. *)
Fixpoint descend (steps : nat) (tau : nat) : nat :=
  match steps with
  | O => tau
  | S steps' =>
      if (tau + 1 <? halfW)%nat && Js.ltb (cmndfAt (tau + 1)) (cmndfAt tau)
      then descend steps' (tau + 1)
      else tau
  end.

(** Step 3: the first lag under the threshold, followed to its local
    minimum. *)
Definition firstCrossing : option nat :=
  match filter (fun tau => Js.ltb (cmndfAt tau) yinThreshold) lags with
  | [] => None
  | tau :: _ => Some (descend halfW tau)
  end.

(** The fallback: the global minimum over the scanned lags, from
    [bestTau = -1], [bestVal = 1]. *)
Definition globalMinimum : Z * Q :=
  fold_left
    (fun best tau =>
       if Js.ltb (cmndfAt tau) (snd best)
       then (Z.of_nat tau, cmndfAt tau) else best)
    lags ((-1)%Z, 1).

(** [(bestTau, bestVal)] after both searches. *)
Definition bestLag : Z * Q :=
  match firstCrossing with
  | Some tau => (Z.of_nat tau, cmndfAt tau)
  | None => globalMinimum
  end.

(** Step 4: parabolic interpolation.  When the denominator is zero
    JavaScript computes an infinite or undefined [shift], for which
    [Math.abs(shift) < 1] is false: the lag is kept. *)
Definition refineTau (bestTau : Z) : Q :=
  if (0 <? bestTau)%Z && (bestTau <? Z.of_nat halfW - 1)%Z then
    let a := cmndfAt (Z.to_nat (bestTau - 1)) in
    let b := cmndfAt (Z.to_nat bestTau) in
    let c := cmndfAt (Z.to_nat (bestTau + 1)) in
    let denominator := 2 * (a - 2 * b + c) in
    if Js.eqb denominator 0 then inject_Z bestTau
    else
      let shift := (a - c) / denominator in
      if Js.ltb (Js.abs shift) 1 then inject_Z bestTau + shift
      else inject_Z bestTau
  else inject_Z bestTau.

(** The pitch estimate and the raw confidence of the chosen lag. *)
Definition estimate : Q * Q :=
  (sampleRate / refineTau (fst bestLag), 1 - snd bestLag).

Definition frameIsComplete : bool :=
  negb (Z.of_nat (Nat.min (start + frameSize) (length samples))
        - Z.of_nat start <? Z.of_nat frameSize)%Z.

Definition yinPitchDetect : Pitch :=
  if negb frameIsComplete then noPitch
  else if (fst bestLag <? 2)%Z then noPitch
  else
    let f0 := fst estimate in
    let confidence := snd estimate in
    if Js.ltb f0 50 || Js.ltb 2000 f0 || Js.ltb confidence (3 # 10)
    then noPitch
    else mkPitch (Some f0) (Js.max 0 (Js.min 1 confidence)).

End Yin.

(** *** The frame loop ([extractFeatures]) *)

Record FrameFeatures : Type := mkFeatures {
  time : Q;
  mfcc : list Q;
  chroma : list Q;
  ff_f0 : option Q;
  f0Conf : Q;
  loudness : Q;
  centroid : Q;
  bandwidth : Q;
  flatness : Q;
  flux : Q
}.

Record AnalysisConfig : Type := mkConfig {
  cfg_frameSize : nat;
  cfg_hopSize : nat;
  numMFCC : nat;
  numMelBands : nat
}.

Definition defaultConfig : AnalysisConfig := mkConfig 2048 512 40 80.

(** The decoded audio: [sampleRate], [length] and one array per channel. *)
Record AudioBuffer : Type := mkBuffer {
  ab_sampleRate : Q;
  ab_length : nat;
  ab_channels : list (list Q)
}.

(** The spectral kernels of the module (window, FFT magnitude, mel
    filterbank, MFCC, spectral descriptors).  They use [Math.cos],
    [Math.sqrt], [Math.log] and [Math.exp]; the frame loop takes them as
    parameters. *)
Record Kernels : Type := mkKernels {
  hannWindow : nat -> list Q;
  createMelFilterbank : nat -> nat -> Q -> list (list Q);
  computeMagnitudeSpectrum : list Q -> nat -> nat -> list Q -> list Q;
  computeMFCC : list Q -> list (list Q) -> nat -> list Q;
  computeRMS : list Q -> nat -> nat -> Q;
  computeSpectralCentroid : list Q -> nat -> Q -> Q;
  computeSpectralBandwidth : list Q -> nat -> Q -> Q -> Q;
  computeSpectralFlatness : list Q -> Q;
  computeSpectralFlux : list Q -> option (list Q) -> Q
}.

Section Extract.

Variable K : Kernels.
Variable log2 : Q -> Q.

(** Mix to mono: [samples[i] += channelData[i] / numChannels]. *)
Definition mixToMono (audioBuffer : AudioBuffer) : list Q :=
  let numChannels :=
    inject_Z (Z.of_nat (length (ab_channels audioBuffer))) in
  map (fun i =>
         fold_left (fun acc channelData => acc + nth i channelData 0 / numChannels)
                   (ab_channels audioBuffer) 0)
      (seq 0 (ab_length audioBuffer)).

(** [Math.floor((samples.length - cfg.frameSize) / cfg.hopSize)]. *)
Definition numFrames (cfg : AnalysisConfig) (samples : list Q) : Z :=
  Js.floor (inject_Z (Z.of_nat (length samples) - Z.of_nat (cfg_frameSize cfg))
            / inject_Z (Z.of_nat (cfg_hopSize cfg))).

(** The frames pushed so far and [prevMag]. *)
Definition LoopState : Type := (list FrameFeatures * option (list Q))%type.

(** One iteration of [for (let i = 0; i < numFrames; i++)]; the progress
    callback and the yield to the UI thread leave the frames untouched. *)
Definition frameStep (cfg : AnalysisConfig) (samples : list Q)
  (sampleRate : Q) (window : list Q) (melFilters : list (list Q))
  (st : LoopState) (i : nat) : LoopState :=
  let start := (i * cfg_hopSize cfg)%nat in
  let time := inject_Z (Z.of_nat start) / sampleRate in
  let mag :=
    computeMagnitudeSpectrum K samples start (cfg_frameSize cfg) window in
  let mfcc := computeMFCC K mag melFilters (numMFCC cfg) in
  let chroma := computeChroma log2 mag (cfg_frameSize cfg) sampleRate in
  let p := yinPitchDetect samples start (cfg_frameSize cfg) sampleRate in
  let loudness := computeRMS K samples start (cfg_frameSize cfg) in
  let centroid :=
    computeSpectralCentroid K mag (cfg_frameSize cfg) sampleRate in
  let bandwidth :=
    computeSpectralBandwidth K mag (cfg_frameSize cfg) sampleRate centroid in
  let flatness := computeSpectralFlatness K mag in
  let flux := computeSpectralFlux K mag (snd st) in
  (fst st ++
     [mkFeatures time mfcc chroma (f0 p) (confidence p) loudness centroid
                 bandwidth flatness flux],
   Some mag).

Definition extractFeatures (audioBuffer : AudioBuffer) (cfg : AnalysisConfig)
  : list FrameFeatures :=
  let sampleRate := ab_sampleRate audioBuffer in
  let samples := mixToMono audioBuffer in
  let window := hannWindow K (cfg_frameSize cfg) in
  let melFilters :=
    createMelFilterbank K (numMelBands cfg) (cfg_frameSize cfg) sampleRate in
  fst (fold_left (frameStep cfg samples sampleRate window melFilters)
                 (seq 0 (Z.to_nat (numFrames cfg samples)))
                 ([], None)).

End Extract.

End AudioFeatures.

(** ** Principal component analysis of the client ([computePCA]) *)

Module Pca.

Import AudioFeatures.

Record PCAResult : Type := mkPCA {
  positions : list (list Q);
  eigenvalues : list Q;
  mean : list Q;
  components : list (list Q)
}.

(** [Math.max(...xs)]; the chroma vector always has twelve entries, the
    value on the empty array (minus infinity) is not represented. *)
Definition maxOfArray (xs : list Q) : Q :=
  match xs with
  | [] => 0
  | x :: rest => Js.maxOf x rest
  end.

(** Entry [d] of a row; the feature matrix is rectangular. *)
Definition at_ (row : list Q) (d : nat) : Q := nth d row 0.

Definition dims (D : nat) : list nat := seq 0 D.

Definition dot (D : nat) (u v : list Q) : Q :=
  fold_left (fun acc d => acc + at_ u d * at_ v d) (dims D) 0.

Section WithMath.

Variable sqrt : Q -> Q.
Variable log2 : Q -> Q.

Definition buildFeatureVector (frame : FrameFeatures) : list Q :=
  let logF0 :=
    match ff_f0 frame with
    | Some f => if Js.eqb f 0 then 0 else log2 (Js.max 1 f) / 11
    | None => 0
    end in
  let chromaConc := maxOfArray (chroma frame) in
  mfcc frame ++ chroma frame ++
    [logF0 * f0Conf frame; centroid frame / 8000; loudness frame;
     bandwidth frame / 4000; chromaConc].

(** The number of rows, as the divisor [N]. *)
Definition rowCount (data : list (list Q)) : Q :=
  inject_Z (Z.of_nat (length data)).

Definition width (data : list (list Q)) : nat :=
  match data with
  | [] => 0
  | row :: _ => length row
  end.

Definition computeMean (data : list (list Q)) : list Q :=
  map (fun d =>
         fold_left (fun acc row => acc + at_ row d) data 0 / rowCount data)
      (dims (width data)).

Definition computeStd (data : list (list Q)) (mean : list Q) : list Q :=
  map (fun d =>
         let total :=
           fold_left
             (fun acc row =>
                let diff := at_ row d - at_ mean d in acc + diff * diff)
             data 0 in
         let std := sqrt (total / rowCount data) in
         if Js.ltb std (1 # 10000000000) then 1 else std)
      (dims (width data)).

Definition standardize (data : list (list Q)) (mean std : list Q)
  : list (list Q) :=
  map (fun row =>
         map (fun d => (at_ row d - at_ mean d) / at_ std d)
             (dims (width data)))
      data.

(** The upper triangle is accumulated and divided by [N], then mirrored. *)
Definition computeCovarianceMatrix (data : list (list Q)) : list (list Q) :=
  let D := width data in
  let upper (i j : nat) : Q :=
    fold_left (fun acc row => acc + at_ row i * at_ row j) data 0
    / rowCount data in
  map (fun i => map (fun j => upper (Nat.min i j) (Nat.max i j)) (dims D))
      (dims D).

Definition matVec (matrix : list (list Q)) (v : list Q) : list Q :=
  map (fun row => dot (length matrix) row v) matrix.

Definition norm2 (D : nat) (w : list Q) : Q := sqrt (dot D w w).

(** The deterministic start vector, before normalisation. *)
Definition seedVector (D : nat) : list Q :=
  map (fun i =>
         (if (i mod 2 =? 0)%nat then 1 else -1)
         * (1 + inject_Z (Z.of_nat (i mod 7)) * (1 # 10)))
      (dims D).

(** [numIter] rounds of the power iteration, stopping at a vanishing norm. *)
Fixpoint powerLoop (numIter : nat) (matrix : list (list Q))
  (eigenvalue : Q) (v : list Q) : Q * list Q :=
  match numIter with
  | O => (eigenvalue, v)
  | S numIter' =>
      let w := matVec matrix v in
      let norm := norm2 (length matrix) w in
      if Js.ltb norm (1 # 10000000000) then (eigenvalue, v)
      else powerLoop numIter' matrix norm (map (fun x => x / norm) w)
  end.

Definition powerIteration (matrix : list (list Q)) : Q * list Q :=
  let D := length matrix in
  let v := seedVector D in
  let initNorm := norm2 D v in
  let v := if Js.ltb 0 initNorm then map (fun x => x / initNorm) v else v in
  powerLoop 200 matrix 0 v.

Definition deflateMatrix (matrix : list (list Q)) (eigenvalue : Q)
  (eigenvector : list Q) : list (list Q) :=
  let D := length matrix in
  map (fun i =>
         map (fun j =>
                at_ (nth i matrix []) j
                - eigenvalue * at_ eigenvector i * at_ eigenvector j)
             (dims D))
      (dims D).

(** [for (let k = 0; k < 3; k++)]: the eigenpairs found so far and the
    deflated matrix. *)
Fixpoint extractComponents (k : nat) (currentCov : list (list Q))
  : list (Q * list Q) :=
  match k with
  | O => []
  | S k' =>
      let pair := powerIteration currentCov in
      pair :: extractComponents k' (deflateMatrix currentCov (fst pair) (snd pair))
  end.

(** The standardized feature matrix of the frames. *)
Definition standardized (frames : list FrameFeatures) : list (list Q) :=
  let rawData := map buildFeatureVector frames in
  let mean := computeMean rawData in
  standardize rawData mean (computeStd rawData mean).

Definition topComponents (frames : list FrameFeatures) : list (Q * list Q) :=
  extractComponents 3 (computeCovarianceMatrix (standardized frames)).

(** The projections onto the three components, before rescaling. *)
Definition projectedPositions (frames : list FrameFeatures)
  : list (list Q) :=
  let data := standardized frames in
  let D := width (map buildFeatureVector frames) in
  map (fun row => map (fun c => dot D row (snd c)) (topComponents frames)) data.

End WithMath.

(** *** Rescaling of the axes *)

(** [ranges[k]], from [[Infinity, -Infinity]]: [None] until a first value
    has been seen. *)
Definition updateRange (range : option (Q * Q)) (v : Q) : option (Q * Q) :=
  match range with
  | None => Some (v, v)
  | Some (lo, hi) =>
      Some (if Js.ltb v lo then v else lo, if Js.ltb hi v then v else hi)
  end.

Definition axisRange (positions : list (list Q)) (k : nat)
  : option (Q * Q) :=
  fold_left (fun range pos => updateRange range (at_ pos k)) positions None.

Definition scale : Q := 5.

Definition rescaleValue (range : option (Q * Q)) (v : Q) : Q :=
  match range with
  | None => v
  | Some (lo, hi) =>
      let width := hi - lo in
      if Js.ltb 0 width then ((v - lo) / width - (1 # 2)) * 2 * scale
      else v
  end.

Definition rescalePositions (positions : list (list Q)) : list (list Q) :=
  map (fun pos =>
         map (fun k => rescaleValue (axisRange positions k) (at_ pos k))
             (dims 3))
      positions.

Definition computePCA (sqrt log2 : Q -> Q) (frames : list FrameFeatures)
  : PCAResult :=
  match frames with
  | [] => mkPCA [] [] [] []
  | _ =>
      let rawData := map (buildFeatureVector log2) frames in
      let comps := topComponents sqrt log2 frames in
      mkPCA (rescalePositions (projectedPositions sqrt log2 frames))
            (map fst comps) (computeMean rawData) (map snd comps)
  end.

End Pca.

(** ** Silence-based segmentation ([segmentIntoVerses])

    The two server variants carry the same segmenter, over different frame
    records: it reads a frame's time [t] and its amplitude only.  The
    section is generic in the frame type; the variant with an optional
    amplitude reads it as [frame.amplitude || 0]. *)

Module Segmenter.
Section WithFrame.

Variable Frame : Type.
Variable frame_t : Frame -> Q.
Variable frame_amplitude : Frame -> Q.

Record VerseSegment : Type := mkSegment {
  seg_start : Q;
  seg_end : Q;
  seg_frames : list Frame
}.

(** The mutable locals of the scanning loop. *)
Record ScanState : Type := mkScan {
  verses : list VerseSegment;
  verseStart : Q;
  verseFrames : list Frame;
  inSilence : bool;
  silenceStart : Q
}.

Definition minSilenceDuration : Q := 2 # 10.
Definition minVerseDuration : Q := 3 # 10.

Definition initialScan : ScanState := mkScan [] 0 [] false 0.

Definition isEmpty {A : Type} (l : list A) : bool :=
  match l with [] => true | _ => false end.

Definition isSilent (silenceThreshold : Q) (frame : Frame) : bool :=
  Js.ltb (frame_amplitude frame) silenceThreshold.

(** The body of [if (silenceDuration > minSilenceDuration &&
    verseFrames.length > 0)]: the running phrase is emitted when it is long
    enough, and the phrase start and frame buffer are reset either way. *)
Definition closePhrase (st : ScanState) (frame : Frame) : ScanState :=
  let verseDuration := silenceStart st - verseStart st in
  mkScan
    (if Js.leb minVerseDuration verseDuration
     then verses st ++ [mkSegment (verseStart st) (silenceStart st) (verseFrames st)]
     else verses st)
    (frame_t frame) [] (inSilence st) (silenceStart st).

(** One iteration of [for (const frame of frames)]. *)
Definition scanStep (silenceThreshold : Q) (st : ScanState) (frame : Frame)
  : ScanState :=
  let silent := isSilent silenceThreshold frame in
  let st1 :=
    if silent && negb (inSilence st) then
      mkScan (verses st) (verseStart st) (verseFrames st) true (frame_t frame)
    else if negb silent && inSilence st then
      let silenceDuration := frame_t frame - silenceStart st in
      let st' :=
        if Js.ltb minSilenceDuration silenceDuration
           && negb (isEmpty (verseFrames st))
        then closePhrase st frame else st in
      mkScan (verses st') (verseStart st') (verseFrames st') false
             (silenceStart st')
    else st in
  if negb silent then
    mkScan (verses st1) (verseStart st1) (verseFrames st1 ++ [frame])
           (inSilence st1) (silenceStart st1)
  else st1.

(** [maxAmp * 0.1], with [maxAmp = Math.max(...frames.map(f => f.amplitude))];
    the function has returned before when there is no frame, so the value
    on the empty list is never used. *)
Definition silenceThreshold (frames : list Frame) : Q :=
  match frames with
  | [] => 0
  | first :: rest =>
      Js.maxOf (frame_amplitude first) (map frame_amplitude rest) * (1 # 10)
  end.

(** The loop [for (const frame of frames)], from the initial locals. *)
Definition scanFrames (frames : list Frame) : ScanState :=
  fold_left (scanStep (silenceThreshold frames)) frames initialScan.

(** The phrases closed by a silence run inside the loop. *)
Definition closedBySilence (frames : list Frame) : list VerseSegment :=
  verses (scanFrames frames).

(** The loop followed by [if (verseFrames.length > 0) verses.push(...)]:
    the trailing run extends to the end of the track. *)
Definition silenceVerses (frames : list Frame) (duration : Q)
  : list VerseSegment :=
  let st := scanFrames frames in
  if isEmpty (verseFrames st) then verses st
  else verses st ++ [mkSegment (verseStart st) duration (verseFrames st)].

(** The fixed-interval fallback: up to four equal segments, each kept when
    some frame falls in it.  For a duration of 0 JavaScript divides 0 by 0
    and its loop has no iteration; here the quotient by zero is 0 and the
    loop has no iteration either. *)
Definition fallbackVerses (frames : list Frame) (duration : Q)
  : list VerseSegment :=
  let segmentDuration :=
    duration / inject_Z (Z.min 4 (Js.ceil (duration / 5))) in
  let numSegments := Js.ceil (duration / segmentDuration) in
  flat_map
    (fun i : nat =>
       let start := inject_Z (Z.of_nat i) * segmentDuration in
       let end_ :=
         Js.min (inject_Z (Z.of_nat i + 1) * segmentDuration) duration in
       let segmentFrames :=
         filter (fun f => Js.leb start (frame_t f) && Js.ltb (frame_t f) end_)
                frames in
       if isEmpty segmentFrames then []
       else [mkSegment start end_ segmentFrames])
    (seq 0 (Z.to_nat numSegments)).

Definition segmentIntoVerses (frames : list Frame) (duration : Q)
  : list VerseSegment :=
  match frames with
  | [] => []
  | _ =>
      let verses1 := silenceVerses frames duration in
      if isEmpty verses1 then fallbackVerses frames duration else verses1
  end.

End WithFrame.
End Segmenter.

(** ** k-nearest-neighbour edges ([findKNearestNeighbors])

    Both server variants build the edges of a phrase with the same function;
    it reads the three coordinates of a point only, so the section is
    generic in the point record. *)

Module Knn.

Definition nat_to_string (n : nat) : string :=
  NilZero.string_of_uint (Nat.to_uint n).

(** [i < j ? `${i}-${j}` : `${j}-${i}`]. *)
Definition edgeKey (i j : nat) : string :=
  if (i <? j)%nat
  then String.append (nat_to_string i) (String "-" (nat_to_string j))
  else String.append (nat_to_string j) (String "-" (nat_to_string i)).

(** [edgeSet.has(key)] on the keys added so far. *)
Definition has (edgeSet : list string) (key : string) : bool :=
  existsb (String.eqb key) edgeSet.

Section WithPoint.

Variable Point : Type.
Variables px py pz : Point -> Q.
Variable sqrt : Q -> Q.

Definition distance (p q : Point) : Q :=
  let dx := px p - px q in
  let dy := py p - py q in
  let dz := pz p - pz q in
  sqrt (dx * dx + dy * dy + dz * dz).

(** The inner loop over [j]: every other point with its distance to [p]. *)
Definition distancesFrom (indexed : list (nat * Point)) (i : nat) (p : Point)
  : list (nat * Q) :=
  flat_map
    (fun jq : nat * Point =>
       if (i =? fst jq)%nat then [] else [(fst jq, distance p (snd jq))])
    indexed.

(** [distances.sort((a, b) => a.dist - b.dist)]: ascending by distance,
    entries of equal distance keeping their order. *)
Fixpoint insertByDist (e : nat * Q) (sorted : list (nat * Q))
  : list (nat * Q) :=
  match sorted with
  | [] => [e]
  | e' :: rest =>
      if Js.leb (snd e) (snd e') then e :: e' :: rest
      else e' :: insertByDist e rest
  end.

Definition sortByDist (distances : list (nat * Q)) : list (nat * Q) :=
  fold_right insertByDist [] distances.

(** The edge list and the set of keys seen so far. *)
Definition EdgeState : Type := (list (nat * nat) * list string)%type.

(** The body of the loop over the [k] nearest entries: the pair is pushed
    as [[i, j]] (source index first) when its key is new. *)
Definition addEdge (i : nat) (st : EdgeState) (entry : nat * Q) : EdgeState :=
  let j := fst entry in
  let key := edgeKey i j in
  if has (snd st) key then st
  else (fst st ++ [(i, j)], key :: snd st).

Definition neighboursStep (indexed : list (nat * Point)) (k : nat)
  (st : EdgeState) (ip : nat * Point) : EdgeState :=
  let distances := sortByDist (distancesFrom indexed (fst ip) (snd ip)) in
  fold_left (addEdge (fst ip)) (firstn k distances) st.

Definition findKNearestNeighbors (points : list Point) (k : nat)
  : list (nat * nat) :=
  let indexed := combine (seq 0 (length points)) points in
  fst (fold_left (neighboursStep indexed k) indexed ([], [])).

End WithPoint.

(** The unordered pair behind an edge. *)
Definition unordered (e : nat * nat) : nat * nat :=
  (Nat.min (fst e) (snd e), Nat.max (fst e) (snd e)).

End Knn.

(** ** The server pipeline, first variant (zero-crossing pitch, DFT spectrum) *)

Module Server.

Record AudioFrame : Type := mkFrame {
  t : Q;
  pitch : Q;
  centroid : Q;
  bandwidth : Q;
  amplitude : Q;
  onsetStrength : Q;
  spectralFlux : Q;
  spectralFlatness : Q;
  beatStrength : Q;
  bandLow : Q;
  bandMid : Q;
  bandHigh : Q;
  onsetLow : Q;
  onsetMid : Q;
  onsetHigh : Q
}.

(** The per-frame numeric kernels ([computeRMS], [computeFFT], ...) read
    the sample buffer at a frame offset.  They use [Math.sqrt], [Math.cos],
    [Math.sin], [Math.log] and [Math.exp]; the frame loop below takes them
    as parameters. *)
Record Kernels : Type := mkKernels {
  computeRMS : list Q -> nat -> nat -> Q;
  computeZeroCrossingRate : list Q -> nat -> nat -> Q;
  computeFFT : list Q -> nat -> nat -> list Q;
  computeSpectralFeatures : list Q -> nat -> Q -> Q * Q;
  computeSpectralFlux : list Q -> option (list Q) -> Q;
  computeSpectralFlatness : list Q -> Q;
  computeBandEnergies : list Q -> nat -> Q -> Q * Q * Q
}.

Inductive Band : Type := low | mid | high.

(** The point object built by [mapFramesToVisualization]; the fields that a
    frame also has carry the prefix [p_]. *)
Record VisualizationPoint : Type := mkPoint {
  x : Q;
  y : Q;
  z : Q;
  size : Q;
  color : Q * Q * Q;
  time : Q;
  p_beatStrength : Q;
  complexity : Q;
  band : Band;
  bandOffsetZ : Q;
  p_onsetLow : Q;
  p_onsetMid : Q;
  p_onsetHigh : Q
}.

Record Verse : Type := mkVerse {
  id : nat;
  name : string;
  start : Q;
  end_ : Q;
  points : list VisualizationPoint;
  edges : list (nat * nat)
}.

Record AnalysisResult : Type := mkResult {
  duration : Q;
  sampleRate : Q;
  verses : list Verse
}.

(** [throw new Error("Could not extract audio samples from the file.")]. *)
Inductive AnalysisError : Type := CouldNotExtractSamples.

Definition estimatePitchFromZCR (zcr sampleRate : Q) : Q :=
  let estimatedFreq := (zcr * sampleRate) / 2 in
  Js.max 80 (Js.min 8000 estimatedFreq).

Definition computeOnsetStrength (prevRMS currentRMS : Q) : Q :=
  let diff := currentRMS - prevRMS in
  if Js.ltb 0 diff then Js.min 1 (diff * 10) else 0.

Definition frameSize : nat := 2048.
Definition hopSize : nat := 512.
Definition fftSize : nat := 512.

(** [Math.floor((samples.length - frameSize) / hopSize)]. *)
Definition numFrames (samples : list Q) : Z :=
  Js.floor (inject_Z (Z.of_nat (length samples) - Z.of_nat frameSize)
            / inject_Z (Z.of_nat hopSize)).

(** The locals carried from one iteration of the frame loop to the next. *)
Record LoopState : Type := mkLoop {
  loop_frames : list AudioFrame;
  prevRMS : Q;
  prevFFT : option (list Q)
}.

Section Pipeline.

Variable K : Kernels.
Variable log2 : Q -> Q.
Variable sqrt : Q -> Q.

(** One iteration of [for (let i = 0; i < numFrames; i++)]. *)
Definition frameStep (samples : list Q) (sampleRate : Q)
  (st : LoopState) (i : nat) : LoopState :=
  let start := (i * hopSize)%nat in
  let t := inject_Z (Z.of_nat start) / sampleRate in
  let amplitude := computeRMS K samples start frameSize in
  let zcr := computeZeroCrossingRate K samples start frameSize in
  let pitch := estimatePitchFromZCR zcr sampleRate in
  let fft := computeFFT K samples start fftSize in
  let '(centroid, bandwidth) :=
    computeSpectralFeatures K fft fftSize sampleRate in
  let spectralFlux := computeSpectralFlux K fft (prevFFT st) in
  let spectralFlatness := computeSpectralFlatness K fft in
  let onsetStrength := computeOnsetStrength (prevRMS st) amplitude in
  let '(lowE, midE, highE) :=
    computeBandEnergies K fft fftSize sampleRate in
  mkLoop
    (loop_frames st ++
       [mkFrame t pitch centroid bandwidth amplitude onsetStrength
                spectralFlux spectralFlatness 0 lowE midE highE 0 0 0])
    amplitude (Some fft).

Definition rawFrames (samples : list Q) (sampleRate : Q) : list AudioFrame :=
  loop_frames
    (fold_left (frameStep samples sampleRate)
               (seq 0 (Z.to_nat (numFrames samples)))
               (mkLoop [] 0 None)).

(** *** Temporal smoothing (exponential moving average, alpha = 0.5) *)

Definition alpha : Q := 1 # 2.

Definition ema (raw smoothed : Q) : Q := alpha * raw + (1 - alpha) * smoothed.

(** The running values, in the order pitch, centroid, amplitude, bandwidth,
    low, mid, high band. *)
Record Smoothed : Type := mkSmoothed {
  smoothPitch : Q;
  smoothCentroid : Q;
  smoothAmplitude : Q;
  smoothBandwidth : Q;
  smoothBandLow : Q;
  smoothBandMid : Q;
  smoothBandHigh : Q
}.

Definition smoothSeed (f : AudioFrame) : Smoothed :=
  mkSmoothed (pitch f) (centroid f) (amplitude f) (bandwidth f)
             (bandLow f) (bandMid f) (bandHigh f).

Definition smoothNext (s : Smoothed) (f : AudioFrame) : Smoothed :=
  mkSmoothed (ema (pitch f) (smoothPitch s))
             (ema (centroid f) (smoothCentroid s))
             (ema (amplitude f) (smoothAmplitude s))
             (ema (bandwidth f) (smoothBandwidth s))
             (ema (bandLow f) (smoothBandLow s))
             (ema (bandMid f) (smoothBandMid s))
             (ema (bandHigh f) (smoothBandHigh s)).

Definition writeSmoothed (s : Smoothed) (f : AudioFrame) : AudioFrame :=
  mkFrame (t f) (smoothPitch s) (smoothCentroid s) (smoothBandwidth s)
          (smoothAmplitude s) (onsetStrength f) (spectralFlux f)
          (spectralFlatness f) (beatStrength f) (smoothBandLow s)
          (smoothBandMid s) (smoothBandHigh s) (onsetLow f) (onsetMid f)
          (onsetHigh f).

Fixpoint smoothLoop (s : Smoothed) (frames : list AudioFrame)
  : list AudioFrame :=
  match frames with
  | [] => []
  | f :: rest =>
      let s' := smoothNext s f in
      writeSmoothed s' f :: smoothLoop s' rest
  end.

Definition applyTemporalSmoothing (frames : list AudioFrame)
  : list AudioFrame :=
  if (length frames <? 3)%nat then frames
  else match frames with
       | [] => []
       | f0 :: _ => smoothLoop (smoothSeed f0) frames
       end.

(** *** Per-band onsets *)

Definition setOnsets (f : AudioFrame) (lo mi hi : Q) : AudioFrame :=
  mkFrame (t f) (pitch f) (centroid f) (bandwidth f) (amplitude f)
          (onsetStrength f) (spectralFlux f) (spectralFlatness f)
          (beatStrength f) (bandLow f) (bandMid f) (bandHigh f) lo mi hi.

Fixpoint onsetLoop (prevLow prevMid prevHigh : Q) (frames : list AudioFrame)
  : list AudioFrame :=
  match frames with
  | [] => []
  | f :: rest =>
      setOnsets f (Js.max 0 (bandLow f - prevLow))
                  (Js.max 0 (bandMid f - prevMid))
                  (Js.max 0 (bandHigh f - prevHigh))
        :: onsetLoop (bandLow f) (bandMid f) (bandHigh f) rest
  end.

Definition computeBandOnsets (frames : list AudioFrame) : list AudioFrame :=
  if (length frames <? 2)%nat then frames
  else match frames with
       | [] => []
       | f0 :: _ =>
           let fs := onsetLoop (bandLow f0) (bandMid f0) (bandHigh f0) frames in
           let maxOnsetLow := Js.maxOf (1 # 1000) (map onsetLow fs) in
           let maxOnsetMid := Js.maxOf (1 # 1000) (map onsetMid fs) in
           let maxOnsetHigh := Js.maxOf (1 # 1000) (map onsetHigh fs) in
           map (fun f => setOnsets f (onsetLow f / maxOnsetLow)
                                     (onsetMid f / maxOnsetMid)
                                     (onsetHigh f / maxOnsetHigh)) fs
       end.

(** *** Beat detection *)

Definition setBeatStrength (f : AudioFrame) (b : Q) : AudioFrame :=
  mkFrame (t f) (pitch f) (centroid f) (bandwidth f) (amplitude f)
          (onsetStrength f) (spectralFlux f) (spectralFlatness f)
          b (bandLow f) (bandMid f) (bandHigh f)
          (onsetLow f) (onsetMid f) (onsetHigh f).

Definition sumQ (xs : list Q) : Q := fold_left Qplus xs 0.

(** [threshold[i]]: the local mean of the normalized flux over the window
    around [i], scaled. *)
Definition beatThreshold (normalizedFlux : list Q) (windowSize i : nat) : Q :=
  let start := (i - windowSize)%nat in
  let end_ := Nat.min (length normalizedFlux) (i + windowSize + 1) in
  let sum := sumQ (firstn (end_ - start) (skipn start normalizedFlux)) in
  let mean := sum / inject_Z (Z.of_nat end_ - Z.of_nat start) in
  mean * (13 # 10) + (1 # 10).

Definition markBeat (normalizedFlux : list Q) (windowSize : nat)
  (i : nat) (f : AudioFrame) : AudioFrame :=
  let n := length normalizedFlux in
  if ((1 <=? i) && (i + 1 <? n))%nat then
    let cur := nth i normalizedFlux 0 in
    let isPeak := Js.ltb (nth (i - 1) normalizedFlux 0) cur
                  && Js.leb (nth (i + 1) normalizedFlux 0) cur in
    let aboveThreshold :=
      Js.ltb (beatThreshold normalizedFlux windowSize i) cur in
    if isPeak && aboveThreshold
    then setBeatStrength f (Js.min 1 (cur * (15 # 10)))
    else f
  else f.

Definition detectBeats (frames : list AudioFrame) (sampleRate : Q)
  : list AudioFrame :=
  if (length frames <? 10)%nat then frames
  else match map spectralFlux frames with
       | [] => frames
       | x :: xs =>
           let maxFlux := Js.maxOf x xs in
           if Js.eqb maxFlux 0 then frames
           else
             let normalizedFlux := map (fun v => v / maxFlux) (x :: xs) in
             let windowSize := Nat.min 10 (length frames / 4) in
             let marked :=
               map (fun p => markBeat normalizedFlux windowSize (fst p) (snd p))
                   (combine (seq 0 (length frames)) frames) in
             match map beatStrength marked with
             | [] => marked
             | b :: bs =>
                 let maxBeatStrength := Js.maxOf b bs in
                 if Js.ltb 0 maxBeatStrength
                 then map (fun f => setBeatStrength f
                                      (beatStrength f / maxBeatStrength))
                          marked
                 else marked
             end
       end.

Definition extractAudioFrames (samples : list Q) (sampleRate : Q)
  : list AudioFrame :=
  detectBeats
    (computeBandOnsets (applyTemporalSmoothing (rawFrames samples sampleRate)))
    sampleRate.

(** *** Segmentation and mapping to the visualization *)

Definition VerseSegment : Type := Segmenter.VerseSegment AudioFrame.

Definition segmentIntoVerses (frames : list AudioFrame) (duration : Q)
  : list VerseSegment :=
  Segmenter.segmentIntoVerses t amplitude frames duration.

Definition pickDominantBand (frame : AudioFrame) : Band * Q :=
  if Js.leb (bandLow frame) (bandMid frame)
     && Js.leb (bandHigh frame) (bandMid frame)
  then (mid, onsetMid frame)
  else if Js.leb (bandMid frame) (bandLow frame)
          && Js.leb (bandHigh frame) (bandLow frame)
  then (low, onsetLow frame)
  else (high, onsetHigh frame).

Definition findKNearestNeighbors (points : list VisualizationPoint) (k : nat)
  : list (nat * nat) :=
  Knn.findKNearestNeighbors x y z sqrt points k.

(** [frames.filter((_, i) => i % step === 0)]. *)
Definition everyNth {A : Type} (step : nat) (l : list A) : list A :=
  map snd
      (filter (fun p : nat * A => (fst p mod step =? 0)%nat)
              (combine (seq 0 (length l)) l)).

(** The ranges observed over all frames of all segments. *)
Record Ranges : Type := mkRanges {
  pitchMin : Q; pitchMax : Q;
  centroidMin : Q; centroidMax : Q;
  bandwidthMin : Q; bandwidthMax : Q;
  amplitudeMax : Q
}.

Definition logPitch (f : AudioFrame) : Q := log2 (Js.max 1 (pitch f)).

Definition rangesOf (first : AudioFrame) (rest : list AudioFrame) : Ranges :=
  mkRanges
    (Js.minOf (logPitch first) (map logPitch rest))
    (Js.maxOf (logPitch first) (map logPitch rest))
    (Js.minOf (centroid first) (map centroid rest))
    (Js.maxOf (centroid first) (map centroid rest))
    (Js.minOf (bandwidth first) (map bandwidth rest))
    (Js.maxOf (bandwidth first) (map bandwidth rest))
    (Js.maxOf (amplitude first) (map amplitude rest)).

Definition toPoint (r : Ranges) (segment : VerseSegment) (frame : AudioFrame)
  : VisualizationPoint :=
  let verseDuration :=
    Segmenter.seg_end segment - Segmenter.seg_start segment in
  let normalizedTime :=
    if Js.ltb 0 verseDuration
    then (t frame - Segmenter.seg_start segment) / verseDuration else 0 in
  let normalizedPitch :=
    normalizeValue (logPitch frame) (pitchMin r) (pitchMax r) in
  let normalizedCentroid :=
    normalizeValue (centroid frame) (centroidMin r) (centroidMax r) in
  let normalizedBandwidth :=
    normalizeValue (bandwidth frame) (bandwidthMin r) (bandwidthMax r) in
  let normalizedAmplitude :=
    if Js.ltb 0 (amplitudeMax r) then amplitude frame / amplitudeMax r
    else 0 in
  let hue := normalizedCentroid in
  let saturation := (7 # 10) + normalizedBandwidth * (3 # 10) in
  let lightness := (4 # 10) + normalizedAmplitude * (4 # 10) in
  let complexity := (1 - spectralFlatness frame) * normalizedBandwidth in
  let band := fst (pickDominantBand frame) in
  let bandOffsetZ :=
    match band with low => - (8 # 10) | mid => 0 | high => 8 # 10 end in
  mkPoint normalizedTime normalizedPitch normalizedCentroid
          ((3 # 10) + normalizedAmplitude * (7 # 10))
          (hue, saturation, lightness) (t frame) (beatStrength frame)
          complexity band bandOffsetZ
          (onsetLow frame) (onsetMid frame) (onsetHigh frame).

Definition maxPoints : nat := 400.

Definition toVerse (r : Ranges) (verseIndex : nat) (segment : VerseSegment)
  : Verse :=
  let frames := Segmenter.seg_frames segment in
  let step := Nat.max 1 (length frames / maxPoints) in
  let sampledFrames := everyNth step frames in
  let points := map (toPoint r segment) sampledFrames in
  let edges :=
    if (1 <? length points)%nat then findKNearestNeighbors points 3 else [] in
  mkVerse verseIndex
          (String.append "Phrase " (Knn.nat_to_string (verseIndex + 1)))
          (Segmenter.seg_start segment) (Segmenter.seg_end segment)
          points edges.

Definition mapFramesToVisualization (verseSegments : list VerseSegment)
  (duration : Q) : list Verse :=
  match flat_map (@Segmenter.seg_frames AudioFrame) verseSegments with
  | [] => []
  | first :: rest =>
      let r := rangesOf first rest in
      map (fun p => toVerse r (fst p) (snd p))
          (combine (seq 0 (length verseSegments)) verseSegments)
  end.

(** [analyzeAudioFile], from the decoded PCM samples on: reading the file,
    transcoding and parsing the WAV header come before and are not part of
    the model. *)
Definition analyzeAudioFile (samples : list Q) (sampleRate : Q)
  : AnalysisError + AnalysisResult :=
  if (length samples =? 0)%nat then inl CouldNotExtractSamples
  else
    let duration := inject_Z (Z.of_nat (length samples)) / sampleRate in
    let frames := extractAudioFrames samples sampleRate in
    let verseSegments := segmentIntoVerses frames duration in
    let verses := mapFramesToVisualization verseSegments duration in
    inr (mkResult duration sampleRate verses).

End Pipeline.
End Server.

(** ** The server pipeline, second variant (MFCC frames reduced by PCA) *)

Module ServerPca.

Record Coordinates : Type := mkCoordinates {
  x : Q;
  y : Q;
  z : Q
}.

Record AudioFrame : Type := mkFrame {
  t : Q;
  mfccs : list Q;
  pcaCoordinates : option Coordinates;
  frequency : option Q;
  amplitude : option Q
}.

(** [frame.amplitude || 0]. *)
Definition amplitudeOrZero (frame : AudioFrame) : Q :=
  match amplitude frame with
  | Some a => a
  | None => 0
  end.

Definition segmentIntoVerses (frames : list AudioFrame) (duration : Q)
  : list (Segmenter.VerseSegment AudioFrame) :=
  Segmenter.segmentIntoVerses t amplitudeOrZero frames duration.

(** *** The matrix operations used from the linear-algebra library *)

Definition Matrix : Type := list (list Q).

Definition rows (m : Matrix) : nat := length m.

Definition columns (m : Matrix) : nat :=
  match m with
  | [] => 0
  | row :: _ => length row
  end.

Definition get (m : Matrix) (r c : nat) : Q := nth c (nth r m []) 0.

Definition sumOver (n : nat) (f : nat -> Q) : Q :=
  fold_left (fun acc i => acc + f i) (seq 0 n) 0.

(** [m.mean('column')]. *)
Definition meanByColumn (m : Matrix) : list Q :=
  map (fun c => sumOver (rows m) (fun r => get m r c)
                / inject_Z (Z.of_nat (rows m)))
      (seq 0 (columns m)).

Definition transpose (m : Matrix) : Matrix :=
  map (fun c => map (fun r => get m r c) (seq 0 (rows m)))
      (seq 0 (columns m)).

Definition mmul (a b : Matrix) : Matrix :=
  map (fun i =>
         map (fun j => sumOver (columns a) (fun k => get a i k * get b k j))
             (seq 0 (columns b)))
      (seq 0 (rows a)).

Definition div (m : Matrix) (s : Q) : Matrix :=
  map (fun row => map (fun v => v / s) row) m.

(** The result of [new EigenvalueDecomposition(covariance, ...)]. *)
Record Decomposition : Type := mkDecomposition {
  eigenvectorMatrix : Matrix;
  realEigenvalues : list Q
}.

(** *** Fallback coordinates and [applyPCA] *)

Definition PCA_MFCC_DIM : nat := 40.
Definition PCA_SAMPLE_LIMIT : nat := 2000.

Definition setCoordinates (frame : AudioFrame) (c : Coordinates)
  : AudioFrame :=
  mkFrame (t frame) (mfccs frame) (Some c) (frequency frame) (amplitude frame).

(** [(frame.mfccs[i] ?? 0) * 0.1] on each of the first three coefficients. *)
Definition fallbackPcaCoordinates (frames : list AudioFrame)
  : list AudioFrame :=
  map (fun frame =>
         setCoordinates frame
           (mkCoordinates (nth 0 (mfccs frame) 0 * (1 # 10))
                          (nth 1 (mfccs frame) 0 * (1 # 10))
                          (nth 2 (mfccs frame) 0 * (1 # 10))))
      frames.

(** A row of the sampled matrix: the coefficients cut or zero-padded to
    [numCols] entries. *)
Definition sampledRow (numCols : nat) (m : list Q) : list Q :=
  if (length m =? numCols)%nat then m
  else if (numCols <? length m)%nat then firstn numCols m
  else m ++ repeat 0 (numCols - length m).

(** [for (let i = 0; i < frames.length; i += sampleStep)]. *)
Definition sampledFrames (sampleStep : nat) (frames : list AudioFrame)
  : list AudioFrame :=
  map snd
      (filter (fun p : nat * AudioFrame => (fst p mod sampleStep =? 0)%nat)
              (combine (seq 0 (length frames)) frames)).

(** The sampled matrix after the column means have been subtracted. *)
Definition centre (numCols : nat) (m : Matrix) (means : list Q) : Matrix :=
  map (fun row =>
         map (fun col =>
                if (col <? numCols)%nat then nth col row 0 - nth col means 0
                else nth col row 0)
             (seq 0 (length row)))
      m.

(** [eigenvalues.map((val, idx) => ({ val, idx })).sort((a, b) => b.val -
    a.val)]: descending, entries of equal value keeping their order. *)
Fixpoint insertDescending (e : Q * nat) (sorted : list (Q * nat))
  : list (Q * nat) :=
  match sorted with
  | [] => [e]
  | e' :: rest =>
      if Js.leb (fst e') (fst e) then e :: e' :: rest
      else e' :: insertDescending e rest
  end.

Definition sortDescending (eigenvalues : list Q) : list (Q * nat) :=
  fold_right insertDescending []
             (combine eigenvalues (seq 0 (length eigenvalues))).

(** A principal component: column [col] of the eigenvector matrix. *)
Definition componentOf (numCols : nat) (eigenvectors : Matrix) (col : nat)
  : list Q :=
  map (fun r => get eigenvectors r col) (seq 0 numCols).

(** The projection of one frame onto a component:
    [(d < m.length ? m[d] : 0) - means[d]], times the component. *)
Definition project (numCols : nat) (means pc : list Q) (m : list Q) : Q :=
  sumOver numCols (fun d => (nth d m 0 - nth d means 0) * nth d pc 0).

Definition maxAbsOf (coords : list Coordinates) : Q :=
  fold_left
    (fun maxAbs c =>
       Js.max (Js.max (Js.max maxAbs (Js.abs (x c))) (Js.abs (y c)))
              (Js.abs (z c)))
    coords 0.

Section WithDecomposition.

(** The eigenvalue decomposition of the library; [None] stands for a
    thrown exception. *)
Variable eigenvalueDecomposition : Matrix -> option Decomposition.

(** The sample covariance matrix handed to the decomposition. *)
Definition sampleCovariance (frames : list AudioFrame) : Matrix * list Q :=
  let numCols := PCA_MFCC_DIM in
  let sampleStep :=
    if (PCA_SAMPLE_LIMIT <? length frames)%nat
    then (length frames / PCA_SAMPLE_LIMIT)%nat else 1%nat in
  let sampledData :=
    map (fun f => sampledRow numCols (mfccs f))
        (sampledFrames sampleStep frames) in
  let means := meanByColumn sampledData in
  let sampledMatrix := centre numCols sampledData means in
  (div (mmul (transpose sampledMatrix) sampledMatrix)
       (inject_Z (Z.of_nat (rows sampledMatrix) - 1)),
   means).

(** The body of the [try] block after the decomposition; [None] stands
    for an exception (reading [sorted[k].idx] past the end of [sorted]). *)
Definition projectAll (frames : list AudioFrame) (means : list Q)
  (evd : Decomposition) : option (list AudioFrame) :=
  let numCols := PCA_MFCC_DIM in
  let eigenvectors := eigenvectorMatrix evd in
  let sorted := sortDescending (realEigenvalues evd) in
  match sorted with
  | e0 :: e1 :: e2 :: _ =>
      let pc0 := componentOf numCols eigenvectors (snd e0) in
      let pc1 := componentOf numCols eigenvectors (snd e1) in
      let pc2 := componentOf numCols eigenvectors (snd e2) in
      let coords :=
        map (fun f =>
               mkCoordinates (project numCols means pc0 (mfccs f))
                             (project numCols means pc1 (mfccs f))
                             (project numCols means pc2 (mfccs f)))
            frames in
      let maxAbs := maxAbsOf coords in
      let scale := if Js.ltb 0 maxAbs then 5 / maxAbs else 1 in
      Some (map (fun fc : AudioFrame * Coordinates =>
                   setCoordinates (fst fc)
                     (mkCoordinates (x (snd fc) * scale) (y (snd fc) * scale)
                                    (z (snd fc) * scale)))
                (combine frames coords))
  | _ => None
  end.

Definition applyPCA (frames : list AudioFrame) : list AudioFrame :=
  match frames with
  | [] => frames
  | [_] => fallbackPcaCoordinates frames
  | _ =>
      let '(covariance, means) := sampleCovariance frames in
      match eigenvalueDecomposition covariance with
      | None => fallbackPcaCoordinates frames
      | Some evd =>
          let eigenvectors := eigenvectorMatrix evd in
          if negb (rows eigenvectors =? PCA_MFCC_DIM)%nat
             || negb (columns eigenvectors =? PCA_MFCC_DIM)%nat
          then fallbackPcaCoordinates frames
          else match projectAll frames means evd with
               | Some projected => projected
               | None => fallbackPcaCoordinates frames
               end
      end
  end.

End WithDecomposition.
End ServerPca.

(** *** Frame extraction and mapping of the second variant *)

Module ServerPcaPipeline.

(** The kernels that use [Math.cos], [Math.sin], [Math.sqrt] and
    [Math.log]; the frame loop takes them as parameters. *)
Record Kernels : Type := mkKernels {
  computeFFT : list Q -> nat -> nat -> list Q;
  createMelFilterbank : nat -> nat -> Q -> list (list Q);
  extractMFCCsFromFFT : list Q -> list (list Q) -> nat -> list Q;
  computeRMS : list Q -> nat -> nat -> Q
}.

(** The loop of [calculateDominantFrequency]: [(maxMag, maxBin)] after the
    bins [1 .. fft.length - 1]. *)
Definition dominantBin (fft : list Q) : Q * nat :=
  fold_left
    (fun best i =>
       if Js.ltb (fst best) (nth i fft 0) then (nth i fft 0, i) else best)
    (seq 1 (length fft - 1)) (0, 0%nat).

Definition calculateDominantFrequency (fft : list Q) (sampleRate : Q)
  (fftSize : nat) : Q :=
  inject_Z (Z.of_nat (snd (dominantBin fft))) * sampleRate
  / inject_Z (Z.of_nat fftSize).

Definition frameSize : nat := 512.
Definition MAX_FRAMES : Z := 2000.
Definition minHopSize : Z := 256.

(** [samples.length - frameSize]. *)
Definition span (samples : list Q) : Z :=
  Z.of_nat (length samples) - Z.of_nat frameSize.

Definition naturalFrames (samples : list Q) : Z :=
  Js.floor (inject_Z (span samples) / inject_Z minHopSize).

Definition hopSize (samples : list Q) : Z :=
  if (MAX_FRAMES <? naturalFrames samples)%Z
  then Js.floor (inject_Z (span samples) / inject_Z MAX_FRAMES)
  else minHopSize.

Definition numFrames (samples : list Q) : Z :=
  Js.floor (inject_Z (span samples) / inject_Z (hopSize samples)).

Section Pipeline.

Variable K : Kernels.
Variable eigenvalueDecomposition :
  ServerPca.Matrix -> option ServerPca.Decomposition.
Variable sqrt : Q -> Q.

(** The body of [for (let i = 0; i < numFrames; i++)]. *)
Definition frameAt (samples : list Q) (sampleRate : Q)
  (filterbank : list (list Q)) (i : nat) : ServerPca.AudioFrame :=
  let start := (i * Z.to_nat (hopSize samples))%nat in
  let t := inject_Z (Z.of_nat start) / sampleRate in
  let fft := computeFFT K samples start frameSize in
  let mfccs := extractMFCCsFromFFT K fft filterbank 40 in
  let amplitude := computeRMS K samples start frameSize in
  let frequency := calculateDominantFrequency fft sampleRate frameSize in
  ServerPca.mkFrame t mfccs None (Some frequency) (Some amplitude).

Definition extractAudioFrames (samples : list Q) (sampleRate : Q)
  : list ServerPca.AudioFrame :=
  let filterbank := createMelFilterbank K 26 frameSize sampleRate in
  map (frameAt samples sampleRate filterbank)
      (seq 0 (Z.to_nat (numFrames samples))).

Record VisualizationPoint : Type := mkPoint {
  x : Q;
  y : Q;
  z : Q;
  size : Q;
  color : Q * Q * Q;
  time : Q;
  mfccs : list Q;
  frequency : option Q
}.

Record Verse : Type := mkVerse {
  id : nat;
  name : string;
  start : Q;
  end_ : Q;
  points : list VisualizationPoint;
  edges : list (nat * nat)
}.

Record AnalysisResult : Type := mkResult {
  duration : Q;
  sampleRate : Q;
  verses : list Verse
}.

Inductive AnalysisError : Type := CouldNotExtractSamples.

Definition VerseSegment : Type := Segmenter.VerseSegment ServerPca.AudioFrame.

Definition mapFrequencyToHue (frequency : Q) : Q :=
  let normalized := Js.min (frequency / 10000) 1 in
  normalized * 60.

(** [frame.frequency || 0]. *)
Definition frequencyOrZero (frame : ServerPca.AudioFrame) : Q :=
  match ServerPca.frequency frame with
  | Some f => f
  | None => 0
  end.

Definition findKNearestNeighbors (points : list VisualizationPoint) (k : nat)
  : list (nat * nat) :=
  Knn.findKNearestNeighbors x y z sqrt points k.

Definition toPoint (amplitudeMax : Q) (frame : ServerPca.AudioFrame)
  : VisualizationPoint :=
  let c :=
    match ServerPca.pcaCoordinates frame with
    | Some c => c
    | None => ServerPca.mkCoordinates 0 0 0
    end in
  let hue := mapFrequencyToHue (frequencyOrZero frame) in
  let saturation := 8 # 10 in
  let lightness := 6 # 10 in
  let normalizedAmplitude :=
    if Js.ltb 0 amplitudeMax
    then ServerPca.amplitudeOrZero frame / amplitudeMax else 1 # 2 in
  let size := (5 # 100) + normalizedAmplitude * (15 # 100) in
  mkPoint (ServerPca.x c) (ServerPca.y c) (ServerPca.z c) size
          (hue, saturation, lightness) (ServerPca.t frame)
          (ServerPca.mfccs frame) (ServerPca.frequency frame).

Definition maxPoints : nat := 400.

Definition toVerse (amplitudeMax : Q) (verseIndex : nat)
  (segment : VerseSegment) : Verse :=
  let frames := Segmenter.seg_frames segment in
  let step := Nat.max 1 (length frames / maxPoints) in
  let sampledFrames := Server.everyNth step frames in
  let points := map (toPoint amplitudeMax) sampledFrames in
  let edges :=
    if (1 <? length points)%nat then findKNearestNeighbors points 3 else [] in
  mkVerse verseIndex
          (String.append "Phrase " (Knn.nat_to_string (verseIndex + 1)))
          (Segmenter.seg_start segment) (Segmenter.seg_end segment)
          points edges.

Definition mapFramesToVisualization (verseSegments : list VerseSegment)
  (duration : Q) : list Verse :=
  match flat_map (@Segmenter.seg_frames ServerPca.AudioFrame) verseSegments with
  | [] => []
  | first :: rest =>
      let amplitudeMax :=
        Js.maxOf (ServerPca.amplitudeOrZero first)
                 (map ServerPca.amplitudeOrZero rest) in
      map (fun p => toVerse amplitudeMax (fst p) (snd p))
          (combine (seq 0 (length verseSegments)) verseSegments)
  end.

(** [analyzeAudioFile], from the decoded PCM samples on. *)
Definition analyzeAudioFile (samples : list Q) (sampleRate : Q)
  : AnalysisError + AnalysisResult :=
  if (length samples =? 0)%nat then inl CouldNotExtractSamples
  else
    let duration := inject_Z (Z.of_nat (length samples)) / sampleRate in
    let frames := extractAudioFrames samples sampleRate in
    let framesWithPCA := ServerPca.applyPCA eigenvalueDecomposition frames in
    let verseSegments := ServerPca.segmentIntoVerses framesWithPCA duration in
    let verses := mapFramesToVisualization verseSegments duration in
    inr (mkResult duration sampleRate verses).

End Pipeline.

End ServerPcaPipeline.

(** ** The visual mapper of the client ([mapToVisualPoints]) *)

Module VisualMapper.

(** [a % 1] on numbers: the remainder has the sign of [a]. *)
Definition rem1 (a : Q) : Q :=
  a - inject_Z (Z.quot (Qnum a) (Zpos (Qden a))).

Definition hsvToRgb (h s v : Q) : Q * Q * Q :=
  let h := rem1 (rem1 h + 1) in
  let i := Js.floor (h * 6) in
  let f := h * 6 - inject_Z i in
  let p := v * (1 - s) in
  let q := v * (1 - f * s) in
  let t := v * (1 - (1 - f) * s) in
  match Z.rem i 6 with
  | 0%Z => (v, t, p)
  | 1%Z => (q, v, p)
  | 2%Z => (p, v, t)
  | 3%Z => (p, q, v)
  | 4%Z => (t, p, v)
  | 5%Z => (v, p, q)
  | _ => (v, t, p)
  end.

Definition chromaConcentration (chroma : list Q) : Q :=
  match chroma with
  | [] => 0
  | c :: rest => Js.maxOf c rest
  end.

Record EmbeddedPoint : Type := mkEmbedded {
  time : Q;
  position : option (list Q);
  color : Q * Q * Q;
  size : Q;
  opacity : Q;
  loudness : Q;
  f0 : option Q;
  f0Conf : Q;
  centroid : Q;
  p_chromaConcentration : Q
}.

(** The normalization ranges observed over the frames. *)
Record Ranges : Type := mkRanges {
  loudMin : Q; loudMax : Q;
  centMin : Q; centMax : Q;
  f0Min : Q; f0Max : Q
}.

Section WithMath.

Variable log2 : Q -> Q.

(** [frames.filter(f => f.f0 !== null).map(f => Math.log2(f.f0!))]. *)
Definition logPitches (frames : list AudioFeatures.FrameFeatures) : list Q :=
  flat_map
    (fun f =>
       match AudioFeatures.ff_f0 f with
       | Some v => [log2 v]
       | None => []
       end)
    frames.

Definition rangesOf (first : AudioFeatures.FrameFeatures)
  (rest : list AudioFeatures.FrameFeatures) : Ranges :=
  let f0s := logPitches (first :: rest) in
  mkRanges
    (Js.minOf (AudioFeatures.loudness first) (map AudioFeatures.loudness rest))
    (Js.maxOf (AudioFeatures.loudness first) (map AudioFeatures.loudness rest))
    (Js.minOf (AudioFeatures.centroid first) (map AudioFeatures.centroid rest))
    (Js.maxOf (AudioFeatures.centroid first) (map AudioFeatures.centroid rest))
    (match f0s with [] => 0 | a :: more => Js.minOf a more end)
    (match f0s with [] => 1 | a :: more => Js.maxOf a more end).

(** The body of [frames.map((frame, i) => ...)]. *)
Definition toPoint (r : Ranges) (positions : list (list Q)) (i : nat)
  (frame : AudioFeatures.FrameFeatures) : EmbeddedPoint :=
  let hue :=
    match AudioFeatures.ff_f0 frame with
    | Some v =>
        if Js.ltb (3 # 10) (AudioFeatures.f0Conf frame)
        then norm (log2 v) (f0Min r) (f0Max r)
        else norm (AudioFeatures.centroid frame) (centMin r) (centMax r)
    | None => norm (AudioFeatures.centroid frame) (centMin r) (centMax r)
    end in
  let chromaConc := chromaConcentration (AudioFeatures.chroma frame) in
  let saturation := (3 # 10) + chromaConc * (7 # 10) in
  let loudNorm := norm (AudioFeatures.loudness frame) (loudMin r) (loudMax r) in
  let brightness := (2 # 10) + loudNorm * (8 # 10) in
  let color := hsvToRgb hue saturation brightness in
  let baseSize := 3 # 10 in
  let confFactor := (3 # 10) + (7 # 10) * AudioFeatures.f0Conf frame in
  let loudFactor := (3 # 10) + (7 # 10) * loudNorm in
  let size := baseSize * loudFactor * confFactor in
  let opacity :=
    (2 # 10)
    + (8 # 10) * loudNorm * ((3 # 10) + (7 # 10) * AudioFeatures.f0Conf frame) in
  mkEmbedded (AudioFeatures.time frame) (nth_error positions i) color size
             opacity (AudioFeatures.loudness frame) (AudioFeatures.ff_f0 frame)
             (AudioFeatures.f0Conf frame) (AudioFeatures.centroid frame)
             chromaConc.

Definition mapToVisualPoints (frames : list AudioFeatures.FrameFeatures)
  (positions : list (list Q)) : list EmbeddedPoint :=
  match frames with
  | [] => []
  | first :: rest =>
      let r := rangesOf first rest in
      map (fun p => toPoint r positions (fst p) (snd p))
          (combine (seq 0 (length frames)) frames)
  end.

End WithMath.

End VisualMapper.

(** ** The analysis run by the page ([handleUploadComplete]) *)

Module Home.

Definition maxPoints : Z := 8000.

(** [points.filter((_, i) => i % step === 0)] with
    [step = Math.ceil(points.length / maxPoints)], when there are more than
    [maxPoints] points. *)
Definition downsample {A : Type} (points : list A) : list A :=
  if (maxPoints <? Z.of_nat (length points))%Z then
    let step :=
      Z.to_nat (Js.ceil (inject_Z (Z.of_nat (length points))
                         / inject_Z maxPoints)) in
    Server.everyNth step points
  else points.

(** Phases 2 to 4 and the downsampling, from the decoded buffer on. *)
Definition analysedPoints (K : AudioFeatures.Kernels) (sqrt log2 : Q -> Q)
  (audioBuffer : AudioFeatures.AudioBuffer)
  : list VisualMapper.EmbeddedPoint :=
  let frames :=
    AudioFeatures.extractFeatures K log2 audioBuffer
      (AudioFeatures.mkConfig 2048 512 40 80) in
  let pcaResult := Pca.computePCA sqrt log2 frames in
  let points :=
    VisualMapper.mapToVisualPoints log2 frames (Pca.positions pcaResult) in
  downsample points.

End Home.

(** ** Spectral and time-domain descriptors without transcendental
    functions *)

Module ClientDescriptors.

(** [computeSpectralCentroid] of the client: [(sumMag, sumFreqMag)] over
    the bins [1 .. magnitude.length - 1]. *)
Definition centroidSums (magnitude : list Q) (fftSize : nat) (sampleRate : Q)
  : Q * Q :=
  fold_left
    (fun acc k =>
       let freq :=
         inject_Z (Z.of_nat k) * sampleRate / inject_Z (Z.of_nat fftSize) in
       (fst acc + nth k magnitude 0, snd acc + freq * nth k magnitude 0))
    (seq 1 (length magnitude - 1)) (0, 0).

Definition computeSpectralCentroid (magnitude : list Q) (fftSize : nat)
  (sampleRate : Q) : Q :=
  let '(sumMag, sumFreqMag) := centroidSums magnitude fftSize sampleRate in
  if Js.ltb 0 sumMag then sumFreqMag / sumMag else 0.

End ClientDescriptors.

Module ServerDescriptors.

(** The test of [computeZeroCrossingRate] at index [i]. *)
Definition isCrossing (samples : list Q) (i : nat) : bool :=
  (Js.leb 0 (nth i samples 0) && Js.ltb (nth (i - 1) samples 0) 0)
  || (Js.ltb (nth i samples 0) 0 && Js.leb 0 (nth (i - 1) samples 0)).

(** [computeZeroCrossingRate]; on an empty window JavaScript divides 0 by
    0, here the quotient by zero is 0. *)
Definition computeZeroCrossingRate (samples : list Q) (start len : nat) : Q :=
  let end_ := Nat.min (start + len) (length samples) in
  let crossings :=
    length (filter (isCrossing samples) (seq (start + 1) (end_ - (start + 1))))
  in
  inject_Z (Z.of_nat crossings) / inject_Z (Z.of_nat end_ - Z.of_nat start).

(** The first loop of [computeSpectralFeatures]:
    [(sumMag, sumFreqMag)]. *)
Definition centroidSums (fft : list Q) (frameSize : nat) (sampleRate : Q)
  : Q * Q :=
  let freqBinWidth := sampleRate / inject_Z (Z.of_nat frameSize) in
  fold_left
    (fun acc k =>
       let freq := inject_Z (Z.of_nat k) * freqBinWidth in
       (fst acc + nth k fft 0, snd acc + freq * nth k fft 0))
    (seq 1 (length fft - 1)) (0, 0).

Definition computeSpectralFeatures (sqrt : Q -> Q) (fft : list Q)
  (frameSize : nat) (sampleRate : Q) : Q * Q :=
  let freqBinWidth := sampleRate / inject_Z (Z.of_nat frameSize) in
  let '(sumMag, sumFreqMag) := centroidSums fft frameSize sampleRate in
  let centroid := if Js.ltb 0 sumMag then sumFreqMag / sumMag else 1000 in
  let sumBandwidth :=
    fold_left
      (fun acc k =>
         let freq := inject_Z (Z.of_nat k) * freqBinWidth in
         acc + nth k fft 0 * ((freq - centroid) * (freq - centroid)))
      (seq 1 (length fft - 1)) 0 in
  let bandwidth :=
    if Js.ltb 0 sumMag then sqrt (sumBandwidth / sumMag) else 500 in
  (centroid, bandwidth).

End ServerDescriptors.

(** ** Concrete inputs for the examples *)

Module Sample.

(** A square root on rationals, exact on the squares of rationals (below:
    on squared integer distances); the floor of the root otherwise. *)
Definition sqrtQ (q : Q) : Q :=
  Z.sqrt (Qnum q * Zpos (Qden q)) # Qden q.

(** A base-2 logarithm on rationals, exact on the powers of two. *)
Definition log2Q (q : Q) : Q := inject_Z (Z.log2 (Js.floor q)).

(** A frame of the first server variant with the given time and amplitude
    and every other feature at 0. *)
Definition frameAt (t amplitude : Q) : Server.AudioFrame :=
  Server.mkFrame t 0 0 0 amplitude 0 0 0 0 0 0 0 0 0 0.

(** A point of the first server variant on the x axis. *)
Definition pointAt (x : Q) : Server.VisualizationPoint :=
  Server.mkPoint x 0 0 (3 # 10) (0, 7 # 10, 4 # 10) 0 0 0 Server.mid 0 0 0 0.

(** Stand-in kernels that report zero features and an empty spectrum: the
    theorems hold for every choice of kernels, the examples need one. *)
Definition serverKernels : Server.Kernels :=
  Server.mkKernels
    (fun _ _ _ => 0) (fun _ _ _ => 0) (fun _ _ _ => [])
    (fun _ _ _ => (0, 0)) (fun _ _ => 0) (fun _ => 0)
    (fun _ _ _ => (0, 0, 0)).

Definition clientKernels : AudioFeatures.Kernels :=
  AudioFeatures.mkKernels
    (fun _ => []) (fun _ _ _ => []) (fun _ _ _ _ => []) (fun _ _ _ => [])
    (fun _ _ _ => 0) (fun _ _ _ => 0) (fun _ _ _ _ => 0) (fun _ => 0)
    (fun _ _ => 0).

End Sample.

(** ** Theorems *)

(** An invariant of the loop body holds after the loop. *)
Lemma fold_left_invariant {A B : Type} (P : A -> Prop) (f : A -> B -> A)
  (l : list B) (a : A) :
  P a -> (forall s x, In x l -> P s -> P (f s x)) -> P (fold_left f l a).
Proof.
  revert a. induction l as [|x l IH]; intros a Ha Hstep; simpl.
  - exact Ha.
  - apply IH.
    + apply Hstep; [left; reflexivity | exact Ha].
    + intros s y Hy. apply Hstep. right. exact Hy.
Qed.

Lemma In_firstn {A : Type} (x : A) (n : nat) (l : list A) :
  In x (firstn n l) -> In x l.
Proof.
  revert l. induction n as [|n IH]; intros [|y l]; simpl; try tauto.
  intros [H|H]; [left; exact H | right; apply IH; exact H].
Qed.

(** *** The frame loops *)

(** [Math.floor(a / b)] on integers with a positive divisor. *)
Lemma floor_div (a b : Z) :
  (0 < b)%Z -> Js.floor (inject_Z a / inject_Z b) = (a / b)%Z.
Proof.
  intro Hb. destruct b as [|p|p]; try lia.
  unfold Js.floor, Qfloor, Qdiv, Qmult, Qinv, inject_Z. simpl.
  rewrite Z.mul_1_r. reflexivity.
Qed.

(** The time of the frame that starts at sample [i * hopSize]. *)
Definition gridTime (hopSize : nat) (sampleRate : Q) (i : nat) : Q :=
  inject_Z (Z.of_nat (i * hopSize)) / sampleRate.

Lemma gridTime_increasing (hopSize : nat) (sampleRate : Q) (i j : nat) :
  (0 < hopSize)%nat -> 0 < sampleRate -> (i < j)%nat ->
  gridTime hopSize sampleRate i < gridTime hopSize sampleRate j.
Proof.
  intros Hh Hs Hij. unfold gridTime, Qdiv.
  apply Qmult_lt_compat_r.
  - apply Qinv_lt_0_compat. exact Hs.
  - rewrite <- Zlt_Qlt. apply Nat2Z.inj_lt.
    apply Nat.mul_lt_mono_pos_r; assumption.
Qed.

(** The frames lie on the hop grid: there are
    [floor((numSamples - frameSize) / hopSize)] of them, frame [i] has time
    [i * hopSize / sampleRate], and the times increase strictly. *)
Definition framesOnGrid {F : Type} (time : F -> Q) (frames : list F)
  (numSamples frameSize hopSize : nat) (sampleRate : Q) : Prop :=
  Z.of_nat (length frames)
  = ((Z.of_nat numSamples - Z.of_nat frameSize) / Z.of_nat hopSize)%Z /\
  (forall i f, nth_error frames i = Some f ->
               time f = inject_Z (Z.of_nat (i * hopSize)) / sampleRate) /\
  (forall i j fi fj, (i < j)%nat ->
                     nth_error frames i = Some fi ->
                     nth_error frames j = Some fj ->
                     time fi < time fj).

Lemma framesOnGrid_of_times {F : Type} (time : F -> Q) (frames : list F)
  (numSamples frameSize hopSize : nat) (sampleRate : Q) :
  (0 < hopSize)%nat -> 0 < sampleRate -> (frameSize <= numSamples)%nat ->
  map time frames
  = map (gridTime hopSize sampleRate)
        (seq 0 (Z.to_nat ((Z.of_nat numSamples - Z.of_nat frameSize)
                          / Z.of_nat hopSize))) ->
  framesOnGrid time frames numSamples frameSize hopSize sampleRate.
Proof.
  intros Hh Hs Hlen Hmap.
  set (n := Z.to_nat ((Z.of_nat numSamples - Z.of_nat frameSize)
                      / Z.of_nat hopSize)) in *.
  assert (Hn : length frames = n).
  { rewrite <- (length_map time), Hmap, length_map, length_seq. reflexivity. }
  assert (Hat : forall i f, nth_error frames i = Some f ->
                            time f = gridTime hopSize sampleRate i).
  { intros i f Hf.
    assert (Hi : (i < n)%nat).
    { rewrite <- Hn. apply nth_error_Some. congruence. }
    pose proof (map_nth_error time i frames Hf) as H1.
    rewrite Hmap in H1.
    rewrite (map_nth_error (gridTime hopSize sampleRate) i (seq 0 n)
               (d := i)) in H1.
    - congruence.
    - rewrite nth_error_nth' with (d := O) by (rewrite length_seq; exact Hi).
      rewrite seq_nth by exact Hi. reflexivity. }
  repeat split.
  - rewrite Hn. unfold n. apply Z2Nat.id.
    apply Z.div_pos; lia.
  - exact Hat.
  - intros i j fi fj Hij Hi Hj.
    rewrite (Hat i fi Hi), (Hat j fj Hj).
    apply gridTime_increasing; assumption.
Qed.

Section ClientLoop.

Import AudioFeatures.

Variable K : Kernels.
Variable log2 : Q -> Q.

Lemma client_loop_times (cfg : AnalysisConfig) (samples : list Q)
  (sampleRate : Q) (window : list Q) (melFilters : list (list Q))
  (l : list nat) (st : LoopState) :
  map time
      (fst (fold_left
              (frameStep K log2 cfg samples sampleRate window melFilters)
              l st))
  = map time (fst st) ++ map (gridTime (cfg_hopSize cfg) sampleRate) l.
Proof.
  revert st. induction l as [|i l IH]; intro st; simpl.
  - rewrite app_nil_r. reflexivity.
  - rewrite IH. simpl. rewrite map_app, <- app_assoc. reflexivity.
Qed.

Lemma mixToMono_length (audioBuffer : AudioBuffer) :
  length (mixToMono audioBuffer) = ab_length audioBuffer.
Proof. unfold mixToMono. rewrite length_map, length_seq. reflexivity. Qed.

Lemma extractFeatures_on_grid (audioBuffer : AudioBuffer)
  (cfg : AnalysisConfig) :
  (0 < cfg_hopSize cfg)%nat -> 0 < ab_sampleRate audioBuffer ->
  (cfg_frameSize cfg <= ab_length audioBuffer)%nat ->
  framesOnGrid time (extractFeatures K log2 audioBuffer cfg)
               (ab_length audioBuffer) (cfg_frameSize cfg) (cfg_hopSize cfg)
               (ab_sampleRate audioBuffer).
Proof.
  intros Hh Hs Hlen. apply framesOnGrid_of_times; try assumption.
  unfold extractFeatures. rewrite client_loop_times. simpl.
  unfold numFrames. rewrite mixToMono_length, floor_div by lia.
  reflexivity.
Qed.

End ClientLoop.

Section ServerLoop.

Import Server.

Variable K : Kernels.

Lemma server_loop_times (samples : list Q) (sampleRate : Q)
  (l : list nat) (st : LoopState) :
  map t (loop_frames (fold_left (frameStep K samples sampleRate) l st))
  = map t (loop_frames st) ++ map (gridTime hopSize sampleRate) l.
Proof.
  revert st. induction l as [|i l IH]; intro st; simpl.
  - rewrite app_nil_r. reflexivity.
  - rewrite IH. unfold frameStep.
    destruct (computeSpectralFeatures K _ _ _) as (c, b).
    destruct (computeBandEnergies K _ _ _) as ((lo, mi), hi).
    simpl. rewrite map_app, <- app_assoc. reflexivity.
Qed.

Lemma smoothLoop_times (s : Smoothed) (frames : list AudioFrame) :
  map t (smoothLoop s frames) = map t frames.
Proof.
  revert s. induction frames as [|f fs IH]; intro s; simpl.
  - reflexivity.
  - rewrite IH. reflexivity.
Qed.

Lemma applyTemporalSmoothing_times (frames : list AudioFrame) :
  map t (applyTemporalSmoothing frames) = map t frames.
Proof.
  unfold applyTemporalSmoothing.
  destruct (length frames <? 3)%nat; [reflexivity|].
  destruct frames as [|f0 fs]; [reflexivity|].
  apply smoothLoop_times.
Qed.

Lemma onsetLoop_times (a b c : Q) (frames : list AudioFrame) :
  map t (onsetLoop a b c frames) = map t frames.
Proof.
  revert a b c. induction frames as [|f fs IH]; intros a b c; simpl.
  - reflexivity.
  - rewrite IH. reflexivity.
Qed.

Lemma computeBandOnsets_times (frames : list AudioFrame) :
  map t (computeBandOnsets frames) = map t frames.
Proof.
  unfold computeBandOnsets.
  destruct (length frames <? 2)%nat; [reflexivity|].
  destruct frames as [|f0 fs]; [reflexivity|].
  rewrite map_map. simpl t.
  rewrite <- (onsetLoop_times (bandLow f0) (bandMid f0) (bandHigh f0)
                (f0 :: fs)).
  reflexivity.
Qed.

Lemma markBeat_time (nf : list Q) (w i : nat) (f : AudioFrame) :
  t (markBeat nf w i f) = t f.
Proof.
  unfold markBeat.
  destruct ((1 <=? i)%nat && (i + 1 <? length nf)%nat); [|reflexivity].
  destruct (_ && _); reflexivity.
Qed.

Lemma marked_times (nf : list Q) (w : nat) (frames : list AudioFrame)
  (from : nat) :
  map t (map (fun p => markBeat nf w (fst p) (snd p))
             (combine (seq from (length frames)) frames))
  = map t frames.
Proof.
  revert from. induction frames as [|f fs IH]; intro from; simpl.
  - reflexivity.
  - rewrite markBeat_time, IH. reflexivity.
Qed.

Lemma detectBeats_times (frames : list AudioFrame) (sampleRate : Q) :
  map t (detectBeats frames sampleRate) = map t frames.
Proof.
  unfold detectBeats.
  destruct (length frames <? 10)%nat; [reflexivity|].
  destruct (map spectralFlux frames) as [|x xs]; [reflexivity|].
  destruct (Js.eqb (Js.maxOf x xs) 0); [reflexivity|].
  match goal with
  | |- map t (match map beatStrength ?m with _ => _ end) = _ =>
      assert (Hm : map t m = map t frames) by apply marked_times;
      destruct (map beatStrength m) as [|b bs]; [exact Hm|]
  end.
  destruct (Js.ltb 0 (Js.maxOf b bs)); [|exact Hm].
  rewrite map_map. simpl t. exact Hm.
Qed.

Lemma extractAudioFrames_times (samples : list Q) (sampleRate : Q) :
  map t (extractAudioFrames K samples sampleRate)
  = map (gridTime hopSize sampleRate)
        (seq 0 (Z.to_nat (numFrames samples))).
Proof.
  unfold extractAudioFrames.
  rewrite detectBeats_times, computeBandOnsets_times,
    applyTemporalSmoothing_times.
  unfold rawFrames. rewrite server_loop_times. reflexivity.
Qed.

Lemma extractAudioFrames_on_grid (samples : list Q) (sampleRate : Q) :
  0 < sampleRate -> (frameSize <= length samples)%nat ->
  framesOnGrid t (extractAudioFrames K samples sampleRate)
               (length samples) frameSize hopSize sampleRate.
Proof.
  intros Hs Hlen. apply framesOnGrid_of_times; try assumption.
  - unfold hopSize. lia.
  - rewrite extractAudioFrames_times. unfold numFrames.
    rewrite floor_div by (unfold hopSize; lia). reflexivity.
Qed.

(** A buffer too short for a first hop yields no frame at all. *)
Lemma extractAudioFrames_short (samples : list Q) (sampleRate : Q) :
  (length samples < frameSize + hopSize)%nat ->
  extractAudioFrames K samples sampleRate = [].
Proof.
  intro Hlen.
  assert (H : map t (extractAudioFrames K samples sampleRate) = []).
  { rewrite extractAudioFrames_times. unfold numFrames.
    rewrite floor_div by (unfold hopSize; lia).
    unfold frameSize, hopSize in *.
    assert (Hq : ((Z.of_nat (length samples) - Z.of_nat 2048) / Z.of_nat 512
                  < 1)%Z).
    { apply Z.div_lt_upper_bound; lia. }
    replace (Z.to_nat _) with O by lia. reflexivity. }
  destruct (extractAudioFrames K samples sampleRate); [reflexivity|].
  discriminate.
Qed.

End ServerLoop.

(** C1: for a sample buffer with at least [frameSize] samples, a positive
    hop size and a positive sample rate, the feature-extraction loop
    produces exactly [floor((numSamples - frameSize) / hopSize)] frames,
    frame [i] has time [i * hopSize / sampleRate], and the times are
    strictly increasing.  This holds for the client loop under every
    configuration, and for the first server variant with its fixed frame
    size 2048 and hop 512. *)
Theorem frame_count_and_increasing_times
  (K : AudioFeatures.Kernels) (log2 : Q -> Q)
  (audioBuffer : AudioFeatures.AudioBuffer)
  (cfg : AudioFeatures.AnalysisConfig)
  (KS : Server.Kernels) (samples : list Q) (sampleRate : Q) :
  (0 < AudioFeatures.cfg_hopSize cfg)%nat ->
  0 < AudioFeatures.ab_sampleRate audioBuffer ->
  (AudioFeatures.cfg_frameSize cfg <= AudioFeatures.ab_length audioBuffer)%nat ->
  0 < sampleRate ->
  (Server.frameSize <= length samples)%nat ->
  framesOnGrid AudioFeatures.time
               (AudioFeatures.extractFeatures K log2 audioBuffer cfg)
               (AudioFeatures.ab_length audioBuffer)
               (AudioFeatures.cfg_frameSize cfg)
               (AudioFeatures.cfg_hopSize cfg)
               (AudioFeatures.ab_sampleRate audioBuffer) /\
  framesOnGrid Server.t (Server.extractAudioFrames KS samples sampleRate)
               (length samples) Server.frameSize Server.hopSize sampleRate.
Proof.
  intros Hh Hs Hlen Hs' Hlen'. split.
  - apply extractFeatures_on_grid; assumption.
  - apply extractAudioFrames_on_grid; assumption.
Qed.

Lemma frame_count_and_increasing_times_witness :
  let audioBuffer :=
    AudioFeatures.mkBuffer 8 10 [[1; 0; -1; 0; 1; 0; -1; 0; 1; 0]] in
  let cfg := AudioFeatures.mkConfig 4 2 40 80 in
  length (AudioFeatures.extractFeatures Sample.clientKernels Sample.log2Q
            audioBuffer cfg) = 3%nat /\
  length (Server.extractAudioFrames Sample.serverKernels (repeat 0 3072) 44100)
  = 2%nat.
Proof.
  intros audioBuffer cfg.
  destruct (@frame_count_and_increasing_times
              Sample.clientKernels Sample.log2Q audioBuffer cfg
              Sample.serverKernels (repeat 0 3072) 44100)
    as ((H1 & _) & (H2 & _)).
  - simpl. lia.
  - reflexivity.
  - simpl. lia.
  - reflexivity.
  - rewrite repeat_length. unfold Server.frameSize. lia.
  - split; apply Nat2Z.inj.
    + rewrite H1. reflexivity.
    + rewrite H2, repeat_length. reflexivity.
Defined.

(** C4, as the code has it: an empty sample buffer makes the analysis fail
    with an error and no output; a buffer that is not empty but too short
    for one frame and one hop (fewer than 2560 samples, in particular fewer
    than [frameSize]) produces no frame, and the analysis returns a result
    with its duration, its sample rate and an empty list of phrases. *)
Theorem short_buffer_outcome
  (K : Server.Kernels) (log2 sqrt : Q -> Q) (samples : list Q)
  (sampleRate : Q) :
  (samples = [] ->
   Server.analyzeAudioFile K log2 sqrt samples sampleRate
   = inl Server.CouldNotExtractSamples) /\
  (samples <> [] ->
   (length samples < Server.frameSize + Server.hopSize)%nat ->
   Server.analyzeAudioFile K log2 sqrt samples sampleRate
   = inr (Server.mkResult
            (inject_Z (Z.of_nat (length samples)) / sampleRate)
            sampleRate [])).
Proof.
  split.
  - intro E. subst samples. reflexivity.
  - intros Hne Hlen. unfold Server.analyzeAudioFile.
    destruct samples as [|x xs]; [contradiction|].
    rewrite extractAudioFrames_short by exact Hlen.
    reflexivity.
Qed.

Lemma short_buffer_outcome_witness :
  Server.analyzeAudioFile Sample.serverKernels Sample.log2Q Sample.sqrtQ
    [] 44100
  = inl Server.CouldNotExtractSamples /\
  Server.analyzeAudioFile Sample.serverKernels Sample.log2Q Sample.sqrtQ
    (repeat (1 # 2) 2000) 44100
  = inr (Server.mkResult (inject_Z 2000 / 44100) 44100 []).
Proof.
  split.
  - apply (@short_buffer_outcome Sample.serverKernels Sample.log2Q
             Sample.sqrtQ [] 44100).
    reflexivity.
  - apply (@short_buffer_outcome Sample.serverKernels Sample.log2Q
             Sample.sqrtQ (repeat (1 # 2) 2000) 44100).
    + discriminate.
    + rewrite repeat_length. unfold Server.frameSize, Server.hopSize. lia.
Defined.

(** C4 fails as stated: a buffer of 2000 samples (shorter than the frame
    size 2048) is analysed without an error; the result has no phrase. *)
Lemma short_buffer_returns_result :
  Server.analyzeAudioFile Sample.serverKernels Sample.log2Q Sample.sqrtQ
    (repeat (1 # 2) 2000) 44100
  = inr (Server.mkResult (2000 / 44100) 44100 []).
Proof. vm_compute. reflexivity. Qed.

(** *** Chroma *)

Section ChromaFacts.

Import AudioFeatures.

Variable log2 : Q -> Q.

Lemma fold_Qplus (xs : list Q) (a : Q) :
  fold_left Qplus xs a == a + sumQ xs.
Proof.
  unfold sumQ. revert a. induction xs as [|x xs IH]; intro a; simpl.
  - ring.
  - rewrite IH, (IH (0 + x)). ring.
Qed.

Lemma sumQ_cons (x : Q) (xs : list Q) : sumQ (x :: xs) == x + sumQ xs.
Proof. unfold sumQ at 1. simpl. rewrite fold_Qplus. ring. Qed.

Definition nonNegative (xs : list Q) : Prop := Forall (fun c => 0 <= c) xs.

Lemma sumQ_nonneg (xs : list Q) : nonNegative xs -> 0 <= sumQ xs.
Proof.
  induction 1 as [|x xs Hx _ IH].
  - apply Qle_refl.
  - rewrite sumQ_cons. lra.
Qed.

Lemma sumQ_zero_all_zero (xs : list Q) :
  nonNegative xs -> sumQ xs == 0 -> Forall (fun c => c == 0) xs.
Proof.
  induction 1 as [|x xs Hx Hxs IH]; intro Hsum.
  - constructor.
  - rewrite sumQ_cons in Hsum. pose proof (sumQ_nonneg Hxs) as Hs.
    constructor; [lra | apply IH; lra].
Qed.

Lemma addAt_length (i : nat) (v : Q) (a : list Q) :
  length (addAt i v a) = length a.
Proof.
  revert i. induction a as [|x a IH]; intros [|i]; simpl; congruence.
Qed.

Lemma addAt_sum (i : nat) (v : Q) (a : list Q) :
  (i < length a)%nat -> sumQ (addAt i v a) == sumQ a + v.
Proof.
  revert i. induction a as [|x a IH]; intros [|i] Hi; simpl in *; try lia.
  - rewrite !sumQ_cons. ring.
  - rewrite !sumQ_cons, IH by lia. ring.
Qed.

Lemma addAt_nonneg (i : nat) (v : Q) (a : list Q) :
  0 <= v -> nonNegative a -> nonNegative (addAt i v a).
Proof.
  intros Hv Ha. revert i.
  induction Ha as [|x a Hx Ha IH]; intros [|i]; simpl.
  - constructor.
  - constructor.
  - constructor; [lra | exact Ha].
  - constructor; [exact Hx | apply IH].
Qed.

Lemma pitchClassOf_bound (freq : Q) : (pitchClassOf log2 freq < 12)%nat.
Proof.
  unfold pitchClassOf.
  set (r := Js.round (12 * log2 (freq / refFreq))).
  pose proof (Z.rem_bound_abs r 12 ltac:(lia)) as H1.
  pose proof (Z.rem_bound_pos (Z.rem r 12 + 12) 12 ltac:(lia) ltac:(lia)) as H2.
  lia.
Qed.


(** The accumulator keeps twelve non-negative entries and its total never
    decreases. *)
Definition accumulator (chroma : list Q) : Prop :=
  length chroma = 12%nat /\ nonNegative chroma.

Lemma chromaStep_accumulator (magnitude : list Q) (fftSize : nat)
  (sampleRate : Q) (chroma : list Q) (k : nat) :
  accumulator chroma ->
  accumulator (chromaStep log2 magnitude fftSize sampleRate chroma k) /\
  sumQ chroma
  <= sumQ (chromaStep log2 magnitude fftSize sampleRate chroma k).
Proof.
  intros (Hl & Hn). unfold chromaStep.
  destruct (inChromaRange _).
  - split; [split|].
    + rewrite addAt_length. exact Hl.
    + apply addAt_nonneg; [nra | exact Hn].
    + rewrite addAt_sum by (rewrite Hl; apply pitchClassOf_bound).
      set (m := nth k magnitude 0). assert (0 <= m * m) by nra. lra.
  - split; [split; assumption | apply Qle_refl].
Qed.

Lemma chromaStep_gain (magnitude : list Q) (fftSize : nat)
  (sampleRate : Q) (chroma : list Q) (k : nat) :
  accumulator chroma ->
  inChromaRange (binFrequency k sampleRate fftSize) = true ->
  ~ nth k magnitude 0 == 0 ->
  0 < sumQ (chromaStep log2 magnitude fftSize sampleRate chroma k).
Proof.
  intros (Hl & Hn) Hr Hm. unfold chromaStep. rewrite Hr.
  rewrite addAt_sum by (rewrite Hl; apply pitchClassOf_bound).
  pose proof (sumQ_nonneg Hn) as Hs.
  set (m := nth k magnitude 0) in *.
  assert (0 < m * m).
  { destruct (Q_dec m 0) as [[H|H]|H]; [nra | nra | contradiction]. }
  lra.
Qed.

Lemma chroma_fold (magnitude : list Q) (fftSize : nat) (sampleRate : Q)
  (ks : list nat) (chroma : list Q) :
  accumulator chroma ->
  let final :=
    fold_left (chromaStep log2 magnitude fftSize sampleRate) ks chroma in
  accumulator final /\ sumQ chroma <= sumQ final /\
  (forall k, In k ks ->
             inChromaRange (binFrequency k sampleRate fftSize) = true ->
             ~ nth k magnitude 0 == 0 -> 0 < sumQ final).
Proof.
  revert chroma. induction ks as [|k ks IH]; intros chroma Hacc; simpl.
  - repeat split; try apply Hacc; [apply Qle_refl | intros k []].
  - destruct (@chromaStep_accumulator magnitude fftSize sampleRate chroma k
                Hacc) as (Hacc' & Hle).
    destruct (IH _ Hacc') as (H1 & H2 & H3).
    repeat split; try apply H1.
    + lra.
    + intros k' [E|Hin] Hr Hm.
      * subst k'.
        pose proof (@chromaStep_gain magnitude fftSize sampleRate chroma k
                      Hacc Hr Hm).
        lra.
      * apply (H3 k' Hin Hr Hm).
Qed.

Lemma accumulateChroma_accumulator (magnitude : list Q) (fftSize : nat)
  (sampleRate : Q) :
  accumulator (accumulateChroma log2 magnitude fftSize sampleRate).
Proof.
  unfold accumulateChroma. apply chroma_fold.
  split; [reflexivity|]. repeat constructor; apply Qle_refl.
Qed.

Lemma sumQ_scaled (xs : list Q) (s : Q) :
  sumQ (map (fun c => c / s) xs) == sumQ xs / s.
Proof.
  induction xs as [|x xs IH]; simpl.
  - unfold sumQ. simpl. unfold Qdiv. ring.
  - rewrite !sumQ_cons, IH. unfold Qdiv. ring.
Qed.


End ChromaFacts.



(** *** YIN *)

Section YinFacts.

Import AudioFeatures.

Variable samples : list Q.
Variable start : nat.
Variable frameSize : nat.
Variable sampleRate : Q.

Lemma lags_at_least_two (tau : nat) :
  In tau (lags frameSize sampleRate) -> (2 <= tau)%nat.
Proof.
  unfold lags. intro H. apply in_map_iff in H.
  destruct H as (n & E & _). subst tau.
  pose proof (Z.le_max_l 2 (minPeriod sampleRate)). lia.
Qed.

Lemma descend_monotone (steps tau : nat) :
  (tau <= descend samples start frameSize steps tau)%nat.
Proof.
  revert tau. induction steps as [|steps IH]; intro tau; simpl.
  - lia.
  - destruct (_ && _); [|lia].
    specialize (IH (tau + 1)%nat). lia.
Qed.

Lemma globalMinimum_lag :
  let best := fst (globalMinimum samples start frameSize sampleRate) in
  best = (-1)%Z \/ (2 <= best)%Z.
Proof.
  unfold globalMinimum.
  apply fold_left_invariant
    with (P := fun best : Z * Q => fst best = (-1)%Z \/ (2 <= fst best)%Z).
  - left. reflexivity.
  - intros best tau Hin H. destruct (Js.ltb _ _); [|exact H].
    right. simpl. apply lags_at_least_two in Hin. lia.
Qed.

(** The chosen lag is [-1] (no candidate) or a scanned lag, at least 2. *)
Lemma bestLag_lag :
  let best := fst (bestLag samples start frameSize sampleRate) in
  best = (-1)%Z \/ (2 <= best)%Z.
Proof.
  unfold bestLag, firstCrossing.
  destruct (filter _ (lags frameSize sampleRate)) as [|tau rest] eqn:E.
  - apply globalMinimum_lag.
  - right. simpl.
    assert (Hin : In tau (tau :: rest)) by (left; reflexivity).
    rewrite <- E in Hin. apply filter_In in Hin. destruct Hin as (Hin & _).
    apply lags_at_least_two in Hin.
    pose proof (descend_monotone (halfW frameSize) tau). lia.
Qed.

End YinFacts.

(** C3: on a complete frame, [yinPitchDetect] returns the null pitch with
    confidence 0 exactly when no candidate lag exists (the chosen lag is
    the initial [-1]), or the refined [f0] falls outside [50, 2000] Hz, or
    the confidence [1 - d'(tau)] is below 0.3; and whenever it returns a
    pitch, that pitch lies in [50, 2000] Hz and the returned confidence in
    [0.3, 1].  A frame cut short by the end of the buffer gets the null
    pitch without a lag search. *)
Theorem yin_rejects_exactly_out_of_range
  (samples : list Q) (start frameSize : nat) (sampleRate : Q) :
  let result := AudioFeatures.yinPitchDetect samples start frameSize sampleRate in
  let bestTau := fst (AudioFeatures.bestLag samples start frameSize sampleRate) in
  let f := fst (AudioFeatures.estimate samples start frameSize sampleRate) in
  let c := snd (AudioFeatures.estimate samples start frameSize sampleRate) in
  (AudioFeatures.frameIsComplete samples start frameSize = true ->
   (result = AudioFeatures.noPitch <->
    bestTau = (-1)%Z \/ f < 50 \/ 2000 < f \/ c < 3 # 10)) /\
  (forall f0, AudioFeatures.f0 result = Some f0 ->
              (50 <= f0 /\ f0 <= 2000) /\
              (3 # 10 <= AudioFeatures.confidence result /\
               AudioFeatures.confidence result <= 1)) /\
  (AudioFeatures.frameIsComplete samples start frameSize = false ->
   result = AudioFeatures.noPitch).
Proof.
  intros result bestTau f c.
  pose proof (bestLag_lag samples start frameSize sampleRate) as Hlag.
  simpl in Hlag. fold bestTau in Hlag.
  unfold result, AudioFeatures.yinPitchDetect.
  fold bestTau. fold f. fold c.
  split; [|split].
  - intro Hc. rewrite Hc. simpl.
    destruct (bestTau <? 2)%Z eqn:Eb.
    + apply Z.ltb_lt in Eb. split; [intros _; left; lia | reflexivity].
    + apply Z.ltb_ge in Eb.
      destruct (Js.ltb f 50) eqn:E1; simpl.
      { apply Js.ltb_lt in E1. split; [intros _; tauto | reflexivity]. }
      destruct (Js.ltb 2000 f) eqn:E2; simpl.
      { apply Js.ltb_lt in E2. split; [intros _; tauto | reflexivity]. }
      destruct (Js.ltb c (3 # 10)) eqn:E3; simpl.
      { apply Js.ltb_lt in E3. split; [intros _; tauto | reflexivity]. }
      apply Js.ltb_ge in E1, E2, E3.
      split; [discriminate|].
      intros [H|[H|[H|H]]]; [lia | | | ]; exfalso;
        eapply Qlt_not_le; eassumption.
  - intros f0.
    destruct (negb _); [discriminate|].
    destruct (bestTau <? 2)%Z; [discriminate|].
    destruct (Js.ltb f 50) eqn:E1; [discriminate|].
    destruct (Js.ltb 2000 f) eqn:E2; [discriminate|].
    destruct (Js.ltb c (3 # 10)) eqn:E3; [discriminate|].
    simpl. intro H. injection H as H. subst f0.
    apply Js.ltb_ge in E1, E2, E3.
    repeat split; try assumption.
    + unfold Js.max, Js.min.
      apply Qle_trans with (Qmin 1 c); [|apply Q.le_max_r].
      apply Q.min_glb; [discriminate | exact E3].
    + apply Js.clamp_bounds. discriminate.
  - intro Hc. rewrite Hc. reflexivity.
Qed.

Lemma yin_rejects_exactly_out_of_range_witness :
  let samples := [1; -1; 1; -1; 1; -1; 1; -1] in
  AudioFeatures.yinPitchDetect samples 0 8 400 <> AudioFeatures.noPitch /\
  (50 <= 8388608000 # 39845888 /\ 8388608000 # 39845888 <= 2000).
Proof.
  intro samples.
  destruct (@yin_rejects_exactly_out_of_range samples 0%nat 8%nat 400)
    as (Hiff & Hrange & _).
  split.
  - intro E. apply (Hiff eq_refl) in E.
    destruct E as [E|[E|[E|E]]]; vm_compute in E; discriminate.
  - apply (Hrange (8388608000 # 39845888)). vm_compute. reflexivity.
Defined.

(** *** Rescaling of the PCA axes *)

Section RescaleFacts.

Import Pca.

(** From a range already seen, the fold ends in a range that has only
    widened, whose ends are values met, and that encloses every value. *)
Lemma updateRange_fold (vals : list Q) (lo hi : Q) :
  lo <= hi ->
  exists lo' hi',
    fold_left updateRange vals (Some (lo, hi)) = Some (lo', hi') /\
    In lo' (lo :: vals) /\ In hi' (hi :: vals) /\
    lo' <= lo /\ hi <= hi' /\
    (forall v, In v vals -> lo' <= v /\ v <= hi').
Proof.
  revert lo hi. induction vals as [|x vals IH]; intros lo hi Hle; simpl.
  - exists lo, hi. split; [reflexivity|].
    split; [left; reflexivity|]. split; [left; reflexivity|].
    split; [apply Qle_refl|]. split; [apply Qle_refl|]. intros v [].
  - set (lo1 := if Js.ltb x lo then x else lo).
    set (hi1 := if Js.ltb hi x then x else hi).
    assert (H1 : lo1 <= lo /\ lo1 <= x /\ (lo1 = lo \/ lo1 = x)).
    { unfold lo1. destruct (Js.ltb x lo) eqn:E.
      - apply Js.ltb_lt in E. repeat split; [lra | lra | right; reflexivity].
      - apply Js.ltb_ge in E. repeat split; [lra | lra | left; reflexivity]. }
    assert (H2 : hi <= hi1 /\ x <= hi1 /\ (hi1 = hi \/ hi1 = x)).
    { unfold hi1. destruct (Js.ltb hi x) eqn:E.
      - apply Js.ltb_lt in E. repeat split; [lra | lra | right; reflexivity].
      - apply Js.ltb_ge in E. repeat split; [lra | lra | left; reflexivity]. }
    destruct H1 as (H1a & H1b & H1c). destruct H2 as (H2a & H2b & H2c).
    destruct (IH lo1 hi1 ltac:(lra)) as (lo' & hi' & E & Il & Ih & Hl & Hh & Hall).
    exists lo', hi'. split; [exact E|].
    split; [|split; [|split; [|split]]].
    + destruct Il as [Il|Il]; [|right; right; exact Il].
      subst lo'. destruct H1c as [->| ->]; [left | right; left]; reflexivity.
    + destruct Ih as [Ih|Ih]; [|right; right; exact Ih].
      subst hi'. destruct H2c as [->| ->]; [left | right; left]; reflexivity.
    + lra.
    + lra.
    + intros v [Hv|Hv].
      * subst v. split; lra.
      * apply Hall. exact Hv.
Qed.

Lemma axisRange_column (positions : list (list Q)) (k : nat) :
  axisRange positions k
  = fold_left updateRange (map (fun pos => at_ pos k) positions) None.
Proof.
  unfold axisRange. generalize (@None (Q * Q)).
  induction positions as [|p ps IH]; intro r; simpl; [reflexivity|].
  apply IH.
Qed.

(** On a non-empty list the range of an axis is its minimum and maximum. *)
Lemma axisRange_min_max (positions : list (list Q)) (k : nat) :
  positions <> [] ->
  let column := map (fun pos => at_ pos k) positions in
  exists lo hi,
    axisRange positions k = Some (lo, hi) /\
    In lo column /\ In hi column /\
    (forall v, In v column -> lo <= v /\ v <= hi).
Proof.
  intros Hne column. rewrite axisRange_column. fold column.
  destruct positions as [|p ps]; [contradiction|].
  unfold column. simpl.
  destruct (updateRange_fold (map (fun pos => at_ pos k) ps)
              (lo := at_ p k) (hi := at_ p k) (Qle_refl _))
    as (lo & hi & E & Il & Ih & Hl & Hh & Hall).
  exists lo, hi. split; [exact E|]. split; [exact Il|]. split; [exact Ih|].
  intros v [Hv|Hv].
  - subst v. split; assumption.
  - apply (Hall v Hv).
Qed.

Lemma rescaled_in_range (lo hi v : Q) :
  lo <= v -> v <= hi -> lo < hi ->
  -5 <= ((v - lo) / (hi - lo) - (1 # 2)) * 2 * 5 /\
  ((v - lo) / (hi - lo) - (1 # 2)) * 2 * 5 <= 5.
Proof.
  intros H1 H2 H3.
  assert (Hw : 0 < hi - lo) by lra.
  assert (Ha : 0 <= (v - lo) / (hi - lo)).
  { apply Qle_shift_div_l; [exact Hw | lra]. }
  assert (Hb : (v - lo) / (hi - lo) <= 1).
  { apply Qle_shift_div_r; [exact Hw | lra]. }
  split; lra.
Qed.

Lemma rescalePositions_at (positions : list (list Q)) (i k : nat)
  (posRaw posOut : list Q) :
  (k < 3)%nat ->
  nth_error positions i = Some posRaw ->
  nth_error (rescalePositions positions) i = Some posOut ->
  at_ posOut k = rescaleValue (axisRange positions k) (at_ posRaw k).
Proof.
  intros Hk Hraw Hout. unfold rescalePositions in Hout.
  rewrite (map_nth_error _ _ _ Hraw) in Hout.
  injection Hout as Hout. subst posOut.
  destruct k as [|[|[|k]]]; try lia; reflexivity.
Qed.

End RescaleFacts.

(** C7: for a non-empty frame list, each of the three axes of the
    positions returned by [computePCA] is the min-max rescaling of the
    projected values of that axis: with [lo] and [hi] the least and the
    greatest projected value, every output coordinate is
    [((v - lo) / (hi - lo) - 0.5) * 2 * 5] and lies in [-5, 5] when the
    range [hi - lo] is not zero, and is the raw projected value when the
    range is zero. *)
Theorem pca_axes_rescaled
  (sqrt log2 : Q -> Q) (frames : list AudioFeatures.FrameFeatures) (k : nat) :
  frames <> [] -> (k < 3)%nat ->
  let raw := Pca.projectedPositions sqrt log2 frames in
  let out := Pca.positions (Pca.computePCA sqrt log2 frames) in
  let column := map (fun pos => Pca.at_ pos k) raw in
  length out = length frames /\
  exists lo hi,
    In lo column /\ In hi column /\
    (forall v, In v column -> lo <= v /\ v <= hi) /\
    (forall i posRaw posOut,
        nth_error raw i = Some posRaw -> nth_error out i = Some posOut ->
        (lo < hi ->
         Pca.at_ posOut k
         = ((Pca.at_ posRaw k - lo) / (hi - lo) - (1 # 2)) * 2 * 5 /\
         -5 <= Pca.at_ posOut k /\ Pca.at_ posOut k <= 5) /\
        (~ lo < hi -> Pca.at_ posOut k = Pca.at_ posRaw k)).
Proof.
  intros Hne Hk raw out column.
  assert (Hout : out = Pca.rescalePositions raw).
  { unfold out, Pca.computePCA. destruct frames; [contradiction|].
    reflexivity. }
  assert (Hlen : length raw = length frames).
  { unfold raw, Pca.projectedPositions, Pca.standardized, Pca.standardize.
    rewrite !length_map. reflexivity. }
  split.
  - rewrite Hout. unfold Pca.rescalePositions. rewrite length_map. exact Hlen.
  - assert (Hraw : raw <> []).
    { intro E. rewrite E in Hlen. destruct frames; [contradiction|].
      discriminate. }
    destruct (axisRange_min_max k Hraw) as (lo & hi & E & Il & Ih & Hall).
    exists lo, hi. split; [exact Il|]. split; [exact Ih|].
    split; [exact Hall|].
    intros i posRaw posOut Hi Ho. rewrite Hout in Ho.
    rewrite (@rescalePositions_at raw i k posRaw posOut Hk Hi Ho), E. simpl.
    assert (Hin : In (Pca.at_ posRaw k) column).
    { apply in_map_iff. exists posRaw.
      split; [reflexivity | eapply nth_error_In; exact Hi]. }
    destruct (Hall _ Hin) as (Hlo & Hhi).
    split.
    + intro Hlt.
      assert (E' : Js.ltb 0 (hi - lo) = true) by (apply Js.ltb_lt; lra).
      rewrite E'. split; [reflexivity|].
      apply rescaled_in_range; assumption.
    + intro Hn.
      assert (E' : Js.ltb 0 (hi - lo) = false).
      { apply Js.ltb_ge. apply Qnot_lt_le in Hn. lra. }
      rewrite E'. reflexivity.
Qed.

Lemma pca_axes_rescaled_witness :
  let frame (a b c : Q) :=
    AudioFeatures.mkFeatures 0 [a] [b; c] None 0 0 0 0 0 0 in
  length (Pca.positions
            (Pca.computePCA Sample.sqrtQ Sample.log2Q
               [frame 1 2 3; frame 4 0 1; frame 2 2 2]))
  = 3%nat.
Proof.
  intro frame.
  apply (@pca_axes_rescaled Sample.sqrtQ Sample.log2Q
           [frame 1 2 3; frame 4 0 1; frame 2 2 2] 0%nat).
  - discriminate.
  - lia.
Defined.

(** *** The PCA fallback of the second server variant *)

(** C8: for a frame list with at least two frames, when the eigenvalue
    decomposition of the covariance matrix throws, or yields an
    eigenvector matrix that is not 40 x 40, [applyPCA] returns the fallback
    instead of failing: every frame, unchanged but for [pcaCoordinates],
    which holds the frame's first three MFCC values (0 where the frame has
    fewer), each times 0.1. *)
Theorem applyPCA_falls_back
  (eigenvalueDecomposition : ServerPca.Matrix -> option ServerPca.Decomposition)
  (frames : list ServerPca.AudioFrame) :
  (2 <= length frames)%nat ->
  (eigenvalueDecomposition (fst (ServerPca.sampleCovariance frames)) = None \/
   exists evd,
     eigenvalueDecomposition (fst (ServerPca.sampleCovariance frames))
     = Some evd /\
     (ServerPca.rows (ServerPca.eigenvectorMatrix evd) <> 40%nat \/
      ServerPca.columns (ServerPca.eigenvectorMatrix evd) <> 40%nat)) ->
  ServerPca.applyPCA eigenvalueDecomposition frames
  = ServerPca.fallbackPcaCoordinates frames /\
  length (ServerPca.applyPCA eigenvalueDecomposition frames) = length frames /\
  (forall i frame,
      nth_error frames i = Some frame ->
      nth_error (ServerPca.applyPCA eigenvalueDecomposition frames) i
      = Some (ServerPca.mkFrame
                (ServerPca.t frame) (ServerPca.mfccs frame)
                (Some (ServerPca.mkCoordinates
                         (nth 0 (ServerPca.mfccs frame) 0 * (1 # 10))
                         (nth 1 (ServerPca.mfccs frame) 0 * (1 # 10))
                         (nth 2 (ServerPca.mfccs frame) 0 * (1 # 10))))
                (ServerPca.frequency frame) (ServerPca.amplitude frame))).
Proof.
  intros Hlen Hfail.
  assert (E : ServerPca.applyPCA eigenvalueDecomposition frames
              = ServerPca.fallbackPcaCoordinates frames).
  { unfold ServerPca.applyPCA.
    destruct frames as [|f0 [|f1 rest]]; simpl in Hlen; try lia.
    destruct (ServerPca.sampleCovariance (f0 :: f1 :: rest))
      as (covariance, means).
    simpl in Hfail.
    destruct Hfail as [Hnone|(evd & Hsome & Hdims)].
    - rewrite Hnone. reflexivity.
    - rewrite Hsome.
      destruct (negb (ServerPca.rows (ServerPca.eigenvectorMatrix evd)
                      =? ServerPca.PCA_MFCC_DIM)%nat
                || negb (ServerPca.columns (ServerPca.eigenvectorMatrix evd)
                         =? ServerPca.PCA_MFCC_DIM)%nat) eqn:Ed;
        [reflexivity|].
      apply orb_false_iff in Ed. destruct Ed as (Er & Ec).
      apply negb_false_iff, Nat.eqb_eq in Er.
      apply negb_false_iff, Nat.eqb_eq in Ec.
      unfold ServerPca.PCA_MFCC_DIM in *. tauto. }
  rewrite E. split; [reflexivity|]. split.
  - unfold ServerPca.fallbackPcaCoordinates. apply length_map.
  - intros i frame Hi. unfold ServerPca.fallbackPcaCoordinates.
    rewrite (map_nth_error _ _ _ Hi). reflexivity.
Qed.

Lemma applyPCA_falls_back_witness :
  let frames :=
    [ServerPca.mkFrame 0 [1; 2; 3; 4] None None (Some 1);
     ServerPca.mkFrame (1 # 10) [5; 6] None None (Some 1)] in
  let identity2 := ServerPca.mkDecomposition [[1; 0]; [0; 1]] [1; 1] in
  ServerPca.applyPCA (fun _ => Some identity2) frames
  = [ServerPca.mkFrame 0 [1; 2; 3; 4]
       (Some (ServerPca.mkCoordinates (1 * (1 # 10)) (2 * (1 # 10))
                                      (3 * (1 # 10))))
       None (Some 1);
     ServerPca.mkFrame (1 # 10) [5; 6]
       (Some (ServerPca.mkCoordinates (5 * (1 # 10)) (6 * (1 # 10))
                                      (0 * (1 # 10))))
       None (Some 1)].
Proof.
  intros frames identity2.
  destruct (@applyPCA_falls_back (fun _ => Some identity2) frames)
    as (H & _).
  - simpl. lia.
  - right. exists identity2. split; [reflexivity|].
    left. simpl. lia.
  - rewrite H. reflexivity.
Defined.

(** *** The segmenter *)

Section SegmenterFacts.

Import Segmenter.

Variable Frame : Type.
Variable frame_t : Frame -> Q.
Variable frame_amplitude : Frame -> Q.

Local Abbreviation scanStep := (scanStep frame_t frame_amplitude).
Local Abbreviation scanFrames := (scanFrames frame_t frame_amplitude).

Definition longEnough (v : VerseSegment Frame) : Prop :=
  minVerseDuration <= seg_end v - seg_start v.

(** The loop only emits phrases that passed the minimum-duration test. *)
Lemma scanStep_long_enough (thr : Q) (st : ScanState Frame) (f : Frame) :
  Forall longEnough (verses st) ->
  Forall longEnough (verses (scanStep thr st f)).
Proof.
  intro H. unfold Segmenter.scanStep.
  destruct (isSilent frame_amplitude thr f); simpl.
  - destruct (inSilence st); simpl; exact H.
  - destruct (inSilence st); simpl; [|exact H].
    destruct (Js.ltb minSilenceDuration (frame_t f - silenceStart st)
              && negb (isEmpty (verseFrames st))); simpl; [|exact H].
    destruct (Js.leb minVerseDuration (silenceStart st - verseStart st))
      eqn:E; [|exact H].
    apply Forall_app. split; [exact H|].
    constructor; [|constructor].
    unfold longEnough. simpl. apply Js.leb_le. exact E.
Qed.

Lemma closedBySilence_long_enough (frames : list Frame) :
  Forall longEnough (closedBySilence frame_t frame_amplitude frames).
Proof.
  unfold closedBySilence, Segmenter.scanFrames.
  apply fold_left_invariant with (P := fun st => Forall longEnough (verses st)).
  - constructor.
  - intros s x _ Hs. apply scanStep_long_enough. exact Hs.
Qed.

(** The phrase start is 0 or the time of a frame of the track. *)
Definition startFromTrack (frames : list Frame) (st : ScanState Frame)
  : Prop :=
  verseStart st = 0 \/ exists f, In f frames /\ verseStart st = frame_t f.

Lemma scanStep_startFromTrack (frames : list Frame) (thr : Q)
  (st : ScanState Frame) (f : Frame) :
  In f frames -> startFromTrack frames st ->
  startFromTrack frames (scanStep thr st f).
Proof.
  intros Hin H. unfold Segmenter.scanStep, startFromTrack in *.
  destruct (isSilent frame_amplitude thr f); simpl.
  - destruct (inSilence st); simpl; exact H.
  - destruct (inSilence st); simpl; [|exact H].
    destruct (Js.ltb minSilenceDuration (frame_t f - silenceStart st)
              && negb (isEmpty (verseFrames st))); simpl; [|exact H].
    right. exists f. split; [exact Hin | reflexivity].
Qed.

Lemma scanFrames_startFromTrack (frames : list Frame) :
  startFromTrack frames (scanFrames frames).
Proof.
  unfold Segmenter.scanFrames.
  apply fold_left_invariant with (P := startFromTrack frames).
  - left. reflexivity.
  - intros s x Hx Hs. apply scanStep_startFromTrack; assumption.
Qed.

(** A fallback segment is kept only when a frame lies inside it. *)
Lemma fallbackVerses_nonempty (frames : list Frame) (duration : Q)
  (v : VerseSegment Frame) :
  In v (fallbackVerses frame_t frames duration) -> seg_start v < seg_end v.
Proof.
  unfold fallbackVerses. intro H.
  apply in_flat_map in H. destruct H as (i & _ & H).
  match type of H with
  | In v (if isEmpty ?l then _ else _) => destruct l as [|f fs] eqn:E
  end; simpl in H; [contradiction|].
  destruct H as [H|[]]. subst v. simpl.
  assert (Hf : In f (f :: fs)) by (left; reflexivity).
  rewrite <- E in Hf. apply filter_In in Hf. destruct Hf as (_ & Hf).
  apply andb_true_iff in Hf. destruct Hf as (H1 & H2).
  apply Js.leb_le in H1. apply Js.ltb_lt in H2.
  eapply Qle_lt_trans; eassumption.
Qed.

Lemma longEnough_nonempty (v : VerseSegment Frame) :
  longEnough v -> seg_start v < seg_end v.
Proof.
  unfold longEnough, minVerseDuration. intro H.
  assert (0 < 3 # 10) by reflexivity. lra.
Qed.

End SegmenterFacts.

Section FallbackLength.

Import Segmenter.

Variable Frame : Type.
Variable frame_t : Frame -> Q.

(** On a track of at least 0.3 s the fallback cuts one to four segments of
    equal length [duration / n], each at least 0.3 s long. *)
Lemma fallbackVerses_long_enough (frames : list Frame) (duration : Q)
  (v : VerseSegment Frame) :
  3 # 10 <= duration ->
  In v (fallbackVerses frame_t frames duration) ->
  3 # 10 <= seg_end v - seg_start v.
Proof.
  intros Hdur Hin. unfold fallbackVerses in Hin.
  set (nZ := Z.min 4 (Js.ceil (duration / 5))) in *.
  set (d := duration / inject_Z nZ) in *.
  assert (Hceil : (1 <= Js.ceil (duration / 5))%Z).
  { unfold Js.ceil.
    pose proof (Qle_ceiling (duration / 5)) as Hc.
    assert (H0 : 0 < duration / 5)
      by (apply Qlt_shift_div_l; [reflexivity | lra]).
    assert (Hpos : inject_Z 0 < inject_Z (Qceiling (duration / 5)))
      by (change (inject_Z 0) with 0; lra).
    rewrite <- Zlt_Qlt in Hpos. lia. }
  assert (Hn : (1 <= nZ <= 4)%Z) by (unfold nZ; lia).
  assert (Hn1 : 1 <= inject_Z nZ)
    by (change 1 with (inject_Z 1); rewrite <- Zle_Qle; lia).
  assert (Hn4 : inject_Z nZ <= 4)
    by (change 4 with (inject_Z 4); rewrite <- Zle_Qle; lia).
  assert (Hd : d * inject_Z nZ == duration) by (unfold d; field; lra).
  assert (Hlong : 3 # 10 <= d).
  { unfold d. apply Qle_shift_div_l; [lra|].
    destruct (Z.eq_dec nZ 1) as [E|E].
    - rewrite E. change (inject_Z 1) with 1. lra.
    - assert (H2 : (2 <= Js.ceil (duration / 5))%Z) by (unfold nZ in *; lia).
      unfold Js.ceil in H2.
      pose proof (Qceiling_lt (duration / 5)) as Hlt.
      assert (H1 : inject_Z 1 <= inject_Z (Qceiling (duration / 5) - 1))
        by (rewrite <- Zle_Qle; lia).
      change (inject_Z 1) with 1 in H1.
      assert (H5 : 1 < duration / 5) by lra.
      assert (E5 : duration == duration / 5 * 5) by (field; discriminate).
      lra. }
  assert (Hcount : Js.ceil (duration / d) = nZ).
  { unfold Js.ceil.
    assert (E : duration / d == inject_Z nZ) by (unfold d; field; lra).
    rewrite E. apply Qceiling_Z. }
  rewrite Hcount in Hin.
  apply in_flat_map in Hin. destruct Hin as (i & Hi & Hin).
  apply in_seq in Hi. cbv zeta in Hin.
  destruct (isEmpty _); [contradiction|].
  destruct Hin as [<-|[]]. cbn [seg_start seg_end].
  assert (Hi1 : inject_Z (Z.of_nat i + 1) <= inject_Z nZ)
    by (rewrite <- Zle_Qle; lia).
  assert (Hend : inject_Z (Z.of_nat i + 1) * d <= duration).
  { rewrite <- Hd, (Qmult_comm d).
    apply Qmult_le_compat_r; [exact Hi1 | lra]. }
  unfold Js.min. rewrite (Q.min_l _ _ Hend).
  rewrite inject_Z_plus. change (inject_Z 1) with 1.
  setoid_replace ((inject_Z (Z.of_nat i) + 1) * d - inject_Z (Z.of_nat i) * d)
    with d by ring.
  exact Hlong.
Qed.

End FallbackLength.

(** C5, as the code has it: every phrase closed by a silence run lasts at
    least 0.3 s, and so does every phrase of the fixed-interval fallback
    when the track lasts at least 0.3 s.  Each emitted phrase is closed by
    silence, or a fallback phrase, or the trailing phrase
    [verseStart, duration), which alone is emitted without a
    minimum-duration test.  When the frame times lie in [0, duration)
    every emitted phrase has start < end. *)
Theorem segments_nonempty_closed_long_enough
  (Frame : Type) (frame_t frame_amplitude : Frame -> Q)
  (frames : list Frame) (duration : Q) (v : Segmenter.VerseSegment Frame) :
  (forall f, In f frames -> 0 <= frame_t f /\ frame_t f < duration) ->
  In v (Segmenter.segmentIntoVerses frame_t frame_amplitude frames duration) ->
  let st := Segmenter.scanFrames frame_t frame_amplitude frames in
  Segmenter.seg_start v < Segmenter.seg_end v /\
  (In v (Segmenter.closedBySilence frame_t frame_amplitude frames) ->
   3 # 10 <= Segmenter.seg_end v - Segmenter.seg_start v) /\
  (In v (Segmenter.fallbackVerses frame_t frames duration) ->
   3 # 10 <= duration ->
   3 # 10 <= Segmenter.seg_end v - Segmenter.seg_start v) /\
  (In v (Segmenter.closedBySilence frame_t frame_amplitude frames) \/
   In v (Segmenter.fallbackVerses frame_t frames duration) \/
   v = Segmenter.mkSegment (Segmenter.verseStart st) duration
                           (Segmenter.verseFrames st)).
Proof.
  intros Htimes Hin st.
  pose proof (closedBySilence_long_enough frame_t frame_amplitude frames)
    as Hlong.
  rewrite Forall_forall in Hlong.
  assert (Hkind :
            In v (Segmenter.closedBySilence frame_t frame_amplitude frames) \/
            In v (Segmenter.fallbackVerses frame_t frames duration) \/
            v = Segmenter.mkSegment (Segmenter.verseStart st) duration
                                    (Segmenter.verseFrames st)
                /\ Segmenter.verseFrames st <> []).
  { unfold Segmenter.segmentIntoVerses in Hin.
    destruct frames as [|f0 rest]; [contradiction|].
    destruct (Segmenter.isEmpty
                (Segmenter.silenceVerses frame_t frame_amplitude (f0 :: rest)
                   duration)).
    - right. left. exact Hin.
    - unfold Segmenter.silenceVerses in Hin. fold st in Hin.
      unfold Segmenter.closedBySilence. fold st.
      destruct (Segmenter.verseFrames st) as [|g gs] eqn:Eg; simpl in Hin.
      + left. exact Hin.
      + apply in_app_or in Hin. destruct Hin as [Hin|[Hin|[]]].
        * left. exact Hin.
        * right. right. split; [symmetry; exact Hin | discriminate]. }
  split; [|split; [|split]].
  - destruct Hkind as [Hc|[Hf|(E & Hne)]].
    + apply longEnough_nonempty. apply Hlong. exact Hc.
    + eapply fallbackVerses_nonempty. exact Hf.
    + rewrite E. simpl.
      destruct frames as [|f0 rest]; [exfalso; apply Hne; reflexivity|].
      destruct (scanFrames_startFromTrack frame_t frame_amplitude (f0 :: rest))
        as [E0|(f & Hf & E0)]; fold st in E0; rewrite E0.
      * destruct (Htimes f0 (or_introl eq_refl)) as (H0 & H1).
        eapply Qle_lt_trans; eassumption.
      * apply (Htimes f Hf).
  - intro Hc. apply (Hlong v Hc).
  - intros Hf Hdur. eapply fallbackVerses_long_enough; eassumption.
  - destruct Hkind as [Hc|[Hf|(E & _)]]; tauto.
Qed.

Lemma segments_nonempty_closed_long_enough_witness :
  let frames :=
    [Sample.frameAt 0 1; Sample.frameAt (2 # 10) 1; Sample.frameAt (4 # 10) 0;
     Sample.frameAt (6 # 10) 0; Sample.frameAt (8 # 10) 1] in
  let v := Segmenter.mkSegment 0 (4 # 10) (firstn 2 frames) in
  Segmenter.seg_start v < Segmenter.seg_end v /\
  3 # 10 <= Segmenter.seg_end v - Segmenter.seg_start v.
Proof.
  intros frames v.
  destruct (@segments_nonempty_closed_long_enough
              Server.AudioFrame Server.t Server.amplitude frames 1 v)
    as (H1 & H2 & _).
  - intros f Hf. simpl in Hf.
    repeat (destruct Hf as [Hf|Hf]; [subst f; split; vm_compute; congruence|]).
    contradiction.
  - vm_compute. left. reflexivity.
  - split; [exact H1|]. apply H2. vm_compute. left. reflexivity.
Defined.

(** In the first server variant every frame starts inside the track, so the
    phrases of any analysed track have their start before their end. *)
Lemma pipeline_frame_times_in_track
  (K : Server.Kernels) (samples : list Q) (sampleRate : Q)
  (f : Server.AudioFrame) :
  0 < sampleRate ->
  In f (Server.extractAudioFrames K samples sampleRate) ->
  0 <= Server.t f /\
  Server.t f < inject_Z (Z.of_nat (length samples)) / sampleRate.
Proof.
  intros Hs Hin.
  apply (in_map Server.t) in Hin.
  rewrite extractAudioFrames_times in Hin.
  apply in_map_iff in Hin. destruct Hin as (i & E & Hi).
  apply in_seq in Hi. rewrite <- E. unfold gridTime, Server.numFrames in *.
  rewrite floor_div in Hi by (unfold Server.hopSize; lia).
  unfold Server.frameSize, Server.hopSize in *.
  assert (Hpos : 0 < / sampleRate) by (apply Qinv_lt_0_compat; exact Hs).
  assert (Hlt : (Z.of_nat (i * 512) < Z.of_nat (length samples))%Z).
  { assert (Hq : (Z.of_nat i
                  < (Z.of_nat (length samples) - Z.of_nat 2048) / Z.of_nat 512)%Z)
      by lia.
    assert (Hm : (Z.of_nat 512
                  * ((Z.of_nat (length samples) - Z.of_nat 2048) / Z.of_nat 512)
                  <= Z.of_nat (length samples) - Z.of_nat 2048)%Z)
      by (apply Z.mul_div_le; lia).
    nia. }
  unfold Qdiv. split.
  - apply Qmult_le_0_compat; [|lra].
    replace 0 with (inject_Z 0) by reflexivity.
    rewrite <- Zle_Qle. lia.
  - apply Qmult_lt_compat_r; [exact Hpos|].
    rewrite <- Zlt_Qlt. exact Hlt.
Qed.

Lemma pipeline_segments_nonempty
  (K : Server.Kernels) (samples : list Q) (sampleRate : Q)
  (v : Server.VerseSegment) :
  0 < sampleRate ->
  In v (Server.segmentIntoVerses
          (Server.extractAudioFrames K samples sampleRate)
          (inject_Z (Z.of_nat (length samples)) / sampleRate)) ->
  Segmenter.seg_start v < Segmenter.seg_end v.
Proof.
  intros Hs Hin. unfold Server.segmentIntoVerses in Hin.
  unfold Segmenter.segmentIntoVerses in Hin.
  destruct (Server.extractAudioFrames K samples sampleRate)
    as [|f0 rest] eqn:E; [contradiction|].
  assert (Htimes : forall f, In f (f0 :: rest) ->
            0 <= Server.t f /\
            Server.t f < inject_Z (Z.of_nat (length samples)) / sampleRate).
  { intros f Hf. rewrite <- E in Hf.
    apply (pipeline_frame_times_in_track K samples f Hs Hf). }
  destruct (Segmenter.isEmpty
              (Segmenter.silenceVerses Server.t Server.amplitude (f0 :: rest)
                 (inject_Z (Z.of_nat (length samples)) / sampleRate))).
  - eapply fallbackVerses_nonempty. exact Hin.
  - unfold Segmenter.silenceVerses in Hin.
    pose proof (closedBySilence_long_enough Server.t Server.amplitude
                  (f0 :: rest)) as Hlong.
    unfold Segmenter.closedBySilence in Hlong.
    rewrite Forall_forall in Hlong.
    destruct (Segmenter.isEmpty
                (Segmenter.verseFrames
                   (Segmenter.scanFrames Server.t Server.amplitude
                      (f0 :: rest)))).
    + apply longEnough_nonempty. apply Hlong. exact Hin.
    + apply in_app_or in Hin. destruct Hin as [Hin|[Hin|[]]].
      * apply longEnough_nonempty. apply Hlong. exact Hin.
      * subst v. simpl.
        destruct (scanFrames_startFromTrack Server.t Server.amplitude
                    (f0 :: rest)) as [E0|(f & Hf & E0)]; rewrite E0.
        -- destruct (Htimes f0 (or_introl eq_refl)) as (H0 & H1).
           eapply Qle_lt_trans; eassumption.
        -- apply (Htimes f Hf).
Qed.

(** The shortest track with a frame, run through the whole analysis (with
    kernels that report silence): one phrase, [0, 2560/44100). *)
Example short_track_single_phrase :
  match Server.analyzeAudioFile Sample.serverKernels Sample.log2Q
          Sample.sqrtQ (repeat 0 2560) 44100 with
  | inr result =>
      map (fun v => (Server.start v, Server.end_ v, length (Server.points v)))
          (Server.verses result)
      = [(0, inject_Z 2560 / 44100, 1%nat)]
  | inl _ => False
  end.
Proof. vm_compute. reflexivity. Qed.

(** C5 fails as stated: a track of 2560 samples at 44100 Hz has one frame,
    at time 0, and the segmenter emits the single phrase [0, 2560/44100),
    which is shorter than 0.3 s. *)
Lemma trailing_segment_shorter_than_minimum :
  Server.segmentIntoVerses [Sample.frameAt 0 1] (2560 # 44100)
  = [Segmenter.mkSegment 0 (2560 # 44100) [Sample.frameAt 0 1]]
  /\ ~ (3 # 10 <= (2560 # 44100) - 0).
Proof.
  split.
  - vm_compute. reflexivity.
  - vm_compute. intro H. apply H. reflexivity.
Qed.

(** The trailing phrase can be shorter than 0.3 s on a longer track too:
    sound until 0.4 s, silence until 1 s, then sound again gives [0, 0.6)
    and the trailing phrase [1, 1.1). *)
Example trailing_segment_short_in_long_track :
  let frames :=
    [Sample.frameAt 0 1; Sample.frameAt (2 # 10) 1; Sample.frameAt (4 # 10) 1;
     Sample.frameAt (6 # 10) 0; Sample.frameAt (8 # 10) 0; Sample.frameAt 1 1]
  in
  Server.segmentIntoVerses frames (11 # 10)
  = [Segmenter.mkSegment 0 (6 # 10) (firstn 3 frames);
     Segmenter.mkSegment 1 (11 # 10) (skipn 5 frames)]
  /\ ~ (3 # 10 <= (11 # 10) - 1).
Proof.
  intro frames. split.
  - vm_compute. reflexivity.
  - vm_compute. intro H. apply H. reflexivity.
Qed.

Section FirstPhrase.

Import Segmenter.

Variable Frame : Type.
Variable frame_t : Frame -> Q.
Variable frame_amplitude : Frame -> Q.
Variable thr : Q.

Local Abbreviation silent := (isSilent frame_amplitude thr).
Local Abbreviation step := (Segmenter.scanStep frame_t frame_amplitude thr).

(** A leading run is discarded: a silence run that starts at frame [s],
    right after a sounding frame [p], before 0.3 s, is ended by the next
    sounding frame [f] more than 0.2 s later.  The frames buffered since
    time 0 are then dropped as shorter than the minimum and the phrase
    start moves to [f]. *)
Definition discardedLeadingRun (frames : list Frame) : Prop :=
  exists a p s m f b,
    frames = a ++ p :: s :: m ++ f :: b /\
    silent p = false /\ silent s = true /\
    Forall (fun g => silent g = true) m /\ silent f = false /\
    minSilenceDuration < frame_t f - frame_t s /\
    frame_t s < minVerseDuration.






(** *** While no leading run is discarded the first phrase starts at 0 *)





(** *** A discarded leading run moves the first phrase past 0.2 s *)











End FirstPhrase.




(** In that track the frames up to 0.1 s form a leading run that is
    discarded: the silence that starts at 0.2 s, before 0.3 s, lasts until
    the sounding frame at 0.6 s. *)
Example leading_run_discarded_at_two_tenths :
  let frames :=
    [Sample.frameAt 0 1; Sample.frameAt (1 # 10) 1; Sample.frameAt (2 # 10) 0;
     Sample.frameAt (3 # 10) 0; Sample.frameAt (4 # 10) 0;
     Sample.frameAt (5 # 10) 0; Sample.frameAt (6 # 10) 1;
     Sample.frameAt (7 # 10) 1; Sample.frameAt (8 # 10) 1] in
  discardedLeadingRun Server.t Server.amplitude
    (Segmenter.silenceThreshold Server.amplitude frames) frames.
Proof.
  intro frames.
  exists [Sample.frameAt 0 1], (Sample.frameAt (1 # 10) 1),
    (Sample.frameAt (2 # 10) 0),
    [Sample.frameAt (3 # 10) 0; Sample.frameAt (4 # 10) 0;
     Sample.frameAt (5 # 10) 0],
    (Sample.frameAt (6 # 10) 1),
    [Sample.frameAt (7 # 10) 1; Sample.frameAt (8 # 10) 1].
  split; [reflexivity|].
  split; [vm_compute; reflexivity|].
  split; [vm_compute; reflexivity|].
  split; [repeat constructor|].
  split; [vm_compute; reflexivity|].
  split; vm_compute; reflexivity.
Qed.


(** *** The neighbour graph *)

Section KnnFacts.

Import Knn.

Variable Point : Type.
Variables px py pz : Point -> Q.
Variable sqrt : Q -> Q.

(** The key is a function of the unordered pair. *)
Lemma edgeKey_unordered (a b : nat) :
  edgeKey a b
  = String.append (nat_to_string (Nat.min a b))
                  (String "-" (nat_to_string (Nat.max a b))).
Proof.
  unfold edgeKey. destruct (a <? b)%nat eqn:E.
  - apply Nat.ltb_lt in E.
    rewrite Nat.min_l, Nat.max_r by lia. reflexivity.
  - apply Nat.ltb_ge in E.
    rewrite Nat.min_r, Nat.max_l by lia. reflexivity.
Qed.

Lemma edgeKey_same_pair (e e' : nat * nat) :
  unordered e = unordered e' ->
  edgeKey (fst e) (snd e) = edgeKey (fst e') (snd e').
Proof.
  unfold unordered. intro H. injection H as H1 H2.
  rewrite !edgeKey_unordered, H1, H2. reflexivity.
Qed.

Lemma has_cons (edgeSet : list string) (key key' : string) :
  has (key' :: edgeSet) key = true <-> key = key' \/ has edgeSet key = true.
Proof.
  unfold has. simpl. rewrite orb_true_iff, String.eqb_eq. reflexivity.
Qed.

(** What the two loops maintain: every edge joins two distinct points of
    the segment, its key has been recorded, and no unordered pair has been
    pushed twice. *)
Record EdgesOk (n : nat) (st : EdgeState) : Prop := mkEdgesOk {
  ok_distinct :
    forall e, In e (fst st) ->
              fst e <> snd e /\ (fst e < n)%nat /\ (snd e < n)%nat;
  ok_recorded :
    forall e, In e (fst st) -> has (snd st) (edgeKey (fst e) (snd e)) = true;
  ok_unique : NoDup (map unordered (fst st))
}.

Lemma addEdge_ok (n i : nat) (st : EdgeState) (entry : nat * Q) :
  (i < n)%nat -> (fst entry < n)%nat -> i <> fst entry ->
  EdgesOk n st -> EdgesOk n (addEdge i st entry).
Proof.
  intros Hi Hj Hij [Hd Hr Hu]. unfold addEdge.
  destruct (has (snd st) (edgeKey i (fst entry))) eqn:E.
  - constructor; assumption.
  - constructor; simpl.
    + intros e He. apply in_app_or in He. destruct He as [He|[He|[]]].
      * apply Hd. exact He.
      * subst e. simpl. repeat split; assumption.
    + intros e He. apply has_cons.
      apply in_app_or in He. destruct He as [He|[He|[]]].
      * right. apply Hr. exact He.
      * subst e. left. reflexivity.
    + rewrite map_app. apply NoDup_app.
      * exact Hu.
      * simpl. constructor; [intros []|constructor].
      * intros u Hu1 [Hu2|[]]. subst u.
        apply in_map_iff in Hu1. destruct Hu1 as (e & He1 & He2).
        apply edgeKey_same_pair in He1. simpl in He1.
        rewrite <- He1, (Hr e He2) in E. discriminate.
Qed.

Lemma insertByDist_In (e x : nat * Q) (l : list (nat * Q)) :
  In e (insertByDist x l) -> e = x \/ In e l.
Proof.
  induction l as [|y l IH]; simpl.
  - intros [H|[]]. left. symmetry. exact H.
  - destruct (Js.leb (snd x) (snd y)); simpl.
    + intros [H|H]; [left; symmetry; exact H | right; exact H].
    + intros [H|H].
      * right. left. exact H.
      * destruct (IH H) as [H'|H']; [left; exact H' | right; right; exact H'].
Qed.

Lemma sortByDist_In (e : nat * Q) (l : list (nat * Q)) :
  In e (sortByDist l) -> In e l.
Proof.
  unfold sortByDist. induction l as [|x l IH]; simpl.
  - intros [].
  - intro H. apply insertByDist_In in H.
    destruct H as [H|H]; [left; symmetry; exact H | right; apply IH; exact H].
Qed.

Lemma distancesFrom_In (indexed : list (nat * Point)) (i : nat) (p : Point)
  (e : nat * Q) :
  In e (distancesFrom px py pz sqrt indexed i p) ->
  i <> fst e /\ exists q, In (fst e, q) indexed.
Proof.
  unfold distancesFrom. intro H. apply in_flat_map in H.
  destruct H as ((j, q) & Hin & H). simpl in H.
  destruct (i =? j)%nat eqn:E; [contradiction|].
  destruct H as [H|[]]. subst e. simpl.
  apply Nat.eqb_neq in E. split; [exact E | exists q; exact Hin].
Qed.

Lemma indexed_bound (points : list Point) (i : nat) (p : Point) :
  In (i, p) (combine (seq 0 (length points)) points) ->
  (i < length points)%nat.
Proof.
  intro H. apply in_combine_l in H. apply in_seq in H. lia.
Qed.

Lemma findKNearestNeighbors_ok (points : list Point) (k : nat) :
  exists edgeSet,
    EdgesOk (length points)
            (findKNearestNeighbors px py pz sqrt points k, edgeSet).
Proof.
  unfold findKNearestNeighbors.
  set (indexed := combine (seq 0 (length points)) points).
  match goal with
  | |- exists s, EdgesOk _ (fst ?st, s) =>
      exists (snd st); replace (fst st, snd st) with st
        by (destruct st; reflexivity)
  end.
  apply fold_left_invariant with (P := EdgesOk (length points)).
  - constructor; simpl; [intros e []|intros e []|constructor].
  - intros st (i, p) Hip Hst. unfold neighboursStep. simpl.
    apply fold_left_invariant with (P := EdgesOk (length points));
      [exact Hst|].
    intros st' e He Hst'.
    apply In_firstn, sortByDist_In, distancesFrom_In in He.
    destruct He as (Hne & q & Hq).
    apply addEdge_ok; [|  |exact Hne|exact Hst'].
    + apply (indexed_bound _ _ _ Hip).
    + apply (indexed_bound _ _ _ Hq).
Qed.

End KnnFacts.

(** C6, as the code has it: every edge stored by the neighbour-graph
    builder joins two distinct points of the segment, and no unordered
    pair occurs more than once in the edge list.  The key used for
    deduplication is in canonical order; the stored pair is
    [[source, neighbour]], in the order of discovery. *)
Theorem knn_edges_distinct_and_unique
  (Point : Type) (px py pz : Point -> Q) (sqrt : Q -> Q)
  (points : list Point) (k : nat) :
  let edges := Knn.findKNearestNeighbors px py pz sqrt points k in
  (forall i j, In (i, j) edges ->
               i <> j /\ (i < length points)%nat /\ (j < length points)%nat) /\
  NoDup (map Knn.unordered edges).
Proof.
  intro edges.
  destruct (findKNearestNeighbors_ok px py pz sqrt points k)
    as (edgeSet & [Hd _ Hu]).
  split.
  - intros i j H. apply (Hd (i, j) H).
  - exact Hu.
Qed.

(** C6 fails as stated: with four points close together and a fifth far
    away, the far point (index 4) is not among the three nearest of any
    other point, so its edges are first met from its own side and stored
    as [[4, 3]], [[4, 2]] and [[4, 1]], larger index first. *)
Lemma knn_edge_stored_larger_index_first :
  let points :=
    [Sample.pointAt 0; Sample.pointAt 1; Sample.pointAt 2; Sample.pointAt 3;
     Sample.pointAt 100] in
  Server.findKNearestNeighbors Sample.sqrtQ points 3
  = [(0, 1); (0, 2); (0, 3); (1, 2); (1, 3); (2, 3); (4, 3); (4, 2); (4, 1)]%nat
  /\ ~ (4 < 3)%nat.
Proof.
  split.
  - vm_compute. reflexivity.
  - lia.
Qed.

(** C9: for all numbers [value], [min], [max], both range-normalisation
    helpers ([normalizeValue] and [norm]) return a result in [[0,1]], and
    return the midpoint 0.5 whenever the observed range has zero width
    ([max = min]). *)
Theorem normalize_clamped_midpoint (value min max : Q) :
  (0 <= normalizeValue value min max <= 1) /\
  (0 <= norm value min max <= 1) /\
  (max == min -> normalizeValue value min max = 1 # 2) /\
  (max == min -> norm value min max = 1 # 2).
Proof.
  unfold normalizeValue, norm. repeat split.
  - destruct (Js.eqb max min); [discriminate|].
    apply Js.clamp_bounds. discriminate.
  - destruct (Js.eqb max min); [discriminate|].
    apply Js.clamp_bounds. discriminate.
  - destruct (Js.leb max min); [discriminate|].
    apply Js.clamp_bounds. discriminate.
  - destruct (Js.leb max min); [discriminate|].
    apply Js.clamp_bounds. discriminate.
  - intro H. apply Js.eqb_eq in H. rewrite H. reflexivity.
  - intro H. assert (E : Js.leb max min = true).
    { apply Js.leb_le. rewrite H. apply Qle_refl. }
    rewrite E. reflexivity.
Qed.

Lemma normalize_clamped_midpoint_witness :
  normalizeValue 7 1 1 = 1 # 2 /\ norm 7 1 1 = 1 # 2 /\
  0 <= normalizeValue 3 1 5 <= 1.
Proof.
  destruct (normalize_clamped_midpoint 7 1 1) as (_ & _ & H1 & H2).
  destruct (normalize_clamped_midpoint 3 1 5) as (H3 & _).
  split; [apply H1; reflexivity|].
  split; [apply H2; reflexivity|].
  exact H3.
Defined.

(** ** Further properties of the segmenter *)

Section SegmenterOrder.

Import Segmenter.

Variable Frame : Type.
Variable frame_t : Frame -> Q.
Variable frame_amplitude : Frame -> Q.

(** [v] ends before [w] starts. *)
Definition precedes (v w : VerseSegment Frame) : Prop :=
  seg_end v <= seg_start w.

(** The frames come in non-decreasing time order. *)
Definition timeOrdered (frames : list Frame) : Prop :=
  StronglySorted (fun f g => frame_t f <= frame_t g) frames.

Lemma ForallOrdPairs_snoc {A : Type} (R : A -> A -> Prop) (l : list A)
  (x : A) :
  ForallOrdPairs R l -> Forall (fun a => R a x) l ->
  ForallOrdPairs R (l ++ [x]).
Proof.
  induction 1 as [|a l Ha Hl IH]; intro Hx; simpl.
  - constructor; constructor.
  - inversion Hx as [|? ? Hax Hlx]; subst. constructor.
    + apply Forall_app. split; [exact Ha | constructor; [exact Hax|constructor]].
    + apply IH. exact Hlx.
Qed.

(** The loop invariant, with [now] the time of the last frame scanned:
    the phrases emitted so far are in order, all end by the current phrase
    start and by [now], and a running silence started by [now]. *)
Record Ordered (now : Q) (st : ScanState Frame) : Prop := mkOrdered {
  ord_pairs : ForallOrdPairs precedes (verses st);
  ord_start : Forall (fun v => seg_end v <= verseStart st) (verses st);
  ord_now : Forall (fun v => seg_end v <= now) (verses st);
  ord_silence : inSilence st = true -> silenceStart st <= now
}.

Lemma Forall_end_le (bound bound' : Q) (vs : list (VerseSegment Frame)) :
  bound <= bound' ->
  Forall (fun v => seg_end v <= bound) vs ->
  Forall (fun v => seg_end v <= bound') vs.
Proof.
  intros Hb H. eapply Forall_impl; [|exact H].
  intros v Hv. simpl in Hv. eapply Qle_trans; eassumption.
Qed.

Lemma scanStep_ordered (thr now : Q) (st : ScanState Frame) (f : Frame) :
  now <= frame_t f -> Ordered now st ->
  Ordered (frame_t f) (scanStep frame_t frame_amplitude thr st f).
Proof.
  intros Hnow [Hp Hs Hn Hsil]. unfold scanStep.
  pose proof (Forall_end_le Hnow Hn) as Hn'.
  destruct (isSilent frame_amplitude thr f); simpl.
  - destruct (inSilence st) eqn:Ei; simpl.
    + constructor; simpl; try assumption.
      intros _. eapply Qle_trans; [apply Hsil; reflexivity | exact Hnow].
    + constructor; simpl; try assumption. intros _. apply Qle_refl.
  - destruct (inSilence st) eqn:Ei; simpl.
    + destruct (Js.ltb minSilenceDuration (frame_t f - silenceStart st)
                && negb (isEmpty (verseFrames st))); simpl.
      * assert (Hss : silenceStart st <= frame_t f).
        { eapply Qle_trans; [apply Hsil; reflexivity | exact Hnow]. }
        destruct (Js.leb minVerseDuration (silenceStart st - verseStart st)).
        -- constructor; simpl.
           ++ apply ForallOrdPairs_snoc; [exact Hp|]. exact Hs.
           ++ apply Forall_app. split; [exact Hn'|].
              constructor; [exact Hss | constructor].
           ++ apply Forall_app. split; [exact Hn'|].
              constructor; [exact Hss | constructor].
           ++ discriminate.
        -- constructor; simpl; try assumption. discriminate.
      * constructor; simpl; try assumption. discriminate.
    + constructor; simpl; try assumption. intros H. congruence.
Qed.

Lemma scan_ordered (thr : Q) (frames : list Frame) (now : Q)
  (st : ScanState Frame) :
  timeOrdered frames ->
  Forall (fun f => now <= frame_t f) frames ->
  Ordered now st ->
  exists now',
    Ordered now' (fold_left (scanStep frame_t frame_amplitude thr) frames st).
Proof.
  revert now st. induction frames as [|f rest IH]; intros now st Hsorted Hge Hst.
  - exists now. exact Hst.
  - simpl. inversion Hsorted as [|? ? Hrest Hhead]; subst.
    inversion Hge as [|? ? Hf _]; subst.
    apply (IH (frame_t f)); [exact Hrest | exact Hhead |].
    apply scanStep_ordered with (now := now); assumption.
Qed.

Lemma fallback_segment_bounds (frames : list Frame) (duration d : Q)
  (from n : nat) (v : VerseSegment Frame) :
  In v (flat_map
          (fun i : nat =>
             let start := inject_Z (Z.of_nat i) * d in
             let end_ := Js.min (inject_Z (Z.of_nat i + 1) * d) duration in
             let segmentFrames :=
               filter (fun f => Js.leb start (frame_t f)
                                && Js.ltb (frame_t f) end_) frames in
             if isEmpty segmentFrames then []
             else [mkSegment start end_ segmentFrames])
          (seq from n)) ->
  exists i, (from <= i)%nat /\
            seg_start v = inject_Z (Z.of_nat i) * d /\
            seg_end v <= inject_Z (Z.of_nat i + 1) * d.
Proof.
  intro H. apply in_flat_map in H. destruct H as (i & Hi & H).
  apply in_seq in Hi. exists i. split; [lia|].
  simpl in H. destruct (isEmpty _); [contradiction|].
  destruct H as [H|[]]. subst v. simpl. split; [reflexivity|].
  unfold Js.min. apply Q.le_min_l.
Qed.

Lemma fallback_ordered (frames : list Frame) (duration d : Q)
  (from n : nat) :
  0 <= d ->
  ForallOrdPairs precedes
    (flat_map
       (fun i : nat =>
          let start := inject_Z (Z.of_nat i) * d in
          let end_ := Js.min (inject_Z (Z.of_nat i + 1) * d) duration in
          let segmentFrames :=
            filter (fun f => Js.leb start (frame_t f)
                             && Js.ltb (frame_t f) end_) frames in
          if isEmpty segmentFrames then []
          else [mkSegment start end_ segmentFrames])
       (seq from n)).
Proof.
  intro Hd. revert from. induction n as [|n IH]; intro from; simpl.
  - constructor.
  - match goal with
    | |- ForallOrdPairs _ ((if isEmpty ?l then _ else _) ++ _) =>
        destruct (isEmpty l)
    end; simpl; [apply IH|].
    constructor; [|apply IH].
    apply Forall_forall. intros w Hw.
    apply fallback_segment_bounds in Hw.
    destruct Hw as (i & Hi & Hstart & _).
    unfold precedes. simpl. rewrite Hstart.
    apply Qle_trans with (inject_Z (Z.of_nat from + 1) * d);
      [unfold Js.min; apply Q.le_min_l|].
    apply Qmult_le_compat_r; [|exact Hd].
    rewrite <- Zle_Qle. lia.
Qed.

Lemma segmentDuration_nonneg (duration : Q) :
  0 <= duration ->
  0 <= duration / inject_Z (Z.min 4 (Js.ceil (duration / 5))).
Proof.
  intro Hd.
  assert (Hc : (0 <= Js.ceil (duration / 5))%Z).
  { unfold Js.ceil.
    assert (H0 : 0 <= duration / 5) by (apply Qle_shift_div_l; [reflexivity | lra]).
    pose proof (Qle_ceiling (duration / 5)) as H1.
    assert (H2 : inject_Z 0 <= inject_Z (Qceiling (duration / 5))).
    { change (inject_Z 0) with 0. eapply Qle_trans; eassumption. }
    rewrite <- Zle_Qle in H2. exact H2. }
  set (m := Z.min 4 (Js.ceil (duration / 5))).
  assert (Hm : (0 <= m)%Z) by (unfold m; lia).
  destruct (Z.eq_dec m 0) as [E|E].
  - rewrite E. unfold Qdiv. simpl. unfold Qinv. simpl. lra.
  - apply Qle_shift_div_l; [|lra].
    replace 0 with (inject_Z 0) by reflexivity. rewrite <- Zlt_Qlt. lia.
Qed.

End SegmenterOrder.

(** X1: when the frames come in non-decreasing time order and the duration
    is not negative, the phrases returned by [segmentIntoVerses] do not
    overlap and are in time order: each phrase ends no later than any later
    phrase starts. *)
Theorem segments_do_not_overlap
  (Frame : Type) (frame_t frame_amplitude : Frame -> Q)
  (frames : list Frame) (duration : Q) :
  timeOrdered frame_t frames -> 0 <= duration ->
  ForallOrdPairs (@precedes Frame)
    (Segmenter.segmentIntoVerses frame_t frame_amplitude frames duration).
Proof.
  intros Hsorted Hd. unfold Segmenter.segmentIntoVerses.
  destruct frames as [|f0 rest]; [constructor|].
  destruct (Segmenter.isEmpty _) eqn:Ee.
  - unfold Segmenter.fallbackVerses.
    apply fallback_ordered. apply segmentDuration_nonneg. exact Hd.
  - unfold Segmenter.silenceVerses, Segmenter.scanFrames.
    destruct (@scan_ordered Frame frame_t frame_amplitude
                (Segmenter.silenceThreshold frame_amplitude (f0 :: rest))
                (f0 :: rest) (frame_t f0)
                (Segmenter.initialScan Frame) Hsorted)
      as (now' & [Hp Hs _ _]).
    + inversion Hsorted as [|? ? _ Hhead]; subst.
      constructor; [apply Qle_refl | exact Hhead].
    + constructor; simpl; try constructor. discriminate.
    + destruct (Segmenter.isEmpty (Segmenter.verseFrames _)); [exact Hp|].
      apply ForallOrdPairs_snoc; [exact Hp | exact Hs].
Qed.

Lemma segments_do_not_overlap_witness :
  let frames :=
    [Sample.frameAt 0 1; Sample.frameAt (2 # 10) 1; Sample.frameAt (4 # 10) 0;
     Sample.frameAt (6 # 10) 0; Sample.frameAt (8 # 10) 1] in
  ForallOrdPairs (@precedes Server.AudioFrame)
    [Segmenter.mkSegment 0 (4 # 10) (firstn 2 frames);
     Segmenter.mkSegment (8 # 10) 1 (skipn 4 frames)].
Proof.
  intro frames.
  assert (E : Segmenter.segmentIntoVerses Server.t Server.amplitude frames 1
              = [Segmenter.mkSegment 0 (4 # 10) (firstn 2 frames);
                 Segmenter.mkSegment (8 # 10) 1 (skipn 4 frames)])
    by (vm_compute; reflexivity).
  rewrite <- E.
  apply (@segments_do_not_overlap Server.AudioFrame Server.t Server.amplitude
           frames 1).
  - unfold timeOrdered.
    repeat (constructor; [|repeat constructor; vm_compute; discriminate]).
    constructor.
  - vm_compute. discriminate.
Defined.

Section SegmenterContents.

Import Segmenter.

Variable Frame : Type.
Variable frame_t : Frame -> Q.
Variable frame_amplitude : Frame -> Q.

(** A frame list as the loop stores it: not empty, made of frames of the
    track that are not silent. *)
Definition soundFrames (thr : Q) (frames stored : list Frame) : Prop :=
  forall g, In g stored ->
            In g frames /\ isSilent frame_amplitude thr g = false.

Record Contents (thr : Q) (frames : list Frame) (st : ScanState Frame)
  : Prop := mkContents {
  cont_verses :
    Forall (fun v => seg_frames v <> []
                     /\ soundFrames thr frames (seg_frames v)) (verses st);
  cont_buffer : soundFrames thr frames (verseFrames st)
}.

Lemma scanStep_contents (thr : Q) (frames : list Frame)
  (st : ScanState Frame) (f : Frame) :
  In f frames -> Contents thr frames st ->
  Contents thr frames (scanStep frame_t frame_amplitude thr st f).
Proof.
  intros Hin [Hv Hb]. unfold scanStep.
  assert (Hpush : isSilent frame_amplitude thr f = false ->
                  forall stored, soundFrames thr frames stored ->
                                 soundFrames thr frames (stored ++ [f])).
  { intros Hs stored Hst g Hg. apply in_app_or in Hg.
    destruct Hg as [Hg|[Hg|[]]]; [apply Hst; exact Hg|].
    subst g. split; assumption. }
  destruct (isSilent frame_amplitude thr f) eqn:Es; simpl.
  - destruct (inSilence st); simpl; constructor; assumption.
  - destruct (inSilence st); simpl.
    + destruct (Js.ltb minSilenceDuration (frame_t f - silenceStart st));
        simpl.
      * destruct (verseFrames st) as [|g gs] eqn:Eg; simpl.
        -- constructor; simpl; [exact Hv|]. rewrite ?Eg.
           apply (Hpush eq_refl []). intros g [].
        -- constructor; simpl.
           ++ destruct (Js.leb minVerseDuration
                          (silenceStart st - verseStart st)); [|exact Hv].
              apply Forall_app. split; [exact Hv|].
              constructor; [|constructor]. simpl. rewrite ?Eg.
              split; [discriminate | exact Hb].
           ++ apply (Hpush eq_refl []). intros g' [].
      * constructor; simpl; [exact Hv|]. apply Hpush; [reflexivity|exact Hb].
    + constructor; simpl; [exact Hv|]. apply Hpush; [reflexivity|exact Hb].
Qed.

Lemma scanFrames_contents (frames : list Frame) :
  Contents (silenceThreshold frame_amplitude frames) frames
           (scanFrames frame_t frame_amplitude frames).
Proof.
  unfold scanFrames.
  apply fold_left_invariant
    with (P := Contents (silenceThreshold frame_amplitude frames) frames).
  - constructor; simpl; [constructor | intros g []].
  - intros s x Hx Hs. apply scanStep_contents; assumption.
Qed.

Lemma silenceVerses_contents (frames : list Frame) (duration : Q) :
  Forall (fun v => seg_frames v <> []
                   /\ soundFrames (silenceThreshold frame_amplitude frames)
                                  frames (seg_frames v))
         (silenceVerses frame_t frame_amplitude frames duration).
Proof.
  unfold silenceVerses.
  destruct (scanFrames_contents frames) as [Hv Hb].
  destruct (verseFrames (scanFrames frame_t frame_amplitude frames))
    as [|g gs] eqn:E; simpl; [exact Hv|].
  apply Forall_app. split; [exact Hv|].
  constructor; [|constructor]. simpl. split; [discriminate | exact Hb].
Qed.

Lemma fallbackVerses_contents (frames : list Frame) (duration : Q)
  (v : VerseSegment Frame) :
  In v (fallbackVerses frame_t frames duration) ->
  seg_frames v <> [] /\
  forall g, In g (seg_frames v) ->
            In g frames /\ seg_start v <= frame_t g /\ frame_t g < seg_end v.
Proof.
  unfold fallbackVerses. intro H.
  apply in_flat_map in H. destruct H as (i & _ & H).
  match type of H with
  | In v (if isEmpty ?l then _ else _) => destruct l as [|f fs] eqn:E
  end; simpl in H; [contradiction|].
  destruct H as [H|[]]. subst v. simpl. split; [discriminate|].
  intros g Hg0. assert (Hg : In g (f :: fs)) by exact Hg0.
  rewrite <- E in Hg. apply filter_In in Hg.
  destruct Hg as (Hg & Hb). apply andb_true_iff in Hb.
  destruct Hb as (H1 & H2). apply Js.leb_le in H1. apply Js.ltb_lt in H2.
  repeat split; assumption.
Qed.

End SegmenterContents.

(** X2: every phrase returned by [segmentIntoVerses] holds at least one
    frame and only frames of the track; a phrase of the silence-based path
    holds no silent frame, and the frames of a fallback phrase lie inside
    its interval [start, end). *)
Theorem segment_frames_from_track
  (Frame : Type) (frame_t frame_amplitude : Frame -> Q)
  (frames : list Frame) (duration : Q) (v : Segmenter.VerseSegment Frame) :
  In v (Segmenter.segmentIntoVerses frame_t frame_amplitude frames duration) ->
  Segmenter.seg_frames v <> [] /\
  (forall g, In g (Segmenter.seg_frames v) -> In g frames) /\
  (In v (Segmenter.silenceVerses frame_t frame_amplitude frames duration) ->
   forall g, In g (Segmenter.seg_frames v) ->
             Segmenter.isSilent frame_amplitude
               (Segmenter.silenceThreshold frame_amplitude frames) g = false) /\
  (In v (Segmenter.fallbackVerses frame_t frames duration) ->
   forall g, In g (Segmenter.seg_frames v) ->
             Segmenter.seg_start v <= frame_t g /\
             frame_t g < Segmenter.seg_end v).
Proof.
  intro Hin.
  pose proof (silenceVerses_contents frame_t frame_amplitude frames duration)
    as Hs.
  rewrite Forall_forall in Hs.
  assert (Hmain : Segmenter.seg_frames v <> [] /\
                  (forall g, In g (Segmenter.seg_frames v) -> In g frames)).
  { unfold Segmenter.segmentIntoVerses in Hin.
    destruct frames as [|f0 rest]; [contradiction|].
    destruct (Segmenter.isEmpty _).
    - destruct (fallbackVerses_contents frame_t _ _ _ Hin) as (H1 & H2).
      split; [exact H1|]. intros g Hg. apply (H2 g Hg).
    - destruct (Hs v Hin) as (H1 & H2).
      split; [exact H1|]. intros g Hg. apply (H2 g Hg). }
  destruct Hmain as (H1 & H2).
  split; [exact H1|]. split; [exact H2|]. split.
  - intros Hv g Hg. apply (proj2 (Hs v Hv) g Hg).
  - intros Hv g Hg.
    destruct (fallbackVerses_contents frame_t _ _ _ Hv) as (_ & H3).
    apply (H3 g Hg).
Qed.

Lemma segment_frames_from_track_witness :
  let frames :=
    [Sample.frameAt 0 1; Sample.frameAt (2 # 10) 1; Sample.frameAt (4 # 10) 0;
     Sample.frameAt (6 # 10) 0; Sample.frameAt (8 # 10) 1] in
  In (Sample.frameAt (2 # 10) 1) frames /\
  Segmenter.isSilent Server.amplitude
    (Segmenter.silenceThreshold Server.amplitude frames)
    (Sample.frameAt (2 # 10) 1) = false.
Proof.
  intros frames.
  destruct (@segment_frames_from_track
              Server.AudioFrame Server.t Server.amplitude frames 1
              (Segmenter.mkSegment 0 (4 # 10) (firstn 2 frames)))
    as (_ & H1 & H2 & _).
  - vm_compute. left. reflexivity.
  - split.
    + apply H1. right. left. reflexivity.
    + apply H2; [vm_compute; left; reflexivity | right; left; reflexivity].
Defined.

(** ** Further properties of the neighbour graph *)

Section KeyFacts.

Import Knn.

Local Open Scope string_scope.

(** No decimal digit is the separator of the key. *)
Fixpoint dashFree (s : string) : Prop :=
  match s with
  | EmptyString => True
  | String c rest => c <> "-"%char /\ dashFree rest
  end.

Lemma digits_dashFree (d : uint) : dashFree (NilEmpty.string_of_uint d).
Proof.
  induction d; simpl; try exact I; (split; [discriminate | assumption]).
Qed.

Lemma to_uint_nonnil (n : nat) : Nat.to_uint n <> Nil.
Proof.
  rewrite <- (Unsigned.of_to n) at 1. rewrite Unsigned.to_of.
  apply unorm_nonnil.
Qed.

Lemma nat_to_string_dashFree (n : nat) : dashFree (nat_to_string n).
Proof.
  unfold nat_to_string, NilZero.string_of_uint.
  pose proof (digits_dashFree (Nat.to_uint n)) as H.
  destruct (Nat.to_uint n); try exact H. simpl. split; [discriminate|exact I].
Qed.

Lemma nat_to_string_inj (n m : nat) :
  nat_to_string n = nat_to_string m -> n = m.
Proof.
  unfold nat_to_string. intro H.
  apply Unsigned.to_uint_inj.
  pose proof (NilZero.usu _ (to_uint_nonnil n)) as Hn.
  pose proof (NilZero.usu _ (to_uint_nonnil m)) as Hm.
  rewrite H in Hn. rewrite Hn in Hm. injection Hm as Hm. exact Hm.
Qed.

(** Two keys split at their first separator. *)
Lemma joined_inj (s1 s2 t1 t2 : string) :
  dashFree s1 -> dashFree t1 ->
  String.append s1 (String "-" s2) = String.append t1 (String "-" t2) ->
  s1 = t1 /\ s2 = t2.
Proof.
  revert t1. induction s1 as [|c s1 IH]; intros [|c' t1] Hs Ht H; simpl in *.
  - injection H as H. split; [reflexivity | exact H].
  - injection H as Hc _. destruct Ht as (Ht & _). congruence.
  - injection H as Hc _. destruct Hs as (Hs & _). congruence.
  - injection H as Hc H. destruct Hs as (_ & Hs). destruct Ht as (_ & Ht).
    destruct (IH t1 Hs Ht H) as (E1 & E2). subst. split; reflexivity.
Qed.

(** Distinct unordered pairs have distinct keys. *)
Lemma edgeKey_inj (a b c d : nat) :
  edgeKey a b = edgeKey c d -> unordered (a, b) = unordered (c, d).
Proof.
  rewrite !edgeKey_unordered. intro H.
  apply joined_inj in H; try apply nat_to_string_dashFree.
  destruct H as (H1 & H2).
  apply nat_to_string_inj in H1. apply nat_to_string_inj in H2.
  unfold unordered. simpl. congruence.
Qed.

Lemma unordered_cases (a b c d : nat) :
  unordered (a, b) = unordered (c, d) ->
  (a, b) = (c, d) \/ (a, b) = (d, c).
Proof.
  unfold unordered. simpl. intro H. injection H as H1 H2.
  assert (a = c /\ b = d \/ a = d /\ b = c) as [(-> & ->)|(-> & ->)] by lia;
    [left | right]; reflexivity.
Qed.

End KeyFacts.

Section KnnUnion.

Import Knn.

Variable Point : Type.
Variables px py pz : Point -> Q.
Variable sqrt : Q -> Q.

(** Every recorded key is the key of a stored edge. *)
Definition keysFromEdges (st : EdgeState) : Prop :=
  forall key, has (snd st) key = true ->
              exists e, In e (fst st) /\ edgeKey (fst e) (snd e) = key.

Lemma addEdge_keysFromEdges (i : nat) (st : EdgeState) (entry : nat * Q) :
  keysFromEdges st -> keysFromEdges (addEdge i st entry).
Proof.
  intros H. unfold addEdge.
  destruct (has (snd st) (edgeKey i (fst entry))) eqn:E; [exact H|].
  intros key Hk. simpl in *. apply has_cons in Hk.
  destruct Hk as [Hk|Hk].
  - exists (i, fst entry). split; [apply in_or_app; right; left; reflexivity|].
    simpl. symmetry. exact Hk.
  - destruct (H key Hk) as (e & He & Hke).
    exists e. split; [apply in_or_app; left; exact He | exact Hke].
Qed.

Lemma addEdge_keeps (i : nat) (st : EdgeState) (entry : nat * Q)
  (key : string) :
  has (snd st) key = true -> has (snd (addEdge i st entry)) key = true.
Proof.
  intro H. unfold addEdge.
  destruct (has (snd st) (edgeKey i (fst entry))); [exact H|].
  simpl. apply has_cons. right. exact H.
Qed.

Lemma addEdge_records (i : nat) (st : EdgeState) (entry : nat * Q) :
  has (snd (addEdge i st entry)) (edgeKey i (fst entry)) = true.
Proof.
  unfold addEdge.
  destruct (has (snd st) (edgeKey i (fst entry))) eqn:E; [exact E|].
  simpl. apply has_cons. left. reflexivity.
Qed.

Lemma addEdges_keeps (i : nat) (entries : list (nat * Q)) (st : EdgeState)
  (key : string) :
  has (snd st) key = true ->
  has (snd (fold_left (addEdge i) entries st)) key = true.
Proof.
  revert st. induction entries as [|e es IH]; intros st H; simpl.
  - exact H.
  - apply IH. apply addEdge_keeps. exact H.
Qed.

Lemma addEdges_records (i : nat) (entries : list (nat * Q)) (st : EdgeState)
  (entry : nat * Q) :
  In entry entries ->
  has (snd (fold_left (addEdge i) entries st)) (edgeKey i (fst entry)) = true.
Proof.
  revert st. induction entries as [|e es IH]; intros st Hin; simpl.
  - contradiction.
  - destruct Hin as [E|Hin].
    + subst e. apply addEdges_keeps. apply addEdge_records.
    + apply IH. exact Hin.
Qed.

(** The entries selected for point [i]: its [k] nearest. *)
Definition selected (points : list Point) (k i : nat) (p : Point)
  : list (nat * Q) :=
  firstn k (sortByDist
              (distancesFrom px py pz sqrt
                 (combine (seq 0 (length points)) points) i p)).

Lemma outer_keeps (indexed todo : list (nat * Point)) (k : nat)
  (st : EdgeState) (key : string) :
  has (snd st) key = true ->
  has (snd (fold_left (neighboursStep px py pz sqrt indexed k) todo st)) key
  = true.
Proof.
  revert st. induction todo as [|ip todo IH]; intros st H; simpl.
  - exact H.
  - apply IH. unfold neighboursStep. apply addEdges_keeps. exact H.
Qed.

Lemma outer_records (indexed todo : list (nat * Point)) (k : nat)
  (st : EdgeState) (ip : nat * Point) (entry : nat * Q) :
  In ip todo ->
  In entry (firstn k (sortByDist
                        (distancesFrom px py pz sqrt indexed (fst ip) (snd ip)))) ->
  has (snd (fold_left (neighboursStep px py pz sqrt indexed k) todo st))
      (edgeKey (fst ip) (fst entry)) = true.
Proof.
  revert st. induction todo as [|ip' todo IH]; intros st Hin He; simpl.
  - contradiction.
  - destruct Hin as [E|Hin].
    + subst ip'. apply outer_keeps. unfold neighboursStep.
      apply addEdges_records. exact He.
    + apply IH; assumption.
Qed.

Lemma outer_keysFromEdges (indexed todo : list (nat * Point)) (k : nat)
  (st : EdgeState) :
  keysFromEdges st ->
  keysFromEdges (fold_left (neighboursStep px py pz sqrt indexed k) todo st).
Proof.
  intro H. apply fold_left_invariant with (P := keysFromEdges); [exact H|].
  intros s ip _ Hs. unfold neighboursStep.
  apply fold_left_invariant with (P := keysFromEdges); [exact Hs|].
  intros s' e _ Hs'. apply addEdge_keysFromEdges. exact Hs'.
Qed.

(** The union semantics: each selected neighbour is joined to the point by
    a stored edge, in one direction or the other. *)
Lemma selected_is_joined (points : list Point) (k i : nat) (p : Point)
  (entry : nat * Q) :
  nth_error points i = Some p ->
  In entry (selected points k i p) ->
  let edges := findKNearestNeighbors px py pz sqrt points k in
  In (i, fst entry) edges \/ In (fst entry, i) edges.
Proof.
  intros Hp He edges. unfold selected in He.
  set (indexed := combine (seq 0 (length points)) points) in *.
  assert (Hip : In (i, p) indexed).
  { unfold indexed. clear He.
    assert (G : forall from (l : list Point) j,
               nth_error l j = Some p ->
               In ((from + j)%nat, p) (combine (seq from (length l)) l)).
    { intros from l. revert from.
      induction l as [|q l IH]; intros from [|j] Hj; simpl in *;
        try discriminate.
      - injection Hj as Hj. subst q. left. f_equal. lia.
      - right. replace (from + S j)%nat with (S from + j)%nat by lia.
        apply IH. exact Hj. }
    apply (G 0%nat points i Hp). }
  pose proof (@outer_records indexed indexed k ([], []) (i, p) entry Hip He)
    as Hrec.
  assert (Hk : keysFromEdges
                 (fold_left (neighboursStep px py pz sqrt indexed k) indexed
                            ([], []))).
  { apply outer_keysFromEdges. intros key Hkey. discriminate. }
  destruct (Hk _ Hrec) as ((a, b) & Hin & Hkey). simpl in Hkey.
  apply edgeKey_inj, unordered_cases in Hkey.
  unfold edges, findKNearestNeighbors. fold indexed.
  destruct Hkey as [E|E]; injection E as -> ->; [left | right]; exact Hin.
Qed.

End KnnUnion.

(** X3: the neighbour graph is the union k-nearest-neighbour graph: for
    every point [i] and each of the [k] entries selected for it (the first
    [k] of its distance list, sorted), the edge list holds [[i, j]] or
    [[j, i]]. *)
Theorem knn_selected_neighbours_are_joined
  (Point : Type) (px py pz : Point -> Q) (sqrt : Q -> Q)
  (points : list Point) (k i : nat) (p : Point) (entry : nat * Q) :
  nth_error points i = Some p ->
  In entry (selected px py pz sqrt points k i p) ->
  In (i, fst entry) (Knn.findKNearestNeighbors px py pz sqrt points k) \/
  In (fst entry, i) (Knn.findKNearestNeighbors px py pz sqrt points k).
Proof.
  intros Hp He.
  apply (@selected_is_joined Point px py pz sqrt points k i p entry Hp He).
Qed.

Lemma knn_selected_neighbours_are_joined_witness :
  let points :=
    [Sample.pointAt 0; Sample.pointAt 1; Sample.pointAt 2; Sample.pointAt 3;
     Sample.pointAt 100] in
  In (4, 3)%nat (Server.findKNearestNeighbors Sample.sqrtQ points 3) \/
  In (3, 4)%nat (Server.findKNearestNeighbors Sample.sqrtQ points 3).
Proof.
  intro points.
  apply (@knn_selected_neighbours_are_joined
           Server.VisualizationPoint Server.x Server.y Server.z Sample.sqrtQ
           points 3%nat 4%nat (Sample.pointAt 100) (3%nat, 97)).
  - reflexivity.
  - vm_compute. left. reflexivity.
Defined.

Section KnnSelection.

Import Knn.

Variable Point : Type.
Variables px py pz : Point -> Q.
Variable sqrt : Q -> Q.

Definition byDistance (a b : nat * Q) : Prop := snd a <= snd b.

Lemma insertByDist_perm (e : nat * Q) (l : list (nat * Q)) :
  Permutation (insertByDist e l) (e :: l).
Proof.
  induction l as [|x l IH]; simpl.
  - apply Permutation_refl.
  - destruct (Js.leb (snd e) (snd x)).
    + apply Permutation_refl.
    + eapply perm_trans; [apply perm_skip, IH | apply perm_swap].
Qed.

Lemma sortByDist_perm (l : list (nat * Q)) : Permutation (sortByDist l) l.
Proof.
  unfold sortByDist. induction l as [|x l IH]; simpl.
  - apply perm_nil.
  - eapply perm_trans; [apply insertByDist_perm | apply perm_skip, IH].
Qed.

Lemma insertByDist_sorted (e : nat * Q) (l : list (nat * Q)) :
  StronglySorted byDistance l -> StronglySorted byDistance (insertByDist e l).
Proof.
  induction 1 as [|x l Hl IH Hx]; simpl.
  - constructor; constructor.
  - destruct (Js.leb (snd e) (snd x)) eqn:E.
    + apply Js.leb_le in E. constructor.
      * constructor; assumption.
      * constructor; [exact E|].
        eapply Forall_impl; [|exact Hx].
        intros y Hy. unfold byDistance in *. eapply Qle_trans; eassumption.
    + apply Js.leb_gt in E. constructor; [exact IH|].
      apply Forall_forall. intros y Hy.
      apply (Permutation_in _ (insertByDist_perm e l)) in Hy.
      destruct Hy as [Hy|Hy].
      * subst y. unfold byDistance. apply Qlt_le_weak. exact E.
      * rewrite Forall_forall in Hx. apply Hx. exact Hy.
Qed.

Lemma sortByDist_sorted (l : list (nat * Q)) :
  StronglySorted byDistance (sortByDist l).
Proof.
  unfold sortByDist. induction l as [|x l IH]; simpl.
  - constructor.
  - apply insertByDist_sorted. exact IH.
Qed.

Lemma In_skipn {A : Type} (x : A) (n : nat) (l : list A) :
  In x (skipn n l) -> In x l.
Proof.
  revert l. induction n as [|n IH]; intros [|y l]; simpl; try tauto.
  intro H. right. apply IH. exact H.
Qed.

Lemma sorted_split (k : nat) (l : list (nat * Q)) (a b : nat * Q) :
  StronglySorted byDistance l ->
  In a (firstn k l) -> In b (skipn k l) -> snd a <= snd b.
Proof.
  intro Hl. revert k. induction Hl as [|x l Hl IH Hx]; intros [|k] Ha Hb;
    simpl in *; try contradiction.
  destruct Ha as [Ha|Ha].
  - subst a. rewrite Forall_forall in Hx.
    apply Hx. eapply In_skipn. exact Hb.
  - apply (IH k Ha Hb).
Qed.

Lemma map_fst_indexed {A : Type} (from : nat) (l : list A) :
  map fst (combine (seq from (length l)) l) = seq from (length l).
Proof.
  revert from. induction l as [|x l IH]; intro from; simpl.
  - reflexivity.
  - rewrite IH. reflexivity.
Qed.

Lemma distancesFrom_indices (indexed : list (nat * Point)) (i : nat)
  (p : Point) :
  map fst (distancesFrom px py pz sqrt indexed i p)
  = filter (fun j => negb (i =? j)%nat) (map fst indexed).
Proof.
  unfold distancesFrom. induction indexed as [|(j, q) l IH]; simpl.
  - reflexivity.
  - destruct (i =? j)%nat; simpl; rewrite IH; reflexivity.
Qed.

Lemma others_count (i from n : nat) :
  ((from <= i < from + n)%nat ->
   length (filter (fun j => negb (i =? j)%nat) (seq from n)) = (n - 1)%nat) /\
  (~ (from <= i < from + n)%nat ->
   length (filter (fun j => negb (i =? j)%nat) (seq from n)) = n).
Proof.
  revert from. induction n as [|n IH]; intro from; simpl.
  - split; [lia | reflexivity].
  - destruct (IH (S from)) as (IH1 & IH2).
    destruct (Nat.eqb_spec i from) as [E|E]; simpl.
    + subst from. split; [|lia]. intros _. rewrite IH2 by lia. lia.
    + split; intro H.
      * rewrite IH1 by lia. lia.
      * rewrite IH2 by lia. reflexivity.
Qed.

Lemma distancesFrom_length (points : list Point) (i : nat) (p : Point) :
  (i < length points)%nat ->
  length (distancesFrom px py pz sqrt
            (combine (seq 0 (length points)) points) i p)
  = (length points - 1)%nat.
Proof.
  intro Hi. rewrite <- (length_map fst), distancesFrom_indices,
    map_fst_indexed.
  apply others_count. lia.
Qed.

Lemma distancesFrom_distinct (points : list Point) (i : nat) (p : Point) :
  NoDup (map fst (distancesFrom px py pz sqrt
                    (combine (seq 0 (length points)) points) i p)).
Proof.
  rewrite distancesFrom_indices, map_fst_indexed.
  apply NoDup_filter. apply seq_NoDup.
Qed.

Lemma distancesFrom_entry (indexed : list (nat * Point)) (i : nat)
  (p : Point) (e : nat * Q) :
  In e (distancesFrom px py pz sqrt indexed i p) ->
  exists q, In (fst e, q) indexed /\ i <> fst e /\
            snd e = distance px py pz sqrt p q.
Proof.
  unfold distancesFrom. intro H. apply in_flat_map in H.
  destruct H as ((j, q) & Hin & H). simpl in H.
  destruct (i =? j)%nat eqn:E; [contradiction|].
  destruct H as [H|[]]. subst e. simpl.
  apply Nat.eqb_neq in E. exists q. repeat split; assumption.
Qed.

Lemma indexed_lookup (points : list Point) (j : nat) (q : Point) :
  In (j, q) (combine (seq 0 (length points)) points) ->
  nth_error points j = Some q.
Proof.
  assert (G : forall from (l : list Point),
             In (j, q) (combine (seq from (length l)) l) ->
             (from <= j)%nat /\ nth_error l (j - from) = Some q).
  { intros from l. revert from.
    induction l as [|x l IH]; intros from H; simpl in H; [contradiction|].
    destruct H as [H|H].
    - injection H as -> ->. rewrite Nat.sub_diag. split; [lia | reflexivity].
    - destruct (IH (S from) H) as (Hle & Hn). split; [lia|].
      replace (j - from)%nat with (S (j - S from)) by lia. exact Hn. }
  intro H. destruct (G 0%nat points H) as (_ & Hn).
  rewrite Nat.sub_0_r in Hn. exact Hn.
Qed.

Lemma selected_distinct (points : list Point) (k i : nat) (p : Point) :
  NoDup (map fst (selected px py pz sqrt points k i p)).
Proof.
  unfold selected.
  set (all := distancesFrom px py pz sqrt _ i p).
  assert (H : NoDup (map fst (sortByDist all))).
  { eapply Permutation_NoDup;
      [apply Permutation_map, Permutation_sym, sortByDist_perm|].
    apply distancesFrom_distinct. }
  revert H. generalize (sortByDist all). intros l. revert k.
  induction l as [|x l IH]; intros [|k] H; simpl; try constructor.
  - inversion H as [|? ? Hx Hl]; subst. intro Hin. apply Hx.
    apply in_map_iff in Hin. destruct Hin as (y & Hy & Hin).
    apply in_map_iff. exists y. split; [exact Hy|].
    eapply In_firstn. exact Hin.
  - inversion H; subst. apply IH. assumption.
Qed.

Lemma selected_length (points : list Point) (k i : nat) (p : Point) :
  (i < length points)%nat ->
  length (selected px py pz sqrt points k i p)
  = Nat.min k (length points - 1).
Proof.
  intro Hi. unfold selected. rewrite length_firstn.
  rewrite (Permutation_length (sortByDist_perm _)).
  rewrite distancesFrom_length by exact Hi. reflexivity.
Qed.

End KnnSelection.

(** X4: the entries selected for a point are its nearest neighbours: there
    are [min(k, n - 1)] of them, each is another point of the list with its
    distance to the point, and no entry left out is closer than a selected
    one. *)
Theorem knn_selects_nearest
  (Point : Type) (px py pz : Point -> Q) (sqrt : Q -> Q)
  (points : list Point) (k i : nat) (p : Point) :
  nth_error points i = Some p ->
  let all :=
    Knn.distancesFrom px py pz sqrt
      (combine (seq 0 (length points)) points) i p in
  let chosen := selected px py pz sqrt points k i p in
  let rest := skipn k (Knn.sortByDist all) in
  length chosen = Nat.min k (length points - 1) /\
  Permutation (chosen ++ rest) all /\
  (forall e, In e all ->
             exists q, nth_error points (fst e) = Some q /\ i <> fst e /\
                       snd e = Knn.distance px py pz sqrt p q) /\
  (forall a b, In a chosen -> In b rest -> snd a <= snd b).
Proof.
  intros Hp all chosen rest.
  assert (Hi : (i < length points)%nat).
  { apply nth_error_Some. congruence. }
  split; [apply selected_length; exact Hi|].
  split.
  - unfold chosen, selected, rest. fold all.
    rewrite firstn_skipn. apply sortByDist_perm.
  - split.
    + intros e He. apply distancesFrom_entry in He.
      destruct He as (q & Hq & Hne & Hd).
      exists q. split; [apply indexed_lookup; exact Hq|]. split; assumption.
    + intros a b Ha Hb.
      apply (@sorted_split k (Knn.sortByDist all) a b
               (sortByDist_sorted all) Ha Hb).
Qed.

Lemma knn_selects_nearest_witness :
  let points :=
    [Sample.pointAt 0; Sample.pointAt 1; Sample.pointAt 2; Sample.pointAt 3;
     Sample.pointAt 100] in
  length (selected Server.x Server.y Server.z Sample.sqrtQ points 3 4
            (Sample.pointAt 100)) = 3%nat.
Proof.
  intro points.
  apply (@knn_selects_nearest
           Server.VisualizationPoint Server.x Server.y Server.z Sample.sqrtQ
           points 3%nat 4%nat (Sample.pointAt 100)).
  reflexivity.
Defined.

(** The edges that have point [i] at one end. *)
Definition incident (i : nat) (edges : list (nat * nat)) : list (nat * nat) :=
  filter (fun e => (fst e =? i)%nat || (snd e =? i)%nat) edges.

(** X5: in the neighbour graph every point has at least [min(k, n - 1)]
    incident edges. *)
Theorem knn_degree_at_least_k
  (Point : Type) (px py pz : Point -> Q) (sqrt : Q -> Q)
  (points : list Point) (k i : nat) :
  (i < length points)%nat ->
  (Nat.min k (length points - 1)
   <= length (incident i (Knn.findKNearestNeighbors px py pz sqrt points k)))%nat.
Proof.
  intro Hi.
  destruct (nth_error points i) as [p|] eqn:Hp;
    [|apply nth_error_None in Hp; lia].
  set (edges := Knn.findKNearestNeighbors px py pz sqrt points k).
  set (other := fun e : nat * nat =>
                  if (fst e =? i)%nat then snd e else fst e).
  rewrite <- (selected_length px py pz sqrt points k p Hi).
  rewrite <- (length_map fst), <- (length_map other (incident i edges)).
  apply NoDup_incl_length; [apply selected_distinct|].
  intros j Hj. apply in_map_iff in Hj. destruct Hj as (entry & Hf & Hin).
  subst j.
  assert (Hne : i <> fst entry).
  { unfold selected in Hin. apply In_firstn, sortByDist_In in Hin.
    apply distancesFrom_In in Hin. apply Hin. }
  destruct (@selected_is_joined Point px py pz sqrt points k i p entry Hp Hin)
    as [H|H]; fold edges in H; apply in_map_iff.
  - exists (i, fst entry). unfold other, incident. simpl.
    rewrite Nat.eqb_refl. split; [reflexivity|].
    apply filter_In. split; [exact H|]. simpl.
    rewrite Nat.eqb_refl. reflexivity.
  - exists (fst entry, i). unfold other, incident. simpl.
    replace (fst entry =? i)%nat with false
      by (symmetry; apply Nat.eqb_neq; congruence).
    split; [reflexivity|].
    apply filter_In. split; [exact H|]. simpl.
    rewrite Nat.eqb_refl. apply orb_true_r.
Qed.

Lemma knn_degree_at_least_k_witness :
  let points :=
    [Sample.pointAt 0; Sample.pointAt 1; Sample.pointAt 2; Sample.pointAt 3;
     Sample.pointAt 100] in
  (3 <= length (incident 4
                  (Server.findKNearestNeighbors Sample.sqrtQ points 3)))%nat.
Proof.
  intro points.
  apply (@knn_degree_at_least_k
           Server.VisualizationPoint Server.x Server.y Server.z Sample.sqrtQ
           points 3%nat 4%nat).
  simpl. lia.
Defined.

(** ** Further properties of the first server variant *)

Section ServerFrames.

Import Server.

(** [Math.max(...xs, seed)] dominates the seed and every element. *)
Lemma maxOf_ge_seed (x : Q) (xs : list Q) : x <= Js.maxOf x xs.
Proof.
  unfold Js.maxOf. revert x. induction xs as [|y ys IH]; intro x; simpl.
  - apply Qle_refl.
  - eapply Qle_trans; [|apply IH]. unfold Js.max. apply Q.le_max_l.
Qed.

Lemma maxOf_ge_elem (x : Q) (xs : list Q) (y : Q) :
  In y xs -> y <= Js.maxOf x xs.
Proof.
  unfold Js.maxOf. revert x. induction xs as [|z zs IH]; intros x Hy; simpl.
  - contradiction.
  - destruct Hy as [E|Hy].
    + subst z. eapply Qle_trans; [|apply (maxOf_ge_seed (Js.max x y) zs)].
      unfold Js.max. apply Q.le_max_r.
    + apply IH. exact Hy.
Qed.

Lemma minOf_le_seed (x : Q) (xs : list Q) : Js.minOf x xs <= x.
Proof.
  unfold Js.minOf. revert x. induction xs as [|y ys IH]; intro x; simpl.
  - apply Qle_refl.
  - eapply Qle_trans; [apply IH|]. unfold Js.min. apply Q.le_min_l.
Qed.

Lemma minOf_le_elem (x : Q) (xs : list Q) (y : Q) :
  In y xs -> Js.minOf x xs <= y.
Proof.
  unfold Js.minOf. revert x. induction xs as [|z zs IH]; intros x Hy; simpl.
  - contradiction.
  - destruct Hy as [E|Hy].
    + subst z. eapply Qle_trans; [apply (minOf_le_seed (Js.min x y) zs)|].
      unfold Js.min. apply Q.le_min_r.
    + apply IH. exact Hy.
Qed.

(** *** Temporal smoothing *)

(** The seven features that the smoothing pass rewrites. *)
Inductive SmoothedField : Type :=
| FPitch | FCentroid | FAmplitude | FBandwidth
| FBandLow | FBandMid | FBandHigh.

Definition fieldOf (fld : SmoothedField) (f : AudioFrame) : Q :=
  match fld with
  | FPitch => pitch f
  | FCentroid => centroid f
  | FAmplitude => amplitude f
  | FBandwidth => bandwidth f
  | FBandLow => bandLow f
  | FBandMid => bandMid f
  | FBandHigh => bandHigh f
  end.

Definition runningOf (fld : SmoothedField) (s : Smoothed) : Q :=
  match fld with
  | FPitch => smoothPitch s
  | FCentroid => smoothCentroid s
  | FAmplitude => smoothAmplitude s
  | FBandwidth => smoothBandwidth s
  | FBandLow => smoothBandLow s
  | FBandMid => smoothBandMid s
  | FBandHigh => smoothBandHigh s
  end.

(** The features that the smoothing pass leaves alone. *)
Definition unsmoothed (f : AudioFrame) : Q * Q * Q * Q * Q * Q * Q * Q :=
  (t f, onsetStrength f, spectralFlux f, spectralFlatness f, beatStrength f,
   onsetLow f, onsetMid f, onsetHigh f).

Lemma ema_between (lo hi raw smoothed : Q) :
  lo <= raw <= hi -> lo <= smoothed <= hi -> lo <= ema raw smoothed <= hi.
Proof. unfold ema, alpha. intros (H1 & H2) (H3 & H4). split; lra. Qed.

Lemma written_field (fld : SmoothedField) (s : Smoothed) (f : AudioFrame) :
  fieldOf fld (writeSmoothed s f) = runningOf fld s.
Proof. destruct fld; reflexivity. Qed.

Lemma next_running (fld : SmoothedField) (s : Smoothed) (f : AudioFrame) :
  runningOf fld (smoothNext s f) = ema (fieldOf fld f) (runningOf fld s).
Proof. destruct fld; reflexivity. Qed.

Lemma smoothLoop_between (fld : SmoothedField) (lo hi : Q) (s : Smoothed)
  (frames : list AudioFrame) :
  lo <= runningOf fld s <= hi ->
  Forall (fun f => lo <= fieldOf fld f <= hi) frames ->
  Forall (fun f => lo <= fieldOf fld f <= hi) (smoothLoop s frames).
Proof.
  intros Hs Hf. revert s Hs. induction Hf as [|f fs Hx _ IH]; intros s Hs;
    simpl; constructor.
  - rewrite written_field, next_running. apply ema_between; assumption.
  - apply IH. rewrite next_running. apply ema_between; assumption.
Qed.

Lemma smoothLoop_unsmoothed (s : Smoothed) (frames : list AudioFrame) :
  map unsmoothed (smoothLoop s frames) = map unsmoothed frames.
Proof.
  revert s. induction frames as [|f fs IH]; intro s; simpl.
  - reflexivity.
  - rewrite IH. reflexivity.
Qed.

Lemma smoothing_between (fld : SmoothedField) (lo hi : Q)
  (frames : list AudioFrame) :
  Forall (fun f => lo <= fieldOf fld f <= hi) frames ->
  Forall (fun f => lo <= fieldOf fld f <= hi) (applyTemporalSmoothing frames).
Proof.
  intro H. unfold applyTemporalSmoothing.
  destruct (length frames <? 3)%nat; [exact H|].
  destruct frames as [|f0 fs]; [constructor|].
  apply smoothLoop_between; [|exact H].
  inversion H as [|? ? H0 _]; subst. destruct fld; exact H0.
Qed.

Lemma smoothing_unsmoothed (frames : list AudioFrame) :
  map unsmoothed (applyTemporalSmoothing frames) = map unsmoothed frames.
Proof.
  unfold applyTemporalSmoothing.
  destruct (length frames <? 3)%nat; [reflexivity|].
  destruct frames as [|f0 fs]; [reflexivity|].
  apply smoothLoop_unsmoothed.
Qed.

End ServerFrames.

(** X6: [applyTemporalSmoothing] returns as many frames as it gets, leaves
    the time, the onset strength, the flux, the flatness, the beat strength
    and the band onsets of every frame as they are, and keeps every
    smoothed feature inside any interval that holds all its raw values; the
    first frame is not changed (its value is averaged with itself), and a
    list of fewer than three frames is returned as it is. *)
Theorem smoothing_keeps_ranges
  (fld : SmoothedField) (lo hi : Q) (frames : list Server.AudioFrame) :
  (forall f, In f frames -> lo <= fieldOf fld f /\ fieldOf fld f <= hi) ->
  (forall g, In g (Server.applyTemporalSmoothing frames) ->
             lo <= fieldOf fld g /\ fieldOf fld g <= hi) /\
  map unsmoothed (Server.applyTemporalSmoothing frames)
  = map unsmoothed frames /\
  (forall f0 g0, nth_error frames 0 = Some f0 ->
                 nth_error (Server.applyTemporalSmoothing frames) 0 = Some g0 ->
                 fieldOf fld g0 == fieldOf fld f0) /\
  ((length frames < 3)%nat -> Server.applyTemporalSmoothing frames = frames).
Proof.
  intro H. split; [|split; [|split]].
  - apply Forall_forall. apply smoothing_between. apply Forall_forall. exact H.
  - apply smoothing_unsmoothed.
  - intros f0 g0 Hf Hg. unfold Server.applyTemporalSmoothing in Hg.
    destruct (length frames <? 3)%nat.
    + rewrite Hf in Hg. injection Hg as <-. reflexivity.
    + destruct frames as [|f fs]; [discriminate|]. simpl in Hf, Hg.
      injection Hf as <-. injection Hg as <-.
      rewrite written_field, next_running.
      unfold Server.ema, Server.alpha.
      destruct fld; simpl; ring.
  - intro Hlen. unfold Server.applyTemporalSmoothing.
    apply Nat.ltb_lt in Hlen. rewrite Hlen. reflexivity.
Qed.

Lemma smoothing_keeps_ranges_witness :
  let frames :=
    [Sample.frameAt 0 1; Sample.frameAt (1 # 10) 0; Sample.frameAt (2 # 10) 1;
     Sample.frameAt (3 # 10) 0] in
  let g := nth 1 (Server.applyTemporalSmoothing frames) (Sample.frameAt 0 0) in
  0 <= Server.amplitude g /\ Server.amplitude g <= 1.
Proof.
  intros frames g.
  destruct (@smoothing_keeps_ranges FAmplitude 0 1 frames) as (H & _).
  - intros f Hf. simpl in Hf.
    repeat (destruct Hf as [Hf|Hf];
            [subst f; split; vm_compute; discriminate|]).
    contradiction.
  - apply (H g). apply nth_In. vm_compute. lia.
Defined.

Section ServerOnsetsAndBeats.

Import Server.

(** Everything of a frame but its band onsets. *)
Definition butOnsets (f : AudioFrame)
  : Q * Q * Q * Q * Q * Q * Q * Q * Q * Q * Q * Q :=
  (t f, pitch f, centroid f, bandwidth f, amplitude f, onsetStrength f,
   spectralFlux f, spectralFlatness f, beatStrength f, bandLow f, bandMid f,
   bandHigh f).

(** Everything of a frame but its beat strength. *)
Definition butBeat (f : AudioFrame)
  : Q * Q * Q * Q * Q * Q * Q * Q * Q * Q * Q * Q * Q * Q :=
  (t f, pitch f, centroid f, bandwidth f, amplitude f, onsetStrength f,
   spectralFlux f, spectralFlatness f, bandLow f, bandMid f, bandHigh f,
   onsetLow f, onsetMid f, onsetHigh f).

Definition onsetsIn (lo hi : Q) (f : AudioFrame) : Prop :=
  (lo <= onsetLow f /\ onsetLow f <= hi) /\
  (lo <= onsetMid f /\ onsetMid f <= hi) /\
  (lo <= onsetHigh f /\ onsetHigh f <= hi).

Lemma onsetLoop_butOnsets (a b c : Q) (frames : list AudioFrame) :
  map butOnsets (onsetLoop a b c frames) = map butOnsets frames.
Proof.
  revert a b c. induction frames as [|f fs IH]; intros a b c; simpl.
  - reflexivity.
  - rewrite IH. reflexivity.
Qed.

Lemma onsetLoop_nonneg (a b c : Q) (frames : list AudioFrame) :
  Forall (fun f => 0 <= onsetLow f /\ 0 <= onsetMid f /\ 0 <= onsetHigh f)
         (onsetLoop a b c frames).
Proof.
  revert a b c. induction frames as [|f fs IH]; intros a b c; simpl.
  - constructor.
  - constructor; [|apply IH]. simpl. unfold Js.max.
    repeat split; apply Q.le_max_l.
Qed.

Lemma ratio_in_unit (v m : Q) : 0 <= v -> v <= m -> 0 < m ->
  0 <= v / m /\ v / m <= 1.
Proof.
  intros H0 H1 Hm. split.
  - apply Qle_shift_div_l; [exact Hm | lra].
  - apply Qle_shift_div_r; [exact Hm | lra].
Qed.

Lemma computeBandOnsets_butOnsets (frames : list AudioFrame) :
  map butOnsets (computeBandOnsets frames) = map butOnsets frames.
Proof.
  unfold computeBandOnsets.
  destruct (length frames <? 2)%nat; [reflexivity|].
  destruct frames as [|f0 fs]; [reflexivity|].
  rewrite map_map.
  rewrite <- (onsetLoop_butOnsets (bandLow f0) (bandMid f0) (bandHigh f0)
                (f0 :: fs)).
  apply map_ext. intro f. reflexivity.
Qed.

Lemma computeBandOnsets_unit (frames : list AudioFrame) :
  (2 <= length frames)%nat ->
  Forall (onsetsIn 0 1) (computeBandOnsets frames).
Proof.
  intro Hlen. unfold computeBandOnsets.
  replace (length frames <? 2)%nat with false
    by (symmetry; apply Nat.ltb_ge; exact Hlen).
  destruct frames as [|f0 fs]; [constructor|].
  set (fs' := onsetLoop (bandLow f0) (bandMid f0) (bandHigh f0) (f0 :: fs)).
  pose proof (onsetLoop_nonneg (bandLow f0) (bandMid f0) (bandHigh f0)
                (f0 :: fs)) as Hnn.
  fold fs' in Hnn. rewrite Forall_forall in Hnn.
  apply Forall_forall. intros g Hg. apply in_map_iff in Hg.
  destruct Hg as (f & Hf & Hin). subst g.
  destruct (Hnn f Hin) as (H1 & H2 & H3).
  assert (Hseed : 0 < 1 # 1000) by reflexivity.
  unfold onsetsIn. cbn [setOnsets onsetLow onsetMid onsetHigh].
  split; [|split];
    (apply ratio_in_unit;
     [assumption
     | apply maxOf_ge_elem; apply in_map; exact Hin
     | eapply Qlt_le_trans; [exact Hseed | apply maxOf_ge_seed]]).
Qed.

Lemma first_onsets_zero (frames : list AudioFrame) (g0 : AudioFrame) :
  (2 <= length frames)%nat ->
  nth_error (computeBandOnsets frames) 0 = Some g0 ->
  onsetLow g0 == 0 /\ onsetMid g0 == 0 /\ onsetHigh g0 == 0.
Proof.
  intros Hlen Hg. unfold computeBandOnsets in Hg.
  replace (length frames <? 2)%nat with false in Hg
    by (symmetry; apply Nat.ltb_ge; exact Hlen).
  destruct frames as [|f0 fs]; [discriminate|].
  assert (E : forall v, Js.max 0 (v - v) == 0).
  { intro v. unfold Js.max. rewrite Q.max_l by lra. reflexivity. }
  cbn [onsetLoop map nth_error] in Hg. injection Hg as <-.
  cbn [setOnsets onsetLow onsetMid onsetHigh].
  assert (Z0 : forall x y : Q, x == 0 -> x / y == 0).
  { intros x y H. unfold Qdiv. rewrite H. ring. }
  repeat split; apply Z0; apply E.
Qed.

(** *** Beats *)

Lemma nth_nonneg (l : list Q) (i : nat) :
  Forall (fun v => 0 <= v) l -> 0 <= nth i l 0.
Proof.
  intro H. revert i. induction H as [|x l Hx _ IH]; intros [|i]; simpl;
    try apply Qle_refl; [exact Hx | apply IH].
Qed.

Lemma markBeat_butBeat (nf : list Q) (w i : nat) (f : AudioFrame) :
  butBeat (markBeat nf w i f) = butBeat f.
Proof.
  unfold markBeat.
  destruct ((1 <=? i)%nat && (i + 1 <? length nf)%nat); [|reflexivity].
  destruct (_ && _); reflexivity.
Qed.

Lemma markBeat_unit (nf : list Q) (w i : nat) (f : AudioFrame) :
  Forall (fun v => 0 <= v) nf ->
  0 <= beatStrength f <= 1 ->
  0 <= beatStrength (markBeat nf w i f) <= 1.
Proof.
  intros Hnf Hf. unfold markBeat.
  destruct ((1 <=? i)%nat && (i + 1 <? length nf)%nat); [|exact Hf].
  destruct (_ && _); [|exact Hf]. simpl.
  pose proof (nth_nonneg i Hnf) as Hc. unfold Js.min. split.
  - apply Q.min_glb; [discriminate | nra].
  - apply Q.le_min_l.
Qed.

Lemma marked_butBeat (nf : list Q) (w : nat) (frames : list AudioFrame)
  (from : nat) :
  map butBeat (map (fun p => markBeat nf w (fst p) (snd p))
                   (combine (seq from (length frames)) frames))
  = map butBeat frames.
Proof.
  revert from. induction frames as [|f fs IH]; intro from; simpl.
  - reflexivity.
  - rewrite markBeat_butBeat, IH. reflexivity.
Qed.

Lemma marked_unit (nf : list Q) (w : nat) (frames : list AudioFrame)
  (from : nat) :
  Forall (fun v => 0 <= v) nf ->
  Forall (fun f => 0 <= beatStrength f <= 1) frames ->
  Forall (fun f => 0 <= beatStrength f <= 1)
         (map (fun p => markBeat nf w (fst p) (snd p))
              (combine (seq from (length frames)) frames)).
Proof.
  intros Hnf H. revert from. induction H as [|f fs Hf _ IH]; intro from;
    simpl; constructor.
  - apply markBeat_unit; assumption.
  - apply IH.
Qed.

Lemma detectBeats_butBeat (frames : list AudioFrame) (sampleRate : Q) :
  map butBeat (detectBeats frames sampleRate) = map butBeat frames.
Proof.
  unfold detectBeats.
  destruct (length frames <? 10)%nat; [reflexivity|].
  destruct (map spectralFlux frames) as [|x xs]; [reflexivity|].
  destruct (Js.eqb (Js.maxOf x xs) 0); [reflexivity|].
  match goal with
  | |- map butBeat (match map beatStrength ?m with _ => _ end) = _ =>
      assert (Hm : map butBeat m = map butBeat frames)
        by apply marked_butBeat;
      destruct (map beatStrength m) as [|b bs]; [exact Hm|]
  end.
  destruct (Js.ltb 0 (Js.maxOf b bs)); [|exact Hm].
  rewrite map_map. rewrite <- Hm. apply map_ext. intro f. reflexivity.
Qed.

Lemma detectBeats_unit (frames : list AudioFrame) (sampleRate : Q) :
  Forall (fun f => 0 <= spectralFlux f) frames ->
  Forall (fun f => 0 <= beatStrength f <= 1) frames ->
  Forall (fun f => 0 <= beatStrength f <= 1) (detectBeats frames sampleRate).
Proof.
  intros Hflux Hbeat. unfold detectBeats.
  destruct (length frames <? 10)%nat; [exact Hbeat|].
  destruct (map spectralFlux frames) as [|x xs] eqn:Ex; [exact Hbeat|].
  destruct (Js.eqb (Js.maxOf x xs) 0) eqn:Ez; [exact Hbeat|].
  apply Js.eqb_neq in Ez.
  assert (Hall : Forall (fun v => 0 <= v) (x :: xs)).
  { rewrite <- Ex. apply Forall_forall. intros v Hv.
    apply in_map_iff in Hv. destruct Hv as (f & <- & Hf).
    rewrite Forall_forall in Hflux. apply Hflux. exact Hf. }
  assert (Hmax : 0 < Js.maxOf x xs).
  { inversion Hall as [|? ? Hx _]; subst.
    pose proof (maxOf_ge_seed x xs) as Hge.
    destruct (Qlt_le_dec 0 (Js.maxOf x xs)) as [H|H]; [exact H|].
    exfalso. apply Ez. lra. }
  set (nf := map (fun v => v / Js.maxOf x xs) (x :: xs)).
  assert (Hnf : Forall (fun v => 0 <= v) nf).
  { unfold nf. apply Forall_forall. intros v Hv.
    apply in_map_iff in Hv. destruct Hv as (u & <- & Hu).
    rewrite Forall_forall in Hall.
    apply Qle_shift_div_l; [exact Hmax|]. specialize (Hall u Hu). lra. }
  pose proof (@marked_unit nf (Nat.min 10 (length frames / 4)) frames 0%nat
                Hnf Hbeat) as Hmarked.
  set (marked := map (fun p => markBeat nf _ (fst p) (snd p)) _) in *.
  destruct (map beatStrength marked) as [|b bs] eqn:Eb; [exact Hmarked|].
  destruct (Js.ltb 0 (Js.maxOf b bs)) eqn:El; [|exact Hmarked].
  apply Js.ltb_lt in El.
  apply Forall_forall. intros g Hg. apply in_map_iff in Hg.
  destruct Hg as (f & <- & Hf). simpl.
  rewrite Forall_forall in Hmarked. destruct (Hmarked f Hf) as (H0 & _).
  apply ratio_in_unit; [exact H0 | | exact El].
  assert (Hin : In (beatStrength f) (b :: bs)).
  { rewrite <- Eb. apply in_map. exact Hf. }
  destruct Hin as [E|Hin].
  - rewrite <- E. apply maxOf_ge_seed.
  - apply maxOf_ge_elem. exact Hin.
Qed.

End ServerOnsetsAndBeats.

(** X7: [computeBandOnsets] changes nothing but the three band onsets of
    the frames; on two frames or more every band onset it writes lies in
    [0, 1] and the onsets of the first frame are 0; a shorter list is
    returned as it is. *)
Theorem band_onsets_normalised (frames : list Server.AudioFrame) :
  map butOnsets (Server.computeBandOnsets frames) = map butOnsets frames /\
  ((2 <= length frames)%nat ->
   (forall g, In g (Server.computeBandOnsets frames) -> onsetsIn 0 1 g) /\
   (forall g0, nth_error (Server.computeBandOnsets frames) 0 = Some g0 ->
               Server.onsetLow g0 == 0 /\ Server.onsetMid g0 == 0 /\
               Server.onsetHigh g0 == 0)) /\
  ((length frames < 2)%nat -> Server.computeBandOnsets frames = frames).
Proof.
  split; [apply computeBandOnsets_butOnsets|]. split.
  - intro Hlen. split.
    + apply Forall_forall. apply computeBandOnsets_unit. exact Hlen.
    + intros g0 Hg. apply (first_onsets_zero frames Hlen Hg).
  - intro Hlen. unfold Server.computeBandOnsets.
    apply Nat.ltb_lt in Hlen. rewrite Hlen. reflexivity.
Qed.

Lemma band_onsets_normalised_witness :
  let frames :=
    [Server.mkFrame 0 0 0 0 1 0 0 0 0 1 2 3 0 0 0;
     Server.mkFrame (1 # 10) 0 0 0 1 0 0 0 0 4 2 1 0 0 0;
     Server.mkFrame (2 # 10) 0 0 0 1 0 0 0 0 5 6 1 0 0 0] in
  let g := nth 1 (Server.computeBandOnsets frames) (Sample.frameAt 0 0) in
  onsetsIn 0 1 g.
Proof.
  intros frames g.
  destruct (band_onsets_normalised frames) as (_ & H & _).
  destruct H as (H & _); [simpl; lia|].
  apply (H g). apply nth_In. vm_compute. lia.
Defined.

(** X8: [detectBeats] changes nothing but the beat strength of the frames;
    when no flux is negative and the beat strengths it receives lie in
    [0, 1] (they are 0 in the pipeline), the beat strengths it returns lie
    in [0, 1]. *)
Theorem beat_strengths_normalised
  (frames : list Server.AudioFrame) (sampleRate : Q) :
  (forall f, In f frames -> 0 <= Server.spectralFlux f) ->
  (forall f, In f frames ->
             0 <= Server.beatStrength f /\ Server.beatStrength f <= 1) ->
  map butBeat (Server.detectBeats frames sampleRate) = map butBeat frames /\
  (forall g, In g (Server.detectBeats frames sampleRate) ->
             0 <= Server.beatStrength g /\ Server.beatStrength g <= 1).
Proof.
  intros Hflux Hbeat. split; [apply detectBeats_butBeat|].
  apply Forall_forall. apply detectBeats_unit; apply Forall_forall; assumption.
Qed.

Lemma beat_strengths_normalised_witness :
  let frame (i : Z) (flux : Q) :=
    Server.mkFrame (inject_Z i / 10) 0 0 0 1 0 flux 0 0 0 0 0 0 0 0 in
  let frames :=
    [frame 0%Z 0; frame 1%Z 0; frame 2%Z 4; frame 3%Z 0; frame 4%Z 0;
     frame 5%Z 1; frame 6%Z 3; frame 7%Z 0; frame 8%Z 0; frame 9%Z 0;
     frame 10%Z 0; frame 11%Z 2] in
  let g := nth 6 (Server.detectBeats frames 44100) (Sample.frameAt 0 0) in
  0 <= Server.beatStrength g /\ Server.beatStrength g <= 1.
Proof.
  intros frame frames g.
  destruct (@beat_strengths_normalised frames 44100) as (_ & H).
  - intros f Hf. simpl in Hf.
    repeat (destruct Hf as [Hf|Hf]; [subst f; vm_compute; discriminate|]).
    contradiction.
  - intros f Hf. simpl in Hf.
    repeat (destruct Hf as [Hf|Hf];
            [subst f; split; vm_compute; discriminate|]).
    contradiction.
  - apply (H g). apply nth_In. vm_compute. lia.
Defined.

Section ServerPipelineRanges.

Import Server.

Variable K : Kernels.

Lemma estimatePitchFromZCR_range (zcr sampleRate : Q) :
  80 <= estimatePitchFromZCR zcr sampleRate /\
  estimatePitchFromZCR zcr sampleRate <= 8000.
Proof. unfold estimatePitchFromZCR. apply Js.clamp_bounds. discriminate. Qed.

Lemma computeOnsetStrength_range (prevRMS currentRMS : Q) :
  0 <= computeOnsetStrength prevRMS currentRMS /\
  computeOnsetStrength prevRMS currentRMS <= 1.
Proof.
  unfold computeOnsetStrength.
  destruct (Js.ltb 0 (currentRMS - prevRMS)) eqn:E.
  - apply Js.ltb_lt in E. unfold Js.min. split.
    + apply Q.min_glb; [discriminate | lra].
    + apply Q.le_min_l.
  - split; discriminate.
Qed.

(** What the frame loop writes into a new frame. *)
Definition freshFrame (f : AudioFrame) : Prop :=
  (80 <= pitch f /\ pitch f <= 8000) /\
  (0 <= onsetStrength f /\ onsetStrength f <= 1) /\
  beatStrength f = 0 /\
  (onsetLow f = 0 /\ onsetMid f = 0 /\ onsetHigh f = 0) /\
  exists fft prev, spectralFlux f = computeSpectralFlux K fft prev.

Lemma frameStep_fresh (samples : list Q) (sampleRate : Q) (st : LoopState)
  (i : nat) :
  exists f, loop_frames (frameStep K samples sampleRate st i)
            = loop_frames st ++ [f] /\ freshFrame f.
Proof.
  unfold frameStep.
  destruct (computeSpectralFeatures K _ _ _) as (c, b).
  destruct (computeBandEnergies K _ _ _) as ((lo, mi), hi).
  eexists. split; [reflexivity|].
  unfold freshFrame. simpl.
  split; [apply estimatePitchFromZCR_range|].
  split; [apply computeOnsetStrength_range|].
  split; [reflexivity|]. split; [repeat split|].
  eexists. eexists. reflexivity.
Qed.

Lemma rawFrames_fresh (samples : list Q) (sampleRate : Q) :
  Forall freshFrame (rawFrames K samples sampleRate).
Proof.
  unfold rawFrames.
  apply fold_left_invariant
    with (P := fun st => Forall freshFrame (loop_frames st)).
  - constructor.
  - intros st i _ Hst.
    destruct (frameStep_fresh samples sampleRate st i) as (f & E & Hf).
    rewrite E. apply Forall_app. split; [exact Hst|].
    constructor; [exact Hf | constructor].
Qed.

(** A projection that a pass does not write is the same after the pass. *)
Lemma smoothing_keeps {A : Type} (proj : AudioFrame -> A)
  (frames : list AudioFrame) :
  (forall s f, proj (writeSmoothed s f) = proj f) ->
  map proj (applyTemporalSmoothing frames) = map proj frames.
Proof.
  intro H. unfold applyTemporalSmoothing.
  destruct (length frames <? 3)%nat; [reflexivity|].
  destruct frames as [|f0 fs]; [reflexivity|].
  generalize (smoothSeed f0). generalize (f0 :: fs).
  induction l as [|f l IH]; intro s; simpl; [reflexivity|].
  rewrite H, IH. reflexivity.
Qed.

Lemma onsets_keeps {A : Type} (proj : AudioFrame -> A)
  (frames : list AudioFrame) :
  (forall f a b c, proj (setOnsets f a b c) = proj f) ->
  map proj (computeBandOnsets frames) = map proj frames.
Proof.
  intro H. unfold computeBandOnsets.
  destruct (length frames <? 2)%nat; [reflexivity|].
  destruct frames as [|f0 fs]; [reflexivity|].
  rewrite map_map.
  transitivity (map proj (onsetLoop (bandLow f0) (bandMid f0) (bandHigh f0)
                            (f0 :: fs))).
  - apply map_ext. intro f. apply H.
  - generalize (bandLow f0) (bandMid f0) (bandHigh f0). generalize (f0 :: fs).
    induction l as [|f l IH]; intros a b c; simpl; [reflexivity|].
    rewrite H, IH. reflexivity.
Qed.

Lemma beats_keeps {A : Type} (proj : AudioFrame -> A)
  (frames : list AudioFrame) (sampleRate : Q) :
  (forall f b, proj (setBeatStrength f b) = proj f) ->
  map proj (detectBeats frames sampleRate) = map proj frames.
Proof.
  intro H. unfold detectBeats.
  destruct (length frames <? 10)%nat; [reflexivity|].
  destruct (map spectralFlux frames) as [|x xs]; [reflexivity|].
  destruct (Js.eqb (Js.maxOf x xs) 0); [reflexivity|].
  set (nf := map (fun v => v / Js.maxOf x xs) (x :: xs)).
  set (w := Nat.min 10 (length frames / 4)).
  clearbody nf w.
  assert (Hm : map proj (map (fun p => markBeat nf w (fst p) (snd p))
                             (combine (seq 0 (length frames)) frames))
               = map proj frames).
  { generalize 0%nat. induction frames as [|f fs IH]; intro from; simpl;
      [reflexivity|].
    rewrite IH. f_equal. unfold markBeat.
    destruct ((1 <=? from)%nat && (from + 1 <? length nf)%nat);
      [|reflexivity].
    destruct (_ && _); [apply H | reflexivity]. }
  destruct (map beatStrength _) as [|b bs]; [exact Hm|].
  destruct (Js.ltb 0 (Js.maxOf b bs)); [|exact Hm].
  rewrite map_map, <- Hm. apply map_ext. intro f. apply H.
Qed.

Lemma Forall_of_map {A B : Type} (proj : A -> B) (P : B -> Prop)
  (l l' : list A) :
  map proj l = map proj l' ->
  Forall (fun a => P (proj a)) l' -> Forall (fun a => P (proj a)) l.
Proof.
  intros E H. apply Forall_map. rewrite E. apply Forall_map. exact H.
Qed.

End ServerPipelineRanges.

(** X9: in every frame returned by [extractAudioFrames] the pitch lies in
    [80, 8000] Hz and the onset strength in [0, 1]; the three band onsets
    lie in [0, 1]; and, when the flux kernel never returns a negative
    number, the beat strength lies in [0, 1]. *)
Theorem pipeline_frame_ranges
  (K : Server.Kernels) (samples : list Q) (sampleRate : Q)
  (g : Server.AudioFrame) :
  (forall fft prev, 0 <= Server.computeSpectralFlux K fft prev) ->
  In g (Server.extractAudioFrames K samples sampleRate) ->
  (80 <= Server.pitch g /\ Server.pitch g <= 8000) /\
  (0 <= Server.onsetStrength g /\ Server.onsetStrength g <= 1) /\
  onsetsIn 0 1 g /\
  (0 <= Server.beatStrength g /\ Server.beatStrength g <= 1).
Proof.
  intros Hflux Hin.
  pose proof (rawFrames_fresh K samples sampleRate) as Hraw.
  set (raw := Server.rawFrames K samples sampleRate) in *.
  set (smoothed := Server.applyTemporalSmoothing raw).
  set (onsets := Server.computeBandOnsets smoothed).
  assert (Hfinal : Server.extractAudioFrames K samples sampleRate
                   = Server.detectBeats onsets sampleRate) by reflexivity.
  rewrite Hfinal in Hin. clear Hfinal.
  (* pitch *)
  assert (Hpitch : Forall (fun f => 80 <= Server.pitch f <= 8000)
                          (Server.detectBeats onsets sampleRate)).
  { eapply (@Forall_of_map _ _ Server.pitch (fun v => 80 <= v <= 8000));
      [apply beats_keeps; intros; reflexivity|].
    eapply (@Forall_of_map _ _ Server.pitch (fun v => 80 <= v <= 8000));
      [apply onsets_keeps; intros; reflexivity|].
    apply (smoothing_between FPitch).
    eapply Forall_impl; [|exact Hraw]. intros f Hf. apply Hf. }
  (* onset strength *)
  assert (Honset : Forall (fun f => 0 <= Server.onsetStrength f <= 1)
                          (Server.detectBeats onsets sampleRate)).
  { eapply (@Forall_of_map _ _ Server.onsetStrength (fun v => 0 <= v <= 1));
      [apply beats_keeps; intros; reflexivity|].
    eapply (@Forall_of_map _ _ Server.onsetStrength (fun v => 0 <= v <= 1));
      [apply onsets_keeps; intros; reflexivity|].
    eapply (@Forall_of_map _ _ Server.onsetStrength (fun v => 0 <= v <= 1));
      [apply smoothing_keeps; intros; reflexivity|].
    eapply Forall_impl; [|exact Hraw]. intros f Hf. apply Hf. }
  (* the features that smoothing does not touch *)
  set (rest := fun f : Server.AudioFrame =>
                 (Server.spectralFlux f, Server.beatStrength f,
                  Server.onsetLow f, Server.onsetMid f, Server.onsetHigh f)).
  set (fresh := fun r : Q * Q * Q * Q * Q =>
                  let '(flux, beat, lo, mi, hi) := r in
                  0 <= flux /\ beat = 0 /\ lo = 0 /\ mi = 0 /\ hi = 0).
  assert (Hsm : Forall (fun f => fresh (rest f)) smoothed).
  { eapply (@Forall_of_map _ _ rest fresh);
      [apply smoothing_keeps; intros; reflexivity|].
    eapply Forall_impl; [|exact Hraw].
    intros f (_ & _ & Hb & (H1 & H2 & H3) & (fft & prev & Hf)).
    unfold fresh, rest. rewrite Hf. repeat split; try assumption.
    apply Hflux. }
  (* band onsets *)
  assert (Hbands : Forall (onsetsIn 0 1) onsets).
  { destruct (le_lt_dec 2 (length smoothed)) as [Hl|Hl].
    - apply computeBandOnsets_unit. exact Hl.
    - unfold onsets, Server.computeBandOnsets.
      apply Nat.ltb_lt in Hl. rewrite Hl.
      eapply Forall_impl; [|exact Hsm].
      intros f (_ & _ & H1 & H2 & H3). unfold onsetsIn.
      rewrite H1, H2, H3. repeat split; discriminate. }
  assert (Hbands' : Forall (onsetsIn 0 1)
                           (Server.detectBeats onsets sampleRate)).
  { set (three := fun f : Server.AudioFrame =>
                    (Server.onsetLow f, Server.onsetMid f, Server.onsetHigh f)).
    eapply (@Forall_of_map _ _ three
              (fun r => let '(lo, mi, hi) := r in
                        (0 <= lo /\ lo <= 1) /\ (0 <= mi /\ mi <= 1) /\
                        (0 <= hi /\ hi <= 1)));
      [apply beats_keeps; intros; reflexivity|].
    exact Hbands. }
  (* beat strength *)
  set (fluxBeat := fun f : Server.AudioFrame =>
                     (Server.spectralFlux f, Server.beatStrength f)).
  assert (Hfb : Forall (fun f => 0 <= Server.spectralFlux f /\
                                 Server.beatStrength f = 0) onsets).
  { eapply (@Forall_of_map _ _ fluxBeat (fun r => 0 <= fst r /\ snd r = 0));
      [apply onsets_keeps; intros; reflexivity|].
    eapply Forall_impl; [|exact Hsm].
    intros f (H0 & Hb & _). split; assumption. }
  assert (Hbeat : Forall (fun f => 0 <= Server.beatStrength f <= 1)
                         (Server.detectBeats onsets sampleRate)).
  { apply detectBeats_unit.
    - eapply Forall_impl; [|exact Hfb]. intros f (H0 & _). exact H0.
    - eapply Forall_impl; [|exact Hfb]. intros f (_ & Hb). simpl.
      rewrite Hb. split; discriminate. }
  rewrite Forall_forall in Hpitch, Honset, Hbands', Hbeat.
  split; [apply (Hpitch g Hin)|]. split; [apply (Honset g Hin)|].
  split; [apply (Hbands' g Hin) | apply (Hbeat g Hin)].
Qed.

Lemma pipeline_frame_ranges_witness :
  let g :=
    nth 0 (Server.extractAudioFrames Sample.serverKernels (repeat 0 3072) 44100)
        (Sample.frameAt 0 0) in
  80 <= Server.pitch g /\ Server.pitch g <= 8000.
Proof.
  intro g.
  apply (@pipeline_frame_ranges Sample.serverKernels (repeat 0 3072) 44100 g).
  - intros fft prev. simpl. discriminate.
  - apply nth_In. vm_compute. lia.
Defined.

(** *** Mapping the phrases to the visualization *)

Section Downsampling.

(** The indices below [n] kept by [i % step === 0]. *)
Definition keptIndices (step from n : nat) : list nat :=
  filter (fun i => (i mod step =? 0)%nat) (seq from n).

(** Keeping every [step]-th index of [0 .. n-1] keeps [ceil(n / step)]
    of them. *)
Lemma keptIndices_count (step n : nat) :
  (1 <= step)%nat ->
  let c := length (keptIndices step 0 n) in
  (n <= c * step /\ c * step < n + step)%nat.
Proof.
  intro Hs. unfold keptIndices. induction n as [|n IH].
  - simpl. lia.
  - rewrite seq_S, filter_app, length_app. simpl.
    set (c := length (filter (fun i => (i mod step =? 0)%nat) (seq 0 n))) in *.
    destruct IH as (H1 & H2).
    destruct (n mod step =? 0)%nat eqn:E; simpl.
    + apply Nat.eqb_eq in E.
      apply Nat.Lcm0.mod_divide in E. destruct E as (q & Hq).
      assert (c = q) by nia. subst c. nia.
    + apply Nat.eqb_neq in E.
      assert ((c * step)%nat <> n).
      { intro Hc. apply E. rewrite <- Hc. apply Nat.Div0.mod_mul. }
      lia.
Qed.

Lemma kept_of_indexed {A : Type} (step from : nat) (l : list A) :
  map fst (filter (fun p : nat * A => (fst p mod step =? 0)%nat)
                  (combine (seq from (length l)) l))
  = keptIndices step from (length l).
Proof.
  unfold keptIndices. revert from.
  induction l as [|x l IH]; intro from; simpl; [reflexivity|].
  destruct (from mod step =? 0)%nat; simpl; rewrite IH; reflexivity.
Qed.

Lemma everyNth_length {A : Type} (step : nat) (l : list A) :
  length (Server.everyNth step l) = length (keptIndices step 0 (length l)).
Proof.
  unfold Server.everyNth.
  rewrite length_map, <- (length_map fst), kept_of_indexed. reflexivity.
Qed.

Lemma everyNth_In {A : Type} (step : nat) (l : list A) (x : A) :
  In x (Server.everyNth step l) -> In x l.
Proof.
  unfold Server.everyNth. intro H. apply in_map_iff in H.
  destruct H as ((i, y) & E & H). simpl in E. subst y.
  apply filter_In in H. destruct H as (H & _).
  apply in_combine_r in H. exact H.
Qed.

Lemma everyNth_first {A : Type} (step : nat) (x : A) (l : list A) :
  (1 <= step)%nat -> exists rest, Server.everyNth step (x :: l) = x :: rest.
Proof.
  intro Hs. unfold Server.everyNth. simpl.
  rewrite Nat.Div0.mod_0_l. simpl. eexists. reflexivity.
Qed.

(** With [step = max(1, floor(n / cap))] fewer than [2 * cap] items are
    kept. *)
Lemma everyNth_cap {A : Type} (cap : nat) (l : list A) :
  (1 <= cap)%nat ->
  (length (Server.everyNth (Nat.max 1 (length l / cap)) l) < 2 * cap)%nat.
Proof.
  intro Hcap. rewrite everyNth_length.
  set (n := length l). set (step := Nat.max 1 (n / cap)).
  assert (Hs : (1 <= step)%nat) by (unfold step; lia).
  destruct (keptIndices_count n Hs) as (_ & H2).
  set (c := length (keptIndices step 0 n)) in *.
  assert (Hn : (n < cap * (n / cap + 1))%nat).
  { pose proof (Nat.div_mod_eq n cap) as Hd.
    pose proof (Nat.mod_upper_bound n cap ltac:(lia)) as Hm. nia. }
  destruct (Nat.max_spec 1 (n / cap)) as [(Hlt & E)|(Hle & E)];
    fold step in E; rewrite E in *; nia.
Qed.

End Downsampling.

Section ServerMapping.

Import Server.

Variable log2 : Q -> Q.
Variable sqrt : Q -> Q.

Lemma normalizeValue_unit (value min max : Q) :
  0 <= normalizeValue value min max /\ normalizeValue value min max <= 1.
Proof.
  unfold normalizeValue. destruct (Js.eqb max min).
  - split; discriminate.
  - apply Js.clamp_bounds. discriminate.
Qed.

(** The energy of a band. *)
Definition energyOf (frame : AudioFrame) (b : Band) : Q :=
  match b with
  | low => bandLow frame
  | mid => bandMid frame
  | high => bandHigh frame
  end.

Definition onsetOf (frame : AudioFrame) (b : Band) : Q :=
  match b with
  | low => onsetLow frame
  | mid => onsetMid frame
  | high => onsetHigh frame
  end.

Lemma toPoint_attributes (r : Ranges) (segment : VerseSegment)
  (frame : AudioFrame) :
  let p := toPoint log2 r segment frame in
  time p = t frame /\
  (0 <= y p /\ y p <= 1) /\ (0 <= z p /\ z p <= 1) /\
  (let '(hue, saturation, _) := color p in
   (0 <= hue /\ hue <= 1) /\ (7 # 10 <= saturation /\ saturation <= 1)) /\
  (bandOffsetZ p == - (8 # 10) \/ bandOffsetZ p == 0 \/
   bandOffsetZ p == 8 # 10).
Proof.
  intro p. unfold p, toPoint. simpl.
  pose proof (normalizeValue_unit (logPitch log2 frame) (pitchMin r)
                (pitchMax r)) as Hy.
  pose proof (normalizeValue_unit (centroid frame) (centroidMin r)
                (centroidMax r)) as Hz.
  pose proof (normalizeValue_unit (bandwidth frame) (bandwidthMin r)
                (bandwidthMax r)) as Hb.
  split; [reflexivity|]. split; [exact Hy|]. split; [exact Hz|].
  split; [split; [exact Hz | split; lra]|].
  destruct (fst (pickDominantBand frame));
    [left | right; left | right; right]; reflexivity.
Qed.

Lemma toPoint_loudness (r : Ranges) (segment : VerseSegment)
  (frame : AudioFrame) :
  0 <= amplitude frame -> amplitude frame <= amplitudeMax r ->
  let p := toPoint log2 r segment frame in
  (3 # 10 <= size p /\ size p <= 1) /\
  (let '(_, _, lightness) := color p in
   4 # 10 <= lightness /\ lightness <= 8 # 10).
Proof.
  intros H0 H1 p. unfold p, toPoint. simpl.
  set (na := if Js.ltb 0 (amplitudeMax r)
             then amplitude frame / amplitudeMax r else 0).
  assert (Hna : 0 <= na /\ na <= 1).
  { unfold na. destruct (Js.ltb 0 (amplitudeMax r)) eqn:E.
    - apply Js.ltb_lt in E. apply ratio_in_unit; assumption.
    - split; discriminate. }
  destruct Hna. repeat split; lra.
Qed.

Lemma toPoint_position (r : Ranges) (segment : VerseSegment)
  (frame : AudioFrame) :
  Segmenter.seg_start segment <= t frame ->
  t frame <= Segmenter.seg_end segment ->
  let p := toPoint log2 r segment frame in
  0 <= x p /\ x p <= 1.
Proof.
  intros H0 H1 p. unfold p, toPoint. simpl.
  destruct (Js.ltb 0 (Segmenter.seg_end segment - Segmenter.seg_start segment))
    eqn:E.
  - apply Js.ltb_lt in E. apply ratio_in_unit; lra.
  - split; discriminate.
Qed.

Lemma rangesOf_amplitude (first : AudioFrame) (rest : list AudioFrame)
  (f : AudioFrame) :
  In f (first :: rest) -> amplitude f <= amplitudeMax (rangesOf log2 first rest).
Proof.
  simpl. intros [E|H].
  - subst f. apply maxOf_ge_seed.
  - apply maxOf_ge_elem. apply in_map. exact H.
Qed.

End ServerMapping.

Lemma nth_error_indexed {A : Type} (l : list A) (from i : nat) (x : A) :
  nth_error l i = Some x ->
  nth_error (combine (seq from (length l)) l) i = Some ((from + i)%nat, x).
Proof.
  revert from i. induction l as [|y l IH]; intros from [|i] H; simpl in *;
    try discriminate.
  - injection H as ->. rewrite Nat.add_0_r. reflexivity.
  - rewrite (IH (S from) i H). f_equal. f_equal. lia.
Qed.

(** X10: [pickDominantBand] returns a band whose energy is at least that of
    each of the three bands, together with the onset of that band. *)
Theorem dominant_band_has_most_energy (frame : Server.AudioFrame) :
  let '(band, onset) := Server.pickDominantBand frame in
  (forall b, energyOf frame b <= energyOf frame band) /\
  onset = onsetOf frame band.
Proof.
  unfold Server.pickDominantBand.
  destruct (Js.leb (Server.bandLow frame) (Server.bandMid frame)) eqn:E1;
    destruct (Js.leb (Server.bandHigh frame) (Server.bandMid frame)) eqn:E2;
    destruct (Js.leb (Server.bandMid frame) (Server.bandLow frame)) eqn:E3;
    destruct (Js.leb (Server.bandHigh frame) (Server.bandLow frame)) eqn:E4;
    simpl;
    try apply Js.leb_le in E1; try apply Js.leb_gt in E1;
    try apply Js.leb_le in E2; try apply Js.leb_gt in E2;
    try apply Js.leb_le in E3; try apply Js.leb_gt in E3;
    try apply Js.leb_le in E4; try apply Js.leb_gt in E4;
    (split; [intros [| |]; simpl; lra | reflexivity]).
Qed.

(** X11: for phrases that hold at least one frame in all,
    [mapFramesToVisualization] returns one verse per phrase, in order, with
    the index as id and the start and end of the phrase; each verse has
    fewer than 800 points, at least one when the phrase holds a frame, and
    every edge of a verse joins two distinct points of that verse. *)
Theorem verses_follow_segments
  (log2 sqrt : Q -> Q) (verseSegments : list Server.VerseSegment)
  (duration : Q) :
  flat_map (@Segmenter.seg_frames Server.AudioFrame) verseSegments <> [] ->
  let verses :=
    Server.mapFramesToVisualization log2 sqrt verseSegments duration in
  length verses = length verseSegments /\
  (forall i segment verse,
      nth_error verseSegments i = Some segment ->
      nth_error verses i = Some verse ->
      Server.id verse = i /\
      Server.start verse = Segmenter.seg_start segment /\
      Server.end_ verse = Segmenter.seg_end segment /\
      (length (Server.points verse) < 800)%nat /\
      (Segmenter.seg_frames segment <> [] -> Server.points verse <> []) /\
      (forall a b, In (a, b) (Server.edges verse) ->
                   a <> b /\ (a < length (Server.points verse))%nat /\
                   (b < length (Server.points verse))%nat)).
Proof.
  intros Hne verses. unfold verses, Server.mapFramesToVisualization.
  destruct (flat_map (@Segmenter.seg_frames Server.AudioFrame) verseSegments)
    as [|first rest]; [contradiction|].
  set (r := Server.rangesOf log2 first rest).
  split.
  - rewrite length_map, length_combine, length_seq. lia.
  - intros i segment verse Hs Hv.
    pose proof (nth_error_indexed verseSegments 0 i Hs) as Hi. simpl in Hi.
    rewrite (map_nth_error _ _ _ Hi) in Hv. injection Hv as <-.
    unfold Server.toVerse.
    cbn [Server.id Server.start Server.end_ Server.points Server.edges fst snd].
    rewrite ?Nat.add_0_l.
    split; [reflexivity|]. split; [reflexivity|]. split; [reflexivity|].
    set (frames := Segmenter.seg_frames segment).
    set (sampled := Server.everyNth
                      (Nat.max 1 (length frames / Server.maxPoints)) frames).
    split; [|split].
    + rewrite length_map.
      apply (everyNth_cap (cap := 400) frames). lia.
    + intros Hf E. apply map_eq_nil in E. unfold sampled in E.
      destruct frames as [|f fs]; [contradiction|].
      destruct (@everyNth_first _
                  (Nat.max 1 (length (f :: fs) / Server.maxPoints))
                  f fs ltac:(lia)) as (more & Hm).
      rewrite Hm in E. discriminate.
    + intros a b Hab.
      destruct (1 <? length (map (Server.toPoint log2 r segment) sampled))%nat;
        [|contradiction].
      unfold Server.findKNearestNeighbors in Hab.
      destruct (findKNearestNeighbors_ok Server.x Server.y Server.z sqrt
                  (map (Server.toPoint log2 r segment) sampled) 3)
        as (edgeSet & [Hd _ _]).
      apply (Hd (a, b) Hab).
Qed.

Lemma verses_follow_segments_witness :
  let segments :=
    [Segmenter.mkSegment 0 (4 # 10)
       [Sample.frameAt 0 1; Sample.frameAt (2 # 10) 1];
     Segmenter.mkSegment (8 # 10) 1 [Sample.frameAt (8 # 10) 1]] in
  length (Server.mapFramesToVisualization Sample.log2Q Sample.sqrtQ segments 1)
  = 2%nat.
Proof.
  intro segments.
  apply (@verses_follow_segments Sample.log2Q Sample.sqrtQ segments 1).
  simpl. discriminate.
Defined.

(** X12: every point of every verse returned by [mapFramesToVisualization]
    has its height, depth and hue in [0, 1], its saturation in [0.7, 1] and
    a band offset of -0.8, 0 or 0.8; when no frame has a negative amplitude
    its size is in [0.3, 1] and its lightness in [0.4, 0.8]; when the frames
    of each phrase lie between the start and the end of the phrase its
    horizontal position is in [0, 1]. *)
Theorem point_attributes_in_range
  (log2 sqrt : Q -> Q) (verseSegments : list Server.VerseSegment)
  (duration : Q) (verse : Server.Verse) (p : Server.VisualizationPoint) :
  In verse
     (Server.mapFramesToVisualization log2 sqrt verseSegments duration) ->
  In p (Server.points verse) ->
  ((0 <= Server.y p /\ Server.y p <= 1) /\
   (0 <= Server.z p /\ Server.z p <= 1) /\
   (let '(hue, saturation, _) := Server.color p in
    (0 <= hue /\ hue <= 1) /\ (7 # 10 <= saturation /\ saturation <= 1)) /\
   (Server.bandOffsetZ p == - (8 # 10) \/ Server.bandOffsetZ p == 0 \/
    Server.bandOffsetZ p == 8 # 10)) /\
  (Forall (fun f => 0 <= Server.amplitude f)
          (flat_map (@Segmenter.seg_frames Server.AudioFrame) verseSegments) ->
   (3 # 10 <= Server.size p /\ Server.size p <= 1) /\
   (let '(_, _, lightness) := Server.color p in
    4 # 10 <= lightness /\ lightness <= 8 # 10)) /\
  (Forall (fun segment =>
             Forall (fun f => Segmenter.seg_start segment <= Server.t f /\
                              Server.t f <= Segmenter.seg_end segment)
                    (Segmenter.seg_frames segment)) verseSegments ->
   0 <= Server.x p /\ Server.x p <= 1).
Proof.
  unfold Server.mapFramesToVisualization. intros Hv Hp.
  destruct (flat_map (@Segmenter.seg_frames Server.AudioFrame) verseSegments)
    as [|first rest] eqn:Eall; [contradiction|].
  apply in_map_iff in Hv. destruct Hv as ((i, segment) & <- & Hs).
  apply in_combine_r in Hs.
  unfold Server.toVerse in Hp.
  cbn [Server.points fst snd] in Hp.
  apply in_map_iff in Hp. destruct Hp as (f & <- & Hf).
  apply everyNth_In in Hf.
  assert (Hin : In f (first :: rest)).
  { rewrite <- Eall. apply in_flat_map. exists segment. split; assumption. }
  destruct (toPoint_attributes log2 (Server.rangesOf log2 first rest) segment f)
    as (_ & Hy & Hz & Hc & Hb).
  split; [|split].
  - split; [exact Hy | split; [exact Hz | split; [exact Hc | exact Hb]]].
  - intro Hamp. rewrite Forall_forall in Hamp.
    apply toPoint_loudness.
    + apply Hamp. exact Hin.
    + apply rangesOf_amplitude. exact Hin.
  - intro Hpos. rewrite Forall_forall in Hpos.
    specialize (Hpos segment Hs). rewrite Forall_forall in Hpos.
    destruct (Hpos f Hf). apply toPoint_position; assumption.
Qed.

Lemma point_attributes_in_range_witness :
  let segments :=
    [Segmenter.mkSegment 0 (4 # 10)
       [Sample.frameAt 0 1; Sample.frameAt (2 # 10) 2];
     Segmenter.mkSegment (8 # 10) 1 [Sample.frameAt (8 # 10) 1]] in
  let verses :=
    Server.mapFramesToVisualization Sample.log2Q Sample.sqrtQ segments 1 in
  let verse := nth 0 verses (Server.toVerse Sample.log2Q Sample.sqrtQ
                               (Server.mkRanges 0 0 0 0 0 0 0) 0
                               (Segmenter.mkSegment 0 0 [])) in
  let p := nth 1 (Server.points verse) (Sample.pointAt 0) in
  (0 <= Server.y p /\ Server.y p <= 1) /\
  (3 # 10 <= Server.size p /\ Server.size p <= 1) /\
  (0 <= Server.x p /\ Server.x p <= 1).
Proof.
  intros segments verses verse p.
  destruct (@point_attributes_in_range Sample.log2Q Sample.sqrtQ segments 1
              verse p) as ((Hy & _) & Hsize & Hx).
  - apply nth_In. vm_compute. lia.
  - apply nth_In. vm_compute. lia.
  - split; [exact Hy|]. split.
    + apply Hsize. repeat constructor; vm_compute; discriminate.
    + apply Hx. repeat constructor; vm_compute; discriminate.
Defined.

(** ** Further properties of the client analysis *)

Section YinWindow.

Import AudioFeatures.

Variable samples : list Q.
Variable start : nat.
Variable frameSize : nat.
Variable sampleRate : Q.

Local Abbreviation halfW' := (halfW frameSize).
Local Abbreviation cmndfAt' := (cmndfAt samples start frameSize).

Lemma lags_in_window (tau : nat) :
  In tau (lags frameSize sampleRate) ->
  (Z.max 2 (minPeriod sampleRate) <= Z.of_nat tau)%Z /\ (tau < halfW')%nat.
Proof.
  unfold lags. intro H. apply in_map_iff in H.
  destruct H as (n & E & Hn). subst tau. apply in_seq in Hn.
  pose proof (Z.le_max_l 2 (minPeriod sampleRate)).
  pose proof (Z.le_min_l (Z.of_nat halfW') (maxPeriod sampleRate)).
  lia.
Qed.

(** The walk to the local minimum stays inside the buffer and never
    climbs. *)
Lemma descend_in_window (steps tau : nat) :
  (tau < halfW')%nat ->
  let tau' := descend samples start frameSize steps tau in
  (tau' < halfW')%nat /\ cmndfAt' tau' <= cmndfAt' tau.
Proof.
  revert tau. induction steps as [|steps IH]; intros tau Htau; simpl.
  - split; [exact Htau | apply Qle_refl].
  - destruct (tau + 1 <? halfW')%nat eqn:E1; simpl;
      [|split; [exact Htau | apply Qle_refl]].
    destruct (Js.ltb (cmndfAt' (tau + 1)) (cmndfAt' tau)) eqn:E2;
      [|split; [exact Htau | apply Qle_refl]].
    apply Nat.ltb_lt in E1. apply Js.ltb_lt in E2.
    destruct (IH (tau + 1)%nat E1) as (H1 & H2).
    split; [exact H1|]. eapply Qle_trans; [exact H2|]. apply Qlt_le_weak.
    exact E2.
Qed.

Lemma globalMinimum_in_window :
  let best := globalMinimum samples start frameSize sampleRate in
  best = ((-1)%Z, 1) \/
  ((Z.max 2 (minPeriod sampleRate) <= fst best)%Z /\
   (fst best < Z.of_nat halfW')%Z /\
   snd best = cmndfAt' (Z.to_nat (fst best)) /\ snd best < 1).
Proof.
  unfold globalMinimum.
  apply fold_left_invariant
    with (P := fun best : Z * Q =>
                 (best = ((-1)%Z, 1) \/
                  ((Z.max 2 (minPeriod sampleRate) <= fst best)%Z /\
                   (fst best < Z.of_nat halfW')%Z /\
                   snd best = cmndfAt' (Z.to_nat (fst best)) /\
                   snd best < 1))).
  - left. reflexivity.
  - intros best tau Hin H.
    destruct (Js.ltb (cmndfAt' tau) (snd best)) eqn:E; [|exact H].
    apply Js.ltb_lt in E. apply lags_in_window in Hin.
    right. simpl. rewrite Nat2Z.id.
    split; [lia|]. split; [lia|]. split; [reflexivity|].
    destruct H as [->|(_ & _ & _ & H)]; [exact E|].
    eapply Qlt_trans; eassumption.
Qed.

Lemma bestLag_in_window :
  let best := bestLag samples start frameSize sampleRate in
  best = ((-1)%Z, 1) \/
  ((Z.max 2 (minPeriod sampleRate) <= fst best)%Z /\
   (fst best < Z.of_nat halfW')%Z /\
   snd best = cmndfAt' (Z.to_nat (fst best)) /\ snd best < 1).
Proof.
  unfold bestLag, firstCrossing.
  destruct (filter _ (lags frameSize sampleRate)) as [|tau rest] eqn:E.
  - apply globalMinimum_in_window.
  - right.
    assert (Hin : In tau (tau :: rest)) by (left; reflexivity).
    rewrite <- E in Hin. apply filter_In in Hin. destruct Hin as (Hin & Hlt).
    apply Js.ltb_lt in Hlt. apply lags_in_window in Hin.
    destruct Hin as (Hlo & Hhi).
    destruct (descend_in_window halfW' Hhi) as (H1 & H2).
    pose proof (descend_monotone samples start frameSize halfW' tau).
    cbn [fst snd]. rewrite Nat2Z.id.
    split; [lia|]. split; [lia|]. split; [reflexivity|].
    eapply Qle_lt_trans; [exact H2|]. eapply Qlt_trans; [exact Hlt|].
    reflexivity.
Qed.

Lemma refineTau_near (bestTau : Z) :
  let refined := refineTau samples start frameSize bestTau in
  inject_Z bestTau - 1 < refined /\ refined < inject_Z bestTau + 1.
Proof.
  unfold refineTau.
  destruct ((0 <? bestTau)%Z && (bestTau <? Z.of_nat halfW' - 1)%Z);
    [|split; lra].
  cbv zeta. destruct (Js.eqb _ 0); [split; lra|].
  match goal with
  | |- context [Js.ltb (Js.abs ?s) 1] =>
      set (shift := s); destruct (Js.ltb (Js.abs shift) 1) eqn:E
  end; [|split; lra].
  apply Js.ltb_lt in E. unfold Js.abs in E.
  apply Qabs_Qlt_condition in E. destruct E. split; lra.
Qed.

(** On a window of equal samples every difference vanishes. *)
Lemma difference_of_constant (c : Q) (tau : nat) :
  (forall i, (start <= i < start + frameSize)%nat -> nth i samples 0 == c) ->
  (tau < halfW')%nat ->
  difference samples start frameSize tau == 0.
Proof.
  intros Hc Htau. unfold difference.
  apply fold_left_invariant with (P := fun s => s == 0).
  - reflexivity.
  - intros s j Hj Hs. apply in_seq in Hj. cbv zeta. unfold sample.
    assert (Hw : (2 * halfW' <= frameSize)%nat).
    { unfold halfW. pose proof (Nat.div_mod_eq frameSize 2). lia. }
    rewrite (Hc (start + j)%nat) by lia.
    rewrite (Hc (start + j + tau)%nat) by lia.
    rewrite Hs. ring.
Qed.

Lemma cmndfLoop_of_zeros (diffs : list Q) (tau : nat) (runningSum : Q) :
  Forall (fun d => d == 0) diffs -> runningSum == 0 ->
  Forall (fun v => v = 1) (cmndfLoop diffs tau runningSum).
Proof.
  intro H. revert tau runningSum.
  induction H as [|d rest Hd _ IH]; intros tau runningSum Hr; simpl.
  - constructor.
  - assert (Hs : runningSum + d == 0) by (rewrite Hd, Hr; reflexivity).
    constructor.
    + assert (E : Js.ltb 0 (runningSum + d) = false)
        by (apply Js.ltb_ge; rewrite Hs; apply Qle_refl).
      rewrite E. reflexivity.
    + apply IH. exact Hs.
Qed.

Lemma cmndf_of_constant (c : Q) (tau : nat) :
  (forall i, (start <= i < start + frameSize)%nat -> nth i samples 0 == c) ->
  (tau < halfW')%nat -> cmndfAt' tau = 1.
Proof.
  intros Hc Htau. unfold cmndfAt, cmndf.
  assert (Hd : Forall (fun d => d == 0) (diff samples start frameSize)).
  { unfold diff. apply Forall_forall. intros d Hd.
    apply in_map_iff in Hd. destruct Hd as (t & <- & Ht).
    apply in_seq in Ht. apply (@difference_of_constant c); [exact Hc | lia]. }
  assert (Hl : length (diff samples start frameSize) = halfW')
    by (unfold diff; rewrite length_map, length_seq; reflexivity).
  destruct (diff samples start frameSize) as [|d0 rest]; simpl in Hl.
  - lia.
  - inversion Hd as [|? ? _ Hrest]; subst.
    assert (Hall : Forall (fun v => v = 1) (1 :: cmndfLoop rest 1 0)).
    { constructor; [reflexivity|].
      apply cmndfLoop_of_zeros; [exact Hrest | reflexivity]. }
    rewrite Forall_forall in Hall. apply Hall. apply nth_In.
    simpl.
    assert (Hlen : length (cmndfLoop rest 1 0) = length rest).
    { clear. generalize 1%nat, 0. induction rest as [|x xs IH]; intros n q;
        simpl; [reflexivity | rewrite IH; reflexivity]. }
    lia.
Qed.

End YinWindow.

(** X13: a frame of equal samples (silence in particular) has no pitch:
    every difference is 0, the normalised difference is 1 at every lag, no
    lag is chosen, and [yinPitchDetect] returns the null pitch with
    confidence 0. *)
Theorem yin_constant_frame_has_no_pitch
  (samples : list Q) (start frameSize : nat) (sampleRate c : Q) :
  (forall i, (start <= i < start + frameSize)%nat -> nth i samples 0 == c) ->
  AudioFeatures.bestLag samples start frameSize sampleRate = ((-1)%Z, 1) /\
  AudioFeatures.yinPitchDetect samples start frameSize sampleRate
  = AudioFeatures.noPitch.
Proof.
  intro Hc.
  assert (Hone : forall tau,
             In tau (AudioFeatures.lags frameSize sampleRate) ->
             AudioFeatures.cmndfAt samples start frameSize tau = 1).
  { intros tau Hin. apply lags_in_window in Hin.
    apply (@cmndf_of_constant samples start frameSize c); tauto. }
  assert (Hbest : AudioFeatures.bestLag samples start frameSize sampleRate
                  = ((-1)%Z, 1)).
  { unfold AudioFeatures.bestLag, AudioFeatures.firstCrossing.
    assert (Hf : filter
                   (fun tau =>
                      Js.ltb (AudioFeatures.cmndfAt samples start frameSize tau)
                             AudioFeatures.yinThreshold)
                   (AudioFeatures.lags frameSize sampleRate) = []).
    { induction (AudioFeatures.lags frameSize sampleRate) as [|tau l IH];
        [reflexivity|].
      simpl. rewrite (Hone tau) by (left; reflexivity).
      replace (Js.ltb 1 AudioFeatures.yinThreshold) with false
        by (vm_compute; reflexivity).
      apply IH. intros t Ht. apply Hone. right. exact Ht. }
    rewrite Hf. unfold AudioFeatures.globalMinimum.
    apply fold_left_invariant with (P := fun best => best = ((-1)%Z, 1)).
    - reflexivity.
    - intros best tau Hin ->. rewrite (Hone tau Hin). reflexivity. }
  split; [exact Hbest|].
  unfold AudioFeatures.yinPitchDetect. rewrite Hbest.
  destruct (negb _); reflexivity.
Qed.

Lemma yin_constant_frame_has_no_pitch_witness :
  AudioFeatures.yinPitchDetect [1; 1; 1; 1; 1; 1; 1; 1] 0 8 400
  = AudioFeatures.noPitch.
Proof.
  apply (@yin_constant_frame_has_no_pitch [1; 1; 1; 1; 1; 1; 1; 1] 0%nat 8%nat
           400 1).
  intros i Hi.
  do 8 (destruct i as [|i]; [reflexivity|]). lia.
Defined.

(** X14: the lag chosen by the two searches of [yinPitchDetect] is the
    initial -1 (with value 1) or lies in the scanned window
    [max(2, minPeriod) <= tau < halfW], with its normalised difference,
    which is below 1; and the parabolic interpolation moves a lag by less
    than one sample. *)
Theorem yin_lag_in_search_window
  (samples : list Q) (start frameSize : nat) (sampleRate : Q) :
  let best := AudioFeatures.bestLag samples start frameSize sampleRate in
  let refined := AudioFeatures.refineTau samples start frameSize (fst best) in
  (best = ((-1)%Z, 1) \/
   ((Z.max 2 (AudioFeatures.minPeriod sampleRate) <= fst best)%Z /\
    (fst best < Z.of_nat (AudioFeatures.halfW frameSize))%Z /\
    snd best
    = AudioFeatures.cmndfAt samples start frameSize (Z.to_nat (fst best)) /\
    snd best < 1)) /\
  (inject_Z (fst best) - 1 < refined /\ refined < inject_Z (fst best) + 1).
Proof.
  intros best refined. split.
  - apply bestLag_in_window.
  - apply refineTau_near.
Qed.

Section ClientFrames.

Import AudioFeatures.

Variable K : Kernels.
Variable log2 : Q -> Q.

(** What [yinPitchDetect] can return. *)
Definition pitchOk (f0 : option Q) (conf : Q) : Prop :=
  match f0 with
  | None => conf = 0
  | Some f => (50 <= f /\ f <= 2000) /\ (3 # 10 <= conf /\ conf <= 1)
  end.

(** What [computeChroma] can return. *)
Definition chromaOk (chroma : list Q) : Prop :=
  length chroma = 12%nat /\ Forall (fun c => 0 <= c) chroma /\
  (sumQ chroma == 1 \/ Forall (fun c => c == 0) chroma).

Lemma yinPitchDetect_pitchOk (samples : list Q) (start frameSize : nat)
  (sampleRate : Q) :
  let p := yinPitchDetect samples start frameSize sampleRate in
  pitchOk (f0 p) (confidence p).
Proof.
  unfold yinPitchDetect.
  destruct (negb _); [reflexivity|].
  destruct (_ <? 2)%Z; [reflexivity|].
  set (e := estimate samples start frameSize sampleRate).
  destruct (Js.ltb (fst e) 50) eqn:E1; [reflexivity|].
  destruct (Js.ltb 2000 (fst e)) eqn:E2; [reflexivity|].
  destruct (Js.ltb (snd e) (3 # 10)) eqn:E3; [reflexivity|].
  apply Js.ltb_ge in E1, E2, E3. simpl.
  split; [split; assumption|]. split.
  - unfold Js.max, Js.min.
    apply Qle_trans with (Qmin 1 (snd e)); [|apply Q.le_max_r].
    apply Q.min_glb; [discriminate | exact E3].
  - apply Js.clamp_bounds. discriminate.
Qed.

Lemma computeChroma_chromaOk (magnitude : list Q) (fftSize : nat)
  (sampleRate : Q) :
  chromaOk (computeChroma log2 magnitude fftSize sampleRate).
Proof.
  unfold computeChroma, chromaOk.
  destruct (accumulateChroma_accumulator log2 magnitude fftSize sampleRate)
    as (Hlen & Hnn).
  set (acc := accumulateChroma log2 magnitude fftSize sampleRate) in *.
  destruct (Js.ltb 0 (sumQ acc)) eqn:E.
  - apply Js.ltb_lt in E. split; [rewrite length_map; exact Hlen|]. split.
    + apply Forall_forall. intros c Hc. apply in_map_iff in Hc.
      destruct Hc as (a & <- & Ha).
      unfold nonNegative in Hnn. rewrite Forall_forall in Hnn.
      specialize (Hnn a Ha). apply Qle_shift_div_l; [exact E|]. lra.
    + left. rewrite sumQ_scaled. field. lra.
  - apply Js.ltb_ge in E. split; [exact Hlen|]. split; [exact Hnn|].
    right. apply sumQ_zero_all_zero; [exact Hnn|].
    pose proof (sumQ_nonneg Hnn). lra.
Qed.

Definition frameOk (f : FrameFeatures) : Prop :=
  chromaOk (chroma f) /\ pitchOk (ff_f0 f) (f0Conf f).

End ClientFrames.

(** X15: every frame returned by [extractFeatures] carries a chroma vector
    of twelve non-negative entries that sums to 1 or is all zero, and a
    pitch that is either null with confidence exactly 0 or within
    [50, 2000] Hz with a confidence in [0.3, 1]; this holds whatever the
    spectral kernels return. *)
Theorem client_frames_well_formed
  (K : AudioFeatures.Kernels) (log2 : Q -> Q)
  (audioBuffer : AudioFeatures.AudioBuffer)
  (cfg : AudioFeatures.AnalysisConfig) :
  Forall
    (fun f =>
       (length (AudioFeatures.chroma f) = 12%nat /\
        Forall (fun c => 0 <= c) (AudioFeatures.chroma f) /\
        (AudioFeatures.sumQ (AudioFeatures.chroma f) == 1 \/
         Forall (fun c => c == 0) (AudioFeatures.chroma f))) /\
       match AudioFeatures.ff_f0 f with
       | None => AudioFeatures.f0Conf f = 0
       | Some f0 =>
           (50 <= f0 /\ f0 <= 2000) /\
           (3 # 10 <= AudioFeatures.f0Conf f /\ AudioFeatures.f0Conf f <= 1)
       end)
    (AudioFeatures.extractFeatures K log2 audioBuffer cfg).
Proof.
  unfold AudioFeatures.extractFeatures.
  apply fold_left_invariant
    with (P := fun st : AudioFeatures.LoopState => Forall frameOk (fst st)).
  - constructor.
  - intros st i _ H. unfold AudioFeatures.frameStep. cbn [fst].
    apply Forall_app. split; [exact H|].
    constructor; [|constructor].
    split; cbn [AudioFeatures.chroma AudioFeatures.ff_f0 AudioFeatures.f0Conf].
    + apply computeChroma_chromaOk.
    + apply yinPitchDetect_pitchOk.
Qed.

(** X16: a buffer with a single channel is mixed to that channel: the mix
    has one sample per sample of the buffer and each sample,
    [0 + channelData[i] / 1], equals the channel's sample. *)
Theorem mono_mix_of_single_channel
  (audioBuffer : AudioFeatures.AudioBuffer) (channelData : list Q) :
  AudioFeatures.ab_channels audioBuffer = [channelData] ->
  (AudioFeatures.ab_length audioBuffer <= length channelData)%nat ->
  length (AudioFeatures.mixToMono audioBuffer)
  = AudioFeatures.ab_length audioBuffer /\
  forall i, (i < AudioFeatures.ab_length audioBuffer)%nat ->
            nth i (AudioFeatures.mixToMono audioBuffer) 0
            == nth i channelData 0.
Proof.
  intros Hch Hlen. split; [apply mixToMono_length|].
  intros i Hi. unfold AudioFeatures.mixToMono. rewrite Hch.
  set (mix := fun i0 : nat =>
                fold_left
                  (fun acc c => acc + nth i0 c 0
                                      / inject_Z (Z.of_nat (length [channelData])))
                  [channelData] 0).
  rewrite nth_indep with (d' := mix 0%nat)
    by (rewrite length_map, length_seq; exact Hi).
  rewrite map_nth, seq_nth by exact Hi.
  unfold mix. simpl. field.
Qed.

Lemma mono_mix_of_single_channel_witness :
  let audioBuffer := AudioFeatures.mkBuffer 44100 3 [[1 # 2; -1; 1 # 4]] in
  nth 1 (AudioFeatures.mixToMono audioBuffer) 0 == -1.
Proof.
  intro audioBuffer.
  destruct (@mono_mix_of_single_channel audioBuffer [1 # 2; -1; 1 # 4])
    as (_ & H).
  - reflexivity.
  - simpl. lia.
  - apply (H 1%nat). simpl. lia.
Defined.

(** ** Further properties of the client PCA *)

Section PcaFacts.

Import Pca.

Variable sqrt : Q -> Q.

Lemma seedVector_length (D : nat) : length (seedVector D) = D.
Proof. unfold seedVector, dims. rewrite length_map, length_seq. reflexivity. Qed.

Lemma matVec_length (matrix : list (list Q)) (v : list Q) :
  length (matVec matrix v) = length matrix.
Proof. unfold matVec. apply length_map. Qed.

(** The loop returns the eigenvalue it was given or a norm that passed the
    test, and a vector as long as the one it was given. *)
Lemma powerLoop_result (numIter : nat) (matrix : list (list Q))
  (eigenvalue : Q) (v : list Q) :
  length v = length matrix ->
  (eigenvalue = 0 \/ 1 # 10000000000 <= eigenvalue) ->
  let r := powerLoop sqrt numIter matrix eigenvalue v in
  (fst r = 0 \/ 1 # 10000000000 <= fst r) /\ length (snd r) = length matrix.
Proof.
  revert eigenvalue v.
  induction numIter as [|n IH]; intros eigenvalue v Hv He; simpl.
  - split; assumption.
  - destruct (Js.ltb _ (1 # 10000000000)) eqn:E.
    + split; assumption.
    + apply Js.ltb_ge in E. apply IH.
      * rewrite length_map. apply matVec_length.
      * right. exact E.
Qed.

Lemma powerIteration_result (matrix : list (list Q)) :
  let r := powerIteration sqrt matrix in
  (fst r = 0 \/ 1 # 10000000000 <= fst r) /\ length (snd r) = length matrix.
Proof.
  unfold powerIteration. apply powerLoop_result.
  - destruct (Js.ltb 0 _); [rewrite length_map|]; apply seedVector_length.
  - left. reflexivity.
Qed.

Lemma deflateMatrix_length (matrix : list (list Q)) (eigenvalue : Q)
  (eigenvector : list Q) :
  length (deflateMatrix matrix eigenvalue eigenvector) = length matrix.
Proof.
  unfold deflateMatrix, dims. rewrite length_map, length_seq. reflexivity.
Qed.

Lemma extractComponents_result (k : nat) (currentCov : list (list Q)) :
  let comps := extractComponents sqrt k currentCov in
  length comps = k /\
  Forall (fun c => (fst c = 0 \/ 1 # 10000000000 <= fst c) /\
                   length (snd c) = length currentCov) comps.
Proof.
  revert currentCov. induction k as [|k IH]; intro currentCov; simpl.
  - split; [reflexivity | constructor].
  - destruct (IH (deflateMatrix currentCov
                    (fst (powerIteration sqrt currentCov))
                    (snd (powerIteration sqrt currentCov)))) as (Hl & Hall).
    split; [rewrite Hl; reflexivity|].
    constructor; [apply powerIteration_result|].
    rewrite deflateMatrix_length in Hall. exact Hall.
Qed.

End PcaFacts.

(** X17: every standard deviation returned by [computeStd] is at least
    1e-10, whatever [Math.sqrt] returns, so [standardize] never divides by
    zero; [computeMean] and [computeStd] return one entry per column, and
    [standardize] returns one row per row of the matrix, each as wide as
    the matrix. *)
Theorem standardize_never_divides_by_zero
  (sqrt : Q -> Q) (data : list (list Q)) :
  let mean := Pca.computeMean data in
  let std := Pca.computeStd sqrt data mean in
  Forall (fun s => 1 # 10000000000 <= s) std /\
  (length mean = Pca.width data /\ length std = Pca.width data) /\
  length (Pca.standardize data mean std) = length data /\
  Forall (fun row => length row = Pca.width data)
         (Pca.standardize data mean std).
Proof.
  intros mean std. split; [|split; [|split]].
  - unfold std, Pca.computeStd. apply Forall_forall. intros s Hs.
    apply in_map_iff in Hs. destruct Hs as (d & <- & _). cbv zeta.
    match goal with
    | |- context [Js.ltb ?v _] => destruct (Js.ltb v (1 # 10000000000)) eqn:E
    end.
    + discriminate.
    + apply Js.ltb_ge in E. exact E.
  - unfold mean, std, Pca.computeMean, Pca.computeStd, Pca.dims.
    rewrite !length_map, length_seq. split; reflexivity.
  - unfold Pca.standardize. apply length_map.
  - unfold Pca.standardize. apply Forall_forall. intros row Hrow.
    apply in_map_iff in Hrow. destruct Hrow as (r & <- & _).
    unfold Pca.dims. rewrite length_map, length_seq. reflexivity.
Qed.

(** X18: for a non-empty frame list [computePCA] returns three eigenvalues,
    each 0 or at least 1e-10 (never negative), three components and a mean
    of the width of the feature matrix, and positions of three coordinates
    each. *)
Theorem pca_result_shape
  (sqrt log2 : Q -> Q) (frames : list AudioFeatures.FrameFeatures) :
  frames <> [] ->
  let result := Pca.computePCA sqrt log2 frames in
  let D := Pca.width (map (Pca.buildFeatureVector log2) frames) in
  (length (Pca.eigenvalues result) = 3%nat /\
   Forall (fun ev => ev = 0 \/ 1 # 10000000000 <= ev)
          (Pca.eigenvalues result)) /\
  (length (Pca.components result) = 3%nat /\
   Forall (fun c => length c = D) (Pca.components result)) /\
  length (Pca.mean result) = D /\
  Forall (fun pos => length pos = 3%nat) (Pca.positions result).
Proof.
  intros Hne result D.
  assert (Hr : result
               = Pca.mkPCA
                   (Pca.rescalePositions
                      (Pca.projectedPositions sqrt log2 frames))
                   (map fst (Pca.topComponents sqrt log2 frames))
                   (Pca.computeMean (map (Pca.buildFeatureVector log2) frames))
                   (map snd (Pca.topComponents sqrt log2 frames))).
  { unfold result, Pca.computePCA. destruct frames; [contradiction|].
    reflexivity. }
  rewrite Hr. cbn [Pca.eigenvalues Pca.components Pca.mean Pca.positions].
  unfold Pca.topComponents.
  set (cov := Pca.computeCovarianceMatrix (Pca.standardized sqrt log2 frames)).
  destruct (extractComponents_result sqrt 3 cov) as (Hl & Hall).
  assert (Hcov : length cov = D).
  { unfold cov, Pca.computeCovarianceMatrix, Pca.dims.
    rewrite length_map, length_seq.
    unfold Pca.standardized, Pca.standardize. fold D.
    destruct frames as [|f fs]; [contradiction|].
    cbn [map Pca.width]. unfold Pca.dims.
    rewrite length_map, length_seq. reflexivity. }
  rewrite Forall_forall in Hall.
  split; [|split; [|split]].
  - split; [rewrite length_map; exact Hl|].
    apply Forall_forall. intros ev Hev. apply in_map_iff in Hev.
    destruct Hev as (c & <- & Hc). apply (Hall c Hc).
  - split; [rewrite length_map; exact Hl|].
    apply Forall_forall. intros v Hv. apply in_map_iff in Hv.
    destruct Hv as (c & <- & Hc). rewrite <- Hcov. apply (Hall c Hc).
  - unfold Pca.computeMean, Pca.dims. rewrite length_map, length_seq.
    reflexivity.
  - unfold Pca.rescalePositions. apply Forall_forall. intros pos Hpos.
    apply in_map_iff in Hpos. destruct Hpos as (p & <- & _).
    rewrite length_map. reflexivity.
Qed.

Lemma pca_result_shape_witness :
  let frames :=
    [AudioFeatures.mkFeatures 0 [1; 2] (repeat 0 12) None 0 0 0 0 0 0;
     AudioFeatures.mkFeatures (1 # 2) [2; 1] (repeat 0 12) None 0 1 0 0 0 0] in
  length (Pca.eigenvalues (Pca.computePCA Sample.sqrtQ Sample.log2Q frames))
  = 3%nat /\
  length (Pca.mean (Pca.computePCA Sample.sqrtQ Sample.log2Q frames)) = 19%nat.
Proof.
  intro frames.
  destruct (@pca_result_shape Sample.sqrtQ Sample.log2Q frames)
    as ((H & _) & _ & Hm & _).
  - discriminate.
  - split; [exact H | exact Hm].
Defined.

(** ** Further properties of the server PCA ([applyPCA]) *)

Section ServerPcaFacts.

Import ServerPca.

(** A frame without its [pcaCoordinates]. *)
Definition butCoordinates (f : AudioFrame)
  : Q * list Q * option Q * option Q :=
  (t f, mfccs f, frequency f, amplitude f).

Lemma fallback_butCoordinates (frames : list AudioFrame) :
  map butCoordinates (fallbackPcaCoordinates frames)
  = map butCoordinates frames.
Proof.
  unfold fallbackPcaCoordinates. rewrite map_map. apply map_ext.
  intro f. reflexivity.
Qed.

Lemma fallback_has_coordinates (frames : list AudioFrame) :
  Forall (fun f => pcaCoordinates f <> None) (fallbackPcaCoordinates frames).
Proof.
  unfold fallbackPcaCoordinates. apply Forall_forall. intros f Hf.
  apply in_map_iff in Hf. destruct Hf as (g & <- & _). discriminate.
Qed.

Lemma scaled_butCoordinates (scale : Q) (frames : list AudioFrame)
  (coords : list Coordinates) :
  length coords = length frames ->
  map butCoordinates
      (map (fun fc : AudioFrame * Coordinates =>
              setCoordinates (fst fc)
                (mkCoordinates (x (snd fc) * scale) (y (snd fc) * scale)
                               (z (snd fc) * scale)))
           (combine frames coords))
  = map butCoordinates frames.
Proof.
  revert coords. induction frames as [|f fs IH]; intros [|c cs] H;
    simpl in *; try discriminate; [reflexivity|].
  f_equal. apply IH. lia.
Qed.

Lemma projectAll_butCoordinates (frames : list AudioFrame) (means : list Q)
  (evd : Decomposition) (projected : list AudioFrame) :
  projectAll frames means evd = Some projected ->
  map butCoordinates projected = map butCoordinates frames /\
  Forall (fun f => pcaCoordinates f <> None) projected.
Proof.
  unfold projectAll.
  destruct (sortDescending (realEigenvalues evd)) as [|e0 [|e1 [|e2 rest]]];
    try discriminate.
  intro H. injection H as <-. split.
  - apply scaled_butCoordinates. apply length_map.
  - apply Forall_forall. intros f Hf. apply in_map_iff in Hf.
    destruct Hf as (g & <- & _). discriminate.
Qed.










Lemma maxAbsOf_nonneg (coords : list Coordinates) : 0 <= maxAbsOf coords.
Proof.
  unfold maxAbsOf. apply fold_left_invariant.
  - apply Qle_refl.
  - intros s c _ Hs. unfold Js.max.
    eapply Qle_trans; [|apply Q.le_max_l].
    eapply Qle_trans; [|apply Q.le_max_l].
    eapply Qle_trans; [exact Hs | apply Q.le_max_l].
Qed.

Lemma applyPCA_preserves
  (eigenvalueDecomposition : Matrix -> option Decomposition)
  (frames : list AudioFrame) :
  map butCoordinates (applyPCA eigenvalueDecomposition frames)
  = map butCoordinates frames /\
  (frames <> [] ->
   Forall (fun f => pcaCoordinates f <> None)
          (applyPCA eigenvalueDecomposition frames)).
Proof.
  unfold applyPCA.
  destruct frames as [|f0 [|f1 rest]].
  - split; [reflexivity | intro H; contradiction].
  - split; [apply fallback_butCoordinates|].
    intros _. apply fallback_has_coordinates.
  - set (frames := f0 :: f1 :: rest).
    destruct (sampleCovariance frames) as (covariance, means).
    destruct (eigenvalueDecomposition covariance) as [evd|];
      [|split; [apply fallback_butCoordinates|
                intros _; apply fallback_has_coordinates]].
    destruct (_ || _);
      [split; [apply fallback_butCoordinates|
               intros _; apply fallback_has_coordinates]|].
    destruct (projectAll frames means evd) as [projected|] eqn:E;
      [|split; [apply fallback_butCoordinates|
                intros _; apply fallback_has_coordinates]].
    destruct (projectAll_butCoordinates _ _ _ E) as (H1 & H2).
    split; [exact H1 | intros _; exact H2].
Qed.

Lemma insertDescending_length (e : Q * nat) (sorted : list (Q * nat)) :
  length (insertDescending e sorted) = S (length sorted).
Proof.
  induction sorted as [|e' rest IH]; simpl; [reflexivity|].
  destruct (Js.leb (fst e') (fst e)); simpl; [reflexivity|].
  rewrite IH. reflexivity.
Qed.

Lemma sortDescending_length (eigenvalues : list Q) :
  length (sortDescending eigenvalues) = length eigenvalues.
Proof.
  unfold sortDescending.
  assert (H : forall l : list (Q * nat),
             length (fold_right insertDescending [] l) = length l).
  { induction l as [|e l IH]; simpl; [reflexivity|].
    rewrite insertDescending_length, IH. reflexivity. }
  rewrite H, length_combine, length_seq. lia.
Qed.

End ServerPcaFacts.

(** X19: on every path (empty input, single frame, failed or rejected
    decomposition, projection) [applyPCA] returns the frames in order with
    their time, MFCCs, frequency and amplitude unchanged, and for a
    non-empty input every returned frame carries coordinates. *)
Theorem applyPCA_keeps_frames
  (eigenvalueDecomposition : ServerPca.Matrix -> option ServerPca.Decomposition)
  (frames : list ServerPca.AudioFrame) :
  let out := ServerPca.applyPCA eigenvalueDecomposition frames in
  map butCoordinates out = map butCoordinates frames /\
  length out = length frames /\
  (frames <> [] ->
   Forall (fun f => ServerPca.pcaCoordinates f <> None) out).
Proof.
  intro out.
  pose proof (applyPCA_preserves eigenvalueDecomposition frames) as H.
  fold out in H.
  destruct H as (H1 & H2). split; [exact H1|]. split; [|exact H2].
  rewrite <- (length_map butCoordinates out), H1. apply length_map.
Qed.

Lemma applyPCA_keeps_frames_witness :
  let frames :=
    [ServerPca.mkFrame 0 [1; 2; 3] None (Some 440) (Some 1);
     ServerPca.mkFrame (1 # 2) [3; 2; 1] None (Some 880) (Some 0)] in
  Forall (fun f => ServerPca.pcaCoordinates f <> None)
         (ServerPca.applyPCA (fun _ => None) frames).
Proof.
  intro frames.
  apply (@applyPCA_keeps_frames (fun _ => None) frames). discriminate.
Defined.


(** X21: when the decomposition yields fewer than three eigenvalues,
    whatever its eigenvector matrix, [applyPCA] returns the fallback
    coordinates: either the shape test rejects the matrix or reading the
    third sorted entry fails and the failure is caught. *)
Theorem applyPCA_few_eigenvalues_fall_back
  (eigenvalueDecomposition : ServerPca.Matrix -> option ServerPca.Decomposition)
  (frames : list ServerPca.AudioFrame) (evd : ServerPca.Decomposition) :
  (2 <= length frames)%nat ->
  eigenvalueDecomposition (fst (ServerPca.sampleCovariance frames)) = Some evd ->
  (length (ServerPca.realEigenvalues evd) < 3)%nat ->
  ServerPca.applyPCA eigenvalueDecomposition frames
  = ServerPca.fallbackPcaCoordinates frames.
Proof.
  intros Hlen Hevd Hev.
  unfold ServerPca.applyPCA.
  destruct frames as [|f0 [|f1 rest]]; simpl in Hlen; try lia.
  destruct (ServerPca.sampleCovariance (f0 :: f1 :: rest))
    as (covariance, means).
  cbn [fst] in Hevd. rewrite Hevd.
  destruct (_ || _); [reflexivity|].
  unfold ServerPca.projectAll.
  pose proof (sortDescending_length (ServerPca.realEigenvalues evd)) as Hs.
  destruct (ServerPca.sortDescending (ServerPca.realEigenvalues evd))
    as [|e0 [|e1 [|e2 more]]]; simpl in Hs; try lia; reflexivity.
Qed.


Lemma applyPCA_few_eigenvalues_fall_back_witness :
  let evd := ServerPca.mkDecomposition (repeat (repeat 1 40) 40) [2; 1] in
  let frames :=
    [ServerPca.mkFrame 0 [1; 2; 3] None (Some 440) (Some 1);
     ServerPca.mkFrame (1 # 2) [3; 2; 1] None (Some 880) (Some 0)] in
  ServerPca.applyPCA (fun _ => Some evd) frames
  = ServerPca.fallbackPcaCoordinates frames.
Proof.
  intros evd frames.
  apply (@applyPCA_few_eigenvalues_fall_back (fun _ => Some evd) frames evd).
  - simpl. lia.
  - reflexivity.
  - simpl. lia.
Defined.

(** ** The frame loop and the mapping of the second server variant *)

Section DynamicHop.

Import ServerPcaPipeline.

Lemma hop_and_count (samples : list Q) :
  let s := span samples in
  (hopSize samples = (if (2000 <? s / 256)%Z then s / 2000 else 256)%Z) /\
  (256 <= hopSize samples)%Z /\
  numFrames samples = (s / hopSize samples)%Z.
Proof.
  intro s.
  assert (Hh : hopSize samples
               = (if (2000 <? s / 256)%Z then s / 2000 else 256)%Z).
  { unfold hopSize, naturalFrames, MAX_FRAMES, minHopSize. fold s.
    rewrite !floor_div by lia. reflexivity. }
  assert (Hge : (256 <= hopSize samples)%Z).
  { rewrite Hh. destruct (2000 <? s / 256)%Z eqn:E; [|lia].
    apply Z.ltb_lt in E.
    assert (2001 * 256 <= s)%Z.
    { pose proof (Z.mul_div_le s 256 ltac:(lia)).
      pose proof (Z.mod_pos_bound s 256 ltac:(lia)).
      pose proof (Z.div_mod s 256 ltac:(lia)). lia. }
    apply Z.div_le_lower_bound; lia. }
  split; [exact Hh|]. split; [exact Hge|].
  unfold numFrames. fold s. rewrite floor_div by lia. reflexivity.
Qed.

End DynamicHop.

(** X22: [extractAudioFrames] of the second variant never hops by less than
    256 samples and returns [numFrames] frames, at most 2007 (the hop is
    rounded down, so the count can pass the intended 2000) and at least
    2000 once the buffer would give more than 2000 frames at the minimal
    hop; every frame starts on the grid [i * hopSize / sampleRate] and lies
    inside the buffer. *)
Theorem dynamic_hop_frame_budget
  (K : ServerPcaPipeline.Kernels) (samples : list Q) (sampleRate : Q) :
  let hop := ServerPcaPipeline.hopSize samples in
  let n := ServerPcaPipeline.numFrames samples in
  let frames := ServerPcaPipeline.extractAudioFrames K samples sampleRate in
  (256 <= hop)%Z /\ (n <= 2007)%Z /\
  ((2000 < ServerPcaPipeline.naturalFrames samples)%Z -> (2000 <= n)%Z) /\
  length frames = Z.to_nat n /\
  map ServerPca.t frames
  = map (gridTime (Z.to_nat hop) sampleRate) (seq 0 (Z.to_nat n)) /\
  ((0 < n)%Z -> (n * hop + 512 <= Z.of_nat (length samples))%Z).
Proof.
  intros hop n frames.
  destruct (hop_and_count samples) as (Hh & Hge & Hn).
  fold hop in Hh, Hge, Hn. fold n in Hn.
  set (s := ServerPcaPipeline.span samples) in *.
  assert (Hnat : ServerPcaPipeline.naturalFrames samples = (s / 256)%Z).
  { unfold ServerPcaPipeline.naturalFrames, ServerPcaPipeline.minHopSize.
    fold s. apply floor_div. lia. }
  split; [exact Hge|]. split; [|split; [|split; [|split]]].
  - rewrite Hn. destruct (2000 <? s / 256)%Z eqn:E.
    + assert (s < 2008 * hop)%Z.
      { pose proof (Z.mod_pos_bound s 2000 ltac:(lia)).
        pose proof (Z.div_mod s 2000 ltac:(lia)). lia. }
      assert (s / hop < 2008)%Z by (apply Z.div_lt_upper_bound; lia). lia.
    + apply Z.ltb_ge in E. rewrite Hh. lia.
  - rewrite Hnat. intro Hlt.
    assert (E : (2000 <? s / 256)%Z = true) by (apply Z.ltb_lt; exact Hlt).
    rewrite E in Hh. rewrite Hn.
    apply Z.div_le_lower_bound; [lia|].
    rewrite Hh. pose proof (Z.mul_div_le s 2000 ltac:(lia)). lia.
  - unfold frames, ServerPcaPipeline.extractAudioFrames.
    rewrite length_map, length_seq. reflexivity.
  - unfold frames, ServerPcaPipeline.extractAudioFrames.
    rewrite map_map. apply map_ext. intro i. reflexivity.
  - intros _. rewrite Hn.
    pose proof (Z.mul_div_le s hop ltac:(lia)).
    unfold s, ServerPcaPipeline.span, ServerPcaPipeline.frameSize in *. lia.
Qed.

Lemma dynamic_hop_frame_budget_witness :
  let samples := repeat 0 (Z.to_nat 514511) in
  ServerPcaPipeline.hopSize samples = 256%Z /\
  ServerPcaPipeline.numFrames samples = 2007%Z /\
  (2007 * 256 + 512 <= 514511)%Z.
Proof.
  intro samples.
  assert (Hh : ServerPcaPipeline.hopSize samples = 256%Z)
    by (vm_compute; reflexivity).
  assert (Hn : ServerPcaPipeline.numFrames samples = 2007%Z)
    by (vm_compute; reflexivity).
  split; [exact Hh|]. split; [exact Hn|].
  destruct (@dynamic_hop_frame_budget
              (ServerPcaPipeline.mkKernels
                 (fun _ _ _ => []) (fun _ _ _ => []) (fun _ _ _ => [])
                 (fun _ _ _ => 0))
              samples 22050) as (_ & _ & _ & _ & _ & H).
  rewrite Hh, Hn in H. unfold samples in H. rewrite repeat_length in H.
  rewrite Z2Nat.id in H by lia. apply H. lia.
Defined.

(** X23: the loop of [calculateDominantFrequency] ends on bin 0 with
    magnitude 0 when no bin from 1 on has a positive magnitude, and
    otherwise on the first bin from 1 on that carries the greatest
    magnitude; the frequency returned is that bin times
    [sampleRate / fftSize]. *)
Theorem dominant_bin_is_first_maximum (fft : list Q) :
  let maxMag := fst (ServerPcaPipeline.dominantBin fft) in
  let maxBin := snd (ServerPcaPipeline.dominantBin fft) in
  ((maxBin = 0%nat /\ maxMag = 0 /\
    forall i, (1 <= i < length fft)%nat -> nth i fft 0 <= 0) \/
   ((1 <= maxBin < length fft)%nat /\ maxMag = nth maxBin fft 0 /\
    0 < maxMag /\
    (forall i, (1 <= i < length fft)%nat -> nth i fft 0 <= maxMag) /\
    (forall i, (1 <= i < maxBin)%nat -> nth i fft 0 < maxMag))) /\
  (forall sampleRate fftSize,
      ServerPcaPipeline.calculateDominantFrequency fft sampleRate fftSize
      = inject_Z (Z.of_nat maxBin) * sampleRate
        / inject_Z (Z.of_nat fftSize)).
Proof.
  intros maxMag maxBin. split; [|intros; reflexivity].
  unfold maxMag, maxBin, ServerPcaPipeline.dominantBin.
  set (step := fun (best : Q * nat) (i : nat) =>
                 if Js.ltb (fst best) (nth i fft 0)
                 then (nth i fft 0, i) else best).
  assert (H : forall m, (m <= length fft - 1)%nat ->
            let best := fold_left step (seq 1 m) (0, 0%nat) in
            (snd best = 0%nat /\ fst best = 0 /\
             forall i, (1 <= i < 1 + m)%nat -> nth i fft 0 <= 0) \/
            ((1 <= snd best < 1 + m)%nat /\ fst best = nth (snd best) fft 0 /\
             0 < fst best /\
             (forall i, (1 <= i < 1 + m)%nat -> nth i fft 0 <= fst best) /\
             (forall i, (1 <= i < snd best)%nat -> nth i fft 0 < fst best))).
  { induction m as [|m IH]; intro Hm.
    - left. simpl. split; [reflexivity|]. split; [reflexivity|].
      intros i Hi. lia.
    - rewrite seq_S, fold_left_app. cbn [fold_left].
      specialize (IH ltac:(lia)). cbv zeta in IH.
      set (best := fold_left step (seq 1 m) (0, 0%nat)) in *.
      assert (Es : step best (1 + m)%nat
                   = if Js.ltb (fst best) (nth (1 + m) fft 0)
                     then (nth (1 + m) fft 0, (1 + m)%nat) else best)
        by reflexivity.
      rewrite Es. clear Es.
      destruct (Js.ltb (fst best) (nth (1 + m) fft 0)) eqn:E.
      + apply Js.ltb_lt in E. right. cbn [fst snd].
        split; [lia|]. split; [reflexivity|].
        destruct IH as [(H0 & H1 & H2)|(H0 & H1 & H2 & H3 & H4)].
        * rewrite H1 in E. split; [exact E|]. split.
          -- intros i Hi. destruct (Nat.eq_dec i (1 + m)) as [->|Hne];
               [apply Qle_refl|].
             apply Qle_trans with 0; [apply H2; lia | apply Qlt_le_weak, E].
          -- intros i Hi. apply Qle_lt_trans with 0; [apply H2; lia | exact E].
        * split; [eapply Qlt_trans; eassumption|]. split.
          -- intros i Hi. destruct (Nat.eq_dec i (1 + m)) as [->|Hne];
               [apply Qle_refl|].
             apply Qle_trans with (fst best);
               [apply H3; lia | apply Qlt_le_weak, E].
          -- intros i Hi.
             apply Qle_lt_trans with (fst best); [apply H3; lia | exact E].
      + apply Js.ltb_ge in E.
        destruct IH as [(H0 & H1 & H2)|(H0 & H1 & H2 & H3 & H4)].
        * left. split; [exact H0|]. split; [exact H1|].
          intros i Hi. destruct (Nat.eq_dec i (1 + m)) as [->|Hne];
            [rewrite H1 in E; exact E | apply H2; lia].
        * right. split; [lia|]. split; [exact H1|]. split; [exact H2|].
          split; [|exact H4].
          intros i Hi. destruct (Nat.eq_dec i (1 + m)) as [->|Hne];
            [exact E | apply H3; lia]. }
  specialize (H (length fft - 1)%nat (Nat.le_refl _)). cbv zeta in H.
  destruct H as [(H0 & H1 & H2)|(H0 & H1 & H2 & H3 & H4)].
  - left. split; [exact H0|]. split; [exact H1|].
    intros i Hi. apply H2. lia.
  - right. split; [lia|]. split; [exact H1|]. split; [exact H2|].
    split; [|exact H4]. intros i Hi. apply H3. lia.
Qed.

(** ** The visual mapper and the page pipeline of the client *)

Section VisualMapperFacts.

Import VisualMapper.

Lemma rem1_bounds (a : Q) :
  (-1 < rem1 a /\ rem1 a < 1) /\ (0 <= a -> 0 <= rem1 a).
Proof.
  destruct a as [n d]. unfold rem1, Qlt, Qle, Qminus, Qplus, Qopp, inject_Z.
  simpl.
  pose proof (Z.quot_rem' n (Zpos d)) as Hq.
  assert (Hr : (Z.abs (Z.rem n (Zpos d)) < Zpos d)%Z).
  { pose proof (Z.rem_bound_abs n (Zpos d) ltac:(lia)). lia. }
  assert (Hs : (0 <= n -> 0 <= Z.rem n (Zpos d))%Z).
  { intro H. apply Z.rem_nonneg; lia. }
  rewrite !Z.mul_1_r.
  assert (E : (n + - Z.quot n (Zpos d) * Zpos d = Z.rem n (Zpos d))%Z) by lia.
  rewrite E. split; [split|]; try intro; nia.
Qed.

(** The wrapped hue lies in [0, 1). *)
Lemma wrapped_hue (h : Q) :
  0 <= rem1 (rem1 h + 1) /\ rem1 (rem1 h + 1) < 1.
Proof.
  destruct (rem1_bounds h) as ((H1 & _) & _).
  destruct (rem1_bounds (rem1 h + 1)) as ((_ & H2) & H3).
  split; [apply H3; lra | exact H2].
Qed.

Lemma sector_in_range (h : Q) :
  (0 <= Js.floor (rem1 (rem1 h + 1) * 6) <= 5)%Z.
Proof.
  destruct (wrapped_hue h) as (H0 & H1).
  set (w := rem1 (rem1 h + 1)) in *. unfold Js.floor.
  split.
  - change 0%Z with (Qfloor 0). apply Qfloor_resp_le. lra.
  - assert (Qfloor (w * 6) < 6)%Z; [|lia].
    rewrite Zlt_Qlt. change (inject_Z 6) with 6.
    pose proof (Qfloor_le (w * 6)). lra.
Qed.

Lemma norm_unit (value min max : Q) :
  0 <= norm value min max /\ norm value min max <= 1.
Proof.
  unfold norm. destruct (Js.leb max min).
  - split; discriminate.
  - apply Js.clamp_bounds. discriminate.
Qed.

Lemma maxOf_le_bound (b x : Q) (xs : list Q) :
  x <= b -> Forall (fun e => e <= b) xs -> Js.maxOf x xs <= b.
Proof.
  unfold Js.maxOf. intros Hx H. revert x Hx.
  induction H as [|y ys Hy _ IH]; intros x Hx; simpl.
  - exact Hx.
  - apply IH. unfold Js.max. apply Q.max_lub; assumption.
Qed.

(** The position of the hue inside its sector. *)
Definition sectorFraction (h : Q) : Q :=
  rem1 (rem1 h + 1) * 6 - inject_Z (Js.floor (rem1 (rem1 h + 1) * 6)).

Lemma sectorFraction_unit (h : Q) :
  0 <= sectorFraction h /\ sectorFraction h <= 1.
Proof.
  unfold sectorFraction, Js.floor.
  set (w := rem1 (rem1 h + 1)).
  pose proof (Qfloor_le (w * 6)). pose proof (Qlt_floor (w * 6)) as Hlt.
  rewrite inject_Z_plus in Hlt. change (inject_Z 1) with 1 in Hlt.
  split; lra.
Qed.

(** The result is one of the six arrangements of [v], [p], [q] and [t]. *)
Lemma hsvToRgb_cases (h s v : Q) (P : Q * Q * Q -> Prop) :
  let f := sectorFraction h in
  let p := v * (1 - s) in
  let q := v * (1 - f * s) in
  let t := v * (1 - (1 - f) * s) in
  P (v, t, p) -> P (q, v, p) -> P (p, v, t) -> P (p, q, v) -> P (t, p, v) ->
  P (v, p, q) -> P (hsvToRgb h s v).
Proof.
  intros f p q t H0 H1 H2 H3 H4 H5. unfold hsvToRgb. cbv zeta.
  fold (sectorFraction h). fold f. fold p. fold q. fold t.
  destruct (Z.rem _ 6) as [|x|x];
    [| destruct x as [[[?|?|]|[?|?|]|]|[[?|?|]|[?|?|]|]|] |]; assumption.
Qed.

Lemma hsv_levels (f s v : Q) :
  0 <= f -> f <= 1 -> 0 <= s -> s <= 1 -> 0 <= v ->
  let p := v * (1 - s) in
  let q := v * (1 - f * s) in
  let t := v * (1 - (1 - f) * s) in
  (0 <= p /\ p <= v) /\ (p <= q /\ q <= v) /\ (p <= t /\ t <= v).
Proof.
  intros Hf0 Hf1 Hs0 Hs1 Hv. cbv zeta.
  assert (Hfs : 0 <= f * s /\ f * s <= s).
  { split.
    - apply Qmult_le_0_compat; assumption.
    - setoid_replace s with (1 * s) at 2 by ring.
      apply Qmult_le_compat_r; assumption. }
  assert (Hgs : 0 <= (1 - f) * s /\ (1 - f) * s <= s).
  { split.
    - apply Qmult_le_0_compat; lra.
    - setoid_replace s with (1 * s) at 2 by ring.
      apply Qmult_le_compat_r; lra. }
  destruct Hfs, Hgs.
  assert (Hmono : forall a b, a <= b -> v * a <= v * b).
  { intros a b Hab. rewrite !(Qmult_comm v).
    apply Qmult_le_compat_r; assumption. }
  assert (E1 : v * 1 == v) by ring.
  assert (E0 : v * 0 == 0) by ring.
  pose proof (Hmono 0 (1 - s) ltac:(lra)).
  pose proof (Hmono (1 - s) 1 ltac:(lra)).
  pose proof (Hmono (1 - s) (1 - f * s) ltac:(lra)).
  pose proof (Hmono (1 - f * s) 1 ltac:(lra)).
  pose proof (Hmono (1 - s) (1 - (1 - f) * s) ltac:(lra)).
  pose proof (Hmono (1 - (1 - f) * s) 1 ltac:(lra)).
  repeat split; lra.
Qed.

End VisualMapperFacts.

(** X24: for a saturation in [0, 1] and a non-negative value, each
    component returned by [hsvToRgb] lies between [v * (1 - s)] and [v],
    one component is [v] and one is [v * (1 - s)]; the wrapped hue always
    selects one of the six sectors, so the default branch of the switch is
    never reached. *)
Theorem hsv_components_between (h s v : Q) :
  0 <= s -> s <= 1 -> 0 <= v ->
  let '(r, g, b) := VisualMapper.hsvToRgb h s v in
  let p := v * (1 - s) in
  ((p <= r /\ r <= v) /\ (p <= g /\ g <= v) /\ (p <= b /\ b <= v)) /\
  (r = v \/ g = v \/ b = v) /\ (r = p \/ g = p \/ b = p) /\
  (0 <= Js.floor (VisualMapper.rem1 (VisualMapper.rem1 h + 1) * 6) <= 5)%Z.
Proof.
  intros Hs0 Hs1 Hv.
  destruct (sectorFraction_unit h) as (Hf0 & Hf1).
  destruct (hsv_levels Hf0 Hf1 Hs0 Hs1 Hv)
    as ((Hp0 & Hp1) & (Hq0 & Hq1) & (Ht0 & Ht1)).
  pose proof (sector_in_range h) as Hi.
  assert (Hvv : v <= v) by apply Qle_refl.
  assert (Hpp : v * (1 - s) <= v * (1 - s)) by apply Qle_refl.
  apply (@hsvToRgb_cases h s v
           (fun c => let '(r, g, b) := c in
                     let p := v * (1 - s) in
                     ((p <= r /\ r <= v) /\ (p <= g /\ g <= v)
                      /\ (p <= b /\ b <= v)) /\
                     (r = v \/ g = v \/ b = v) /\
                     (r = p \/ g = p \/ b = p) /\
                     (0 <= Js.floor (VisualMapper.rem1
                                       (VisualMapper.rem1 h + 1) * 6) <= 5)%Z));
    cbv zeta;
    (split; [repeat split; assumption |
             split; [tauto | split; [tauto | exact Hi]]]).
Qed.

Lemma hsv_components_between_witness :
  let '(r, g, b) := VisualMapper.hsvToRgb (1 # 3) (1 # 2) (8 # 10) in
  (r = 8 # 10 \/ g = 8 # 10 \/ b = 8 # 10) /\ (0 <= r /\ r <= 8 # 10).
Proof.
  pose proof (@hsv_components_between (1 # 3) (1 # 2) (8 # 10)) as H.
  destruct (VisualMapper.hsvToRgb (1 # 3) (1 # 2) (8 # 10)) as ((r, g), b).
  destruct H as (((Hr0 & Hr1) & _) & Hmax & _); try discriminate.
  split; [exact Hmax|]. split; [|exact Hr1].
  eapply Qle_trans; [|exact Hr0]. discriminate.
Defined.

Section VisualPoints.

Import VisualMapper.

Variable log2 : Q -> Q.

Definition inUnit (c : Q * Q * Q) : Prop :=
  let '(r, g, b) := c in
  (0 <= r /\ r <= 1) /\ (0 <= g /\ g <= 1) /\ (0 <= b /\ b <= 1).

Lemma hsvToRgb_unit (h s v : Q) :
  0 <= s -> s <= 1 -> 0 <= v -> v <= 1 -> inUnit (hsvToRgb h s v).
Proof.
  intros Hs0 Hs1 Hv0 Hv1.
  destruct (sectorFraction_unit h) as (Hf0 & Hf1).
  destruct (hsv_levels Hf0 Hf1 Hs0 Hs1 Hv0)
    as ((Hp0 & Hp1) & (Hq0 & Hq1) & (Ht0 & Ht1)).
  apply hsvToRgb_cases; unfold inUnit; repeat split; lra.
Qed.

Lemma elem_le_sum (xs : list Q) (x : Q) :
  Forall (fun c => 0 <= c) xs -> In x xs -> x <= AudioFeatures.sumQ xs.
Proof.
  intro H. induction H as [|y ys Hy Hys IH]; intro Hin; [contradiction|].
  rewrite sumQ_cons. pose proof (sumQ_nonneg Hys) as Hs.
  destruct Hin as [->|Hin]; [lra|].
  specialize (IH Hin). lra.
Qed.

Lemma chromaConcentration_unit (chroma : list Q) :
  chromaOk chroma ->
  0 <= chromaConcentration chroma /\ chromaConcentration chroma <= 1.
Proof.
  intros (_ & Hnn & Hsum). unfold chromaConcentration.
  destruct chroma as [|c rest]; [split; discriminate|].
  assert (Hle : Forall (fun e => e <= 1) (c :: rest)).
  { apply Forall_forall. intros e He. destruct Hsum as [Hs|Hz].
    - rewrite <- Hs. apply elem_le_sum; assumption.
    - rewrite Forall_forall in Hz. rewrite (Hz e He). discriminate. }
  inversion Hnn as [|? ? Hc _]; subst.
  inversion Hle as [|? ? Hc1 Hrest]; subst.
  split.
  - eapply Qle_trans; [exact Hc | apply maxOf_ge_seed].
  - apply maxOf_le_bound; assumption.
Qed.

Lemma toPoint_ranges (r : Ranges) (positions : list (list Q)) (i : nat)
  (frame : AudioFeatures.FrameFeatures) :
  let p := toPoint log2 r positions i frame in
  time p = AudioFeatures.time frame /\
  position p = nth_error positions i /\
  (0 <= AudioFeatures.f0Conf frame /\ AudioFeatures.f0Conf frame <= 1 ->
   (2 # 10 <= opacity p /\ opacity p <= 1) /\
   (27 # 1000 <= size p /\ size p <= 3 # 10)) /\
  (0 <= chromaConcentration (AudioFeatures.chroma frame) /\
   chromaConcentration (AudioFeatures.chroma frame) <= 1 ->
   inUnit (color p)).
Proof.
  intro p. unfold p, toPoint. cbn [time position opacity size color].
  pose proof (norm_unit (AudioFeatures.loudness frame) (loudMin r) (loudMax r))
    as (Hl0 & Hl1).
  set (loudNorm := norm (AudioFeatures.loudness frame) (loudMin r) (loudMax r))
    in *.
  split; [reflexivity|]. split; [reflexivity|]. split.
  - intros (Hc0 & Hc1).
    set (conf := AudioFeatures.f0Conf frame) in *.
    assert (Hcf : 3 # 10 <= (3 # 10) + (7 # 10) * conf
                  /\ (3 # 10) + (7 # 10) * conf <= 1) by (split; lra).
    assert (Hlf : 3 # 10 <= (3 # 10) + (7 # 10) * loudNorm
                  /\ (3 # 10) + (7 # 10) * loudNorm <= 1) by (split; lra).
    destruct Hcf as (Hcf0 & Hcf1). destruct Hlf as (Hlf0 & Hlf1).
    set (cf := (3 # 10) + (7 # 10) * conf) in *.
    set (lf := (3 # 10) + (7 # 10) * loudNorm) in *.
    split; split; nra.
  - intros (Hc0 & Hc1).
    set (cc := chromaConcentration (AudioFeatures.chroma frame)) in *.
    set (hue := match AudioFeatures.ff_f0 frame with
                | Some v => _
                | None => _
                end).
    apply hsvToRgb_unit; lra.
Qed.

Lemma mapToVisualPoints_at (frames : list AudioFeatures.FrameFeatures)
  (positions : list (list Q)) (i : nat) (p : EmbeddedPoint) :
  nth_error (mapToVisualPoints log2 frames positions) i = Some p ->
  exists r frame,
    nth_error frames i = Some frame /\ p = toPoint log2 r positions i frame.
Proof.
  unfold mapToVisualPoints. destruct frames as [|first rest].
  - destruct i; discriminate.
  - set (frames := first :: rest). intro H.
    destruct (nth_error frames i) as [frame|] eqn:E.
    + pose proof (nth_error_indexed frames 0 i E) as Hi. simpl in Hi.
      rewrite (map_nth_error _ _ _ Hi) in H. injection H as <-.
      eexists. exists frame. split; reflexivity.
    + apply nth_error_None in E.
      assert (Hnone : nth_error
                        (map (fun q => toPoint log2 (rangesOf log2 first rest)
                                         positions (fst q) (snd q))
                             (combine (seq 0 (length frames)) frames)) i
                      = None).
      { apply nth_error_None.
        rewrite length_map, length_combine, length_seq. lia. }
      rewrite Hnone in H. discriminate.
Qed.

Lemma mapToVisualPoints_length (frames : list AudioFeatures.FrameFeatures)
  (positions : list (list Q)) :
  length (mapToVisualPoints log2 frames positions) = length frames.
Proof.
  unfold mapToVisualPoints. destruct frames as [|first rest]; [reflexivity|].
  rewrite length_map, length_combine, length_seq. lia.
Qed.

End VisualPoints.

(** X25: [mapToVisualPoints] returns one point per frame, in order, with
    the frame's time and the position of the same index; for a pitch
    confidence in [0, 1] the opacity lies in [0.2, 1] and the size in
    [0.027, 0.3]; for a chroma concentration in [0, 1] the three colour
    components lie in [0, 1]. *)
Theorem visual_points_in_range
  (log2 : Q -> Q) (frames : list AudioFeatures.FrameFeatures)
  (positions : list (list Q)) :
  let points := VisualMapper.mapToVisualPoints log2 frames positions in
  length points = length frames /\
  forall i frame p,
    nth_error frames i = Some frame -> nth_error points i = Some p ->
    VisualMapper.time p = AudioFeatures.time frame /\
    VisualMapper.position p = nth_error positions i /\
    (0 <= AudioFeatures.f0Conf frame /\ AudioFeatures.f0Conf frame <= 1 ->
     (2 # 10 <= VisualMapper.opacity p /\ VisualMapper.opacity p <= 1) /\
     (27 # 1000 <= VisualMapper.size p /\ VisualMapper.size p <= 3 # 10)) /\
    (0 <= VisualMapper.chromaConcentration (AudioFeatures.chroma frame) /\
     VisualMapper.chromaConcentration (AudioFeatures.chroma frame) <= 1 ->
     let '(r, g, b) := VisualMapper.color p in
     (0 <= r /\ r <= 1) /\ (0 <= g /\ g <= 1) /\ (0 <= b /\ b <= 1)).
Proof.
  intro points. split; [apply mapToVisualPoints_length|].
  intros i frame p Hf Hp.
  destruct (mapToVisualPoints_at log2 frames positions i Hp)
    as (r & frame' & Hf' & ->).
  rewrite Hf in Hf'. injection Hf' as <-.
  apply toPoint_ranges.
Qed.

Lemma visual_points_in_range_witness :
  let frames :=
    [AudioFeatures.mkFeatures 0 [1; 2] (repeat (1 # 12) 12) (Some 440)
       (1 # 2) 1 1000 0 0 0;
     AudioFeatures.mkFeatures (1 # 2) [2; 1] (repeat 0 12) None 0 2 2000 0 0
       0] in
  let p := nth 0 (VisualMapper.mapToVisualPoints Sample.log2Q frames
                    [[0; 0; 0]; [1; 1; 1]])
               (VisualMapper.mkEmbedded 0 None (0, 0, 0) 0 0 0 None 0 0 0) in
  (2 # 10 <= VisualMapper.opacity p /\ VisualMapper.opacity p <= 1) /\
  VisualMapper.position p = Some [0; 0; 0].
Proof.
  intros frames p.
  destruct (@visual_points_in_range Sample.log2Q frames [[0; 0; 0]; [1; 1; 1]])
    as (_ & H).
  destruct (H 0%nat (nth 0 frames (AudioFeatures.mkFeatures 0 [] [] None 0 0 0
                                     0 0 0)) p)
    as (_ & Hpos & Hop & _).
  - reflexivity.
  - reflexivity.
  - split; [apply Hop; split; discriminate | exact Hpos].
Defined.

Section PagePipeline.

Lemma downsample_In {A : Type} (points : list A) (p : A) :
  In p (Home.downsample points) -> In p points.
Proof.
  unfold Home.downsample.
  destruct (Home.maxPoints <? Z.of_nat (length points))%Z; [|tauto].
  apply everyNth_In.
Qed.

Lemma downsample_length {A : Type} (points : list A) :
  (Z.of_nat (length (Home.downsample points)) <= Home.maxPoints)%Z.
Proof.
  unfold Home.downsample, Home.maxPoints.
  destruct (8000 <? Z.of_nat (length points))%Z eqn:E;
    [|apply Z.ltb_ge in E; exact E].
  apply Z.ltb_lt in E. rewrite everyNth_length.
  set (n := length points) in *.
  set (step := Js.ceil (inject_Z (Z.of_nat n) / inject_Z 8000)).
  assert (Hstep : (Z.of_nat n <= 8000 * step)%Z).
  { pose proof (Qle_ceiling (inject_Z (Z.of_nat n) / inject_Z 8000)) as Hc.
    fold (Js.ceil (inject_Z (Z.of_nat n) / inject_Z 8000)) in Hc.
    fold step in Hc.
    assert (Hq : inject_Z (Z.of_nat n) <= inject_Z step * inject_Z 8000).
    { setoid_replace (inject_Z (Z.of_nat n))
        with (inject_Z (Z.of_nat n) / inject_Z 8000 * inject_Z 8000) at 1
        by (field; discriminate).
      apply Qmult_le_compat_r; [exact Hc | discriminate]. }
    rewrite <- inject_Z_mult in Hq. rewrite <- Zle_Qle in Hq. lia. }
  assert (Hpos : (1 <= Z.to_nat step)%nat) by lia.
  destruct (keptIndices_count n Hpos) as (_ & H2).
  set (c := length (keptIndices (Z.to_nat step) 0 n)) in *.
  nia.
Qed.

Lemma extractFeatures_frameOk (K : AudioFeatures.Kernels) (log2 : Q -> Q)
  (audioBuffer : AudioFeatures.AudioBuffer)
  (cfg : AudioFeatures.AnalysisConfig) :
  Forall frameOk (AudioFeatures.extractFeatures K log2 audioBuffer cfg).
Proof.
  unfold AudioFeatures.extractFeatures.
  apply fold_left_invariant
    with (P := fun st : AudioFeatures.LoopState => Forall frameOk (fst st)).
  - constructor.
  - intros st i _ H. unfold AudioFeatures.frameStep. cbn [fst].
    apply Forall_app. split; [exact H|].
    constructor; [|constructor].
    split; [apply computeChroma_chromaOk | apply yinPitchDetect_pitchOk].
Qed.

Lemma computePCA_positions (sqrt log2 : Q -> Q)
  (frames : list AudioFeatures.FrameFeatures) :
  length (Pca.positions (Pca.computePCA sqrt log2 frames)) = length frames /\
  Forall (fun pos => length pos = 3%nat)
         (Pca.positions (Pca.computePCA sqrt log2 frames)).
Proof.
  unfold Pca.computePCA. destruct frames as [|f fs].
  - split; [reflexivity | constructor].
  - cbn [Pca.positions]. unfold Pca.rescalePositions. split.
    + unfold Pca.projectedPositions, Pca.standardized, Pca.standardize.
      rewrite !length_map. reflexivity.
    + apply Forall_forall. intros pos Hpos. apply in_map_iff in Hpos.
      destruct Hpos as (q & <- & _). rewrite length_map. reflexivity.
Qed.

End PagePipeline.

(** X26: the points the page hands to the renderer are at most 8000; each
    comes from a frame of [extractFeatures], with a position of three
    coordinates from [computePCA], colour components in [0, 1], an opacity
    in [0.2, 1] and a size in [0.027, 0.3]; this holds for every buffer and
    whatever the spectral kernels, [Math.sqrt] and [Math.log2] return. *)
Theorem page_points_capped_and_in_range
  (K : AudioFeatures.Kernels) (sqrt log2 : Q -> Q)
  (audioBuffer : AudioFeatures.AudioBuffer) :
  let points := Home.analysedPoints K sqrt log2 audioBuffer in
  (Z.of_nat (length points) <= 8000)%Z /\
  Forall
    (fun p =>
       (exists pos, VisualMapper.position p = Some pos /\ length pos = 3%nat) /\
       (let '(r, g, b) := VisualMapper.color p in
        (0 <= r /\ r <= 1) /\ (0 <= g /\ g <= 1) /\ (0 <= b /\ b <= 1)) /\
       (2 # 10 <= VisualMapper.opacity p /\ VisualMapper.opacity p <= 1) /\
       (27 # 1000 <= VisualMapper.size p /\ VisualMapper.size p <= 3 # 10))
    points.
Proof.
  intro points. unfold points, Home.analysedPoints.
  set (frames := AudioFeatures.extractFeatures K log2 audioBuffer
                   (AudioFeatures.mkConfig 2048 512 40 80)).
  set (positions := Pca.positions (Pca.computePCA sqrt log2 frames)).
  split.
  - pose proof (downsample_length
                  (VisualMapper.mapToVisualPoints log2 frames positions)) as H.
    exact H.
  - apply Forall_forall. intros p Hp. apply downsample_In in Hp.
    apply In_nth_error in Hp. destruct Hp as (i & Hi).
    destruct (mapToVisualPoints_at log2 frames positions i Hi)
      as (r & frame & Hf & ->).
    pose proof (extractFeatures_frameOk K log2 audioBuffer
                  (AudioFeatures.mkConfig 2048 512 40 80)) as Hok.
    fold frames in Hok. rewrite Forall_forall in Hok.
    destruct (Hok frame (nth_error_In _ _ Hf)) as (Hchroma & Hpitch).
    destruct (computePCA_positions sqrt log2 frames) as (Hlen & Hthree).
    fold positions in Hlen, Hthree.
    destruct (toPoint_ranges log2 r positions i frame)
      as (_ & Hpos & Hconf & Hcol).
    assert (Hc : 0 <= AudioFeatures.f0Conf frame
                 /\ AudioFeatures.f0Conf frame <= 1).
    { unfold pitchOk in Hpitch.
      destruct (AudioFeatures.ff_f0 frame).
      - destruct Hpitch as (_ & H0 & H1). split; lra.
      - rewrite Hpitch. split; discriminate. }
    split; [|split; [|exact (Hconf Hc)]].
    + destruct (nth_error positions i) as [pos|] eqn:E.
      * exists pos. split; [rewrite Hpos; reflexivity|].
        rewrite Forall_forall in Hthree. apply Hthree.
        eapply nth_error_In. exact E.
      * apply nth_error_None in E.
        assert (i < length frames)%nat
          by (apply nth_error_Some; rewrite Hf; discriminate).
        lia.
    + apply Hcol. apply chromaConcentration_unit. exact Hchroma.
Qed.

(** ** Phrases enclose their frames *)

Section SegmenterEnclosure.

Import Segmenter.

Variable Frame : Type.
Variable frame_t : Frame -> Q.
Variable frame_amplitude : Frame -> Q.

(** Every frame of [v] lies between the start and the end of [v]. *)
Definition encloses (v : VerseSegment Frame) : Prop :=
  Forall (fun g => seg_start v <= frame_t g /\ frame_t g <= seg_end v)
         (seg_frames v).

(** The loop invariant, with [now] the time of the last frame scanned and
    [duration] the length of the track. *)
Record Enclosed (duration now : Q) (st : ScanState Frame) : Prop :=
  mkEnclosed {
  enc_verses : Forall encloses (verses st);
  enc_start : Forall (fun g => verseStart st <= frame_t g) (verseFrames st);
  enc_now : Forall (fun g => frame_t g <= now) (verseFrames st);
  enc_track : Forall (fun g => frame_t g <= duration) (verseFrames st);
  enc_silence :
    inSilence st = true ->
    Forall (fun g => frame_t g <= silenceStart st) (verseFrames st);
  enc_began : verseStart st <= now
}.

Lemma Forall_le_trans (bound bound' : Q) (gs : list Frame) :
  bound <= bound' ->
  Forall (fun g => frame_t g <= bound) gs ->
  Forall (fun g => frame_t g <= bound') gs.
Proof.
  intros Hb H. eapply Forall_impl; [|exact H].
  intros g Hg. simpl in Hg. eapply Qle_trans; eassumption.
Qed.

Lemma Forall_snoc {A : Type} (P : A -> Prop) (l : list A) (a : A) :
  Forall P l -> P a -> Forall P (l ++ [a]).
Proof.
  intros Hl Ha. apply Forall_app. split; [exact Hl|].
  constructor; [exact Ha | constructor].
Qed.

Lemma scanStep_enclosed (thr duration now : Q) (st : ScanState Frame)
  (f : Frame) :
  now <= frame_t f -> frame_t f <= duration ->
  Enclosed duration now st ->
  Enclosed duration (frame_t f) (scanStep frame_t frame_amplitude thr st f).
Proof.
  intros Hnow Hdur [Hv Hs Hn Ht Hsil Hb]. unfold scanStep.
  pose proof (Forall_le_trans Hnow Hn) as Hn'.
  assert (Hb' : verseStart st <= frame_t f)
    by (eapply Qle_trans; eassumption).
  destruct (isSilent frame_amplitude thr f); simpl.
  - destruct (inSilence st) eqn:Ei; simpl.
    + constructor; simpl; try assumption.
      intros _. apply Hsil. reflexivity.
    + constructor; simpl; try assumption. intros _. exact Hn'.
  - destruct (inSilence st) eqn:Ei; simpl.
    + destruct (Js.ltb minSilenceDuration (frame_t f - silenceStart st)
                && negb (isEmpty (verseFrames st))); simpl.
      * assert (Hnew : Forall encloses
                         (if Js.leb minVerseDuration
                                    (silenceStart st - verseStart st)
                          then verses st
                               ++ [mkSegment (verseStart st) (silenceStart st)
                                             (verseFrames st)]
                          else verses st)).
        { destruct (Js.leb minVerseDuration _); [|exact Hv].
          apply Forall_snoc; [exact Hv|].
          unfold encloses. simpl. specialize (Hsil eq_refl).
          rewrite Forall_forall in Hs, Hsil |- *.
          intros g Hg. split; [apply Hs | apply Hsil]; exact Hg. }
        constructor; simpl.
        -- exact Hnew.
        -- constructor; [apply Qle_refl | constructor].
        -- constructor; [apply Qle_refl | constructor].
        -- constructor; [exact Hdur | constructor].
        -- discriminate.
        -- apply Qle_refl.
      * constructor; simpl.
        -- exact Hv.
        -- apply Forall_snoc; assumption.
        -- apply Forall_snoc; [exact Hn' | apply Qle_refl].
        -- apply Forall_snoc; assumption.
        -- discriminate.
        -- exact Hb'.
    + constructor; simpl.
      * exact Hv.
      * apply Forall_snoc; assumption.
      * apply Forall_snoc; [exact Hn' | apply Qle_refl].
      * apply Forall_snoc; assumption.
      * intro H. congruence.
      * exact Hb'.
Qed.

Lemma scan_enclosed (thr duration : Q) (frames : list Frame) (now : Q)
  (st : ScanState Frame) :
  timeOrdered frame_t frames ->
  Forall (fun f => now <= frame_t f /\ frame_t f <= duration) frames ->
  Enclosed duration now st ->
  exists now',
    Enclosed duration now'
             (fold_left (scanStep frame_t frame_amplitude thr) frames st).
Proof.
  revert now st.
  induction frames as [|f rest IH]; intros now st Hsorted Hge Hst.
  - exists now. exact Hst.
  - simpl. inversion Hsorted as [|? ? Hrest Hhead]; subst.
    inversion Hge as [|? ? (Hf & Hd) Hall]; subst.
    apply (IH (frame_t f)); [exact Hrest | |].
    + rewrite Forall_forall in Hhead, Hall |- *.
      intros g Hg. split; [apply Hhead; exact Hg | apply Hall; exact Hg].
    + apply scanStep_enclosed with (now := now); assumption.
Qed.

End SegmenterEnclosure.

(** X27: for frames in non-decreasing time order whose times lie in
    [0, duration], every phrase returned by [segmentIntoVerses] encloses
    its frames: each frame's time lies between the start and the end of
    its phrase. *)
Theorem segments_enclose_their_frames
  (Frame : Type) (frame_t frame_amplitude : Frame -> Q)
  (frames : list Frame) (duration : Q) :
  timeOrdered frame_t frames ->
  Forall (fun f => 0 <= frame_t f /\ frame_t f <= duration) frames ->
  Forall (fun v =>
            Forall (fun g => Segmenter.seg_start v <= frame_t g /\
                             frame_t g <= Segmenter.seg_end v)
                   (Segmenter.seg_frames v))
         (Segmenter.segmentIntoVerses frame_t frame_amplitude frames duration).
Proof.
  intros Hsorted Hin.
  unfold Segmenter.segmentIntoVerses.
  destruct frames as [|f0 rest]; [constructor|].
  set (frames := f0 :: rest) in *.
  destruct (Segmenter.isEmpty
              (Segmenter.silenceVerses frame_t frame_amplitude frames duration))
    eqn:Ee.
  - apply Forall_forall. intros v Hv.
    destruct (fallbackVerses_contents frame_t _ _ _ Hv) as (_ & H).
    apply Forall_forall. intros g Hg. destruct (H g Hg) as (_ & H1 & H2).
    split; [exact H1 | apply Qlt_le_weak; exact H2].
  - unfold Segmenter.silenceVerses, Segmenter.scanFrames.
    destruct (@scan_enclosed Frame frame_t frame_amplitude
                (Segmenter.silenceThreshold frame_amplitude frames) duration
                frames 0 (Segmenter.initialScan Frame) Hsorted Hin)
      as (now' & [Hv Hs Hn Ht Hsil Hb]).
    { constructor; simpl; try constructor. apply Qle_refl. }
    destruct (Segmenter.isEmpty (Segmenter.verseFrames _)); [exact Hv|].
    apply Forall_snoc; [exact Hv|].
    simpl. rewrite Forall_forall in Hs, Ht |- *.
    intros g Hg. split; [apply Hs | apply Ht]; exact Hg.
Qed.

Lemma segments_enclose_their_frames_witness :
  let frames :=
    [Sample.frameAt 0 1; Sample.frameAt (2 # 10) 1; Sample.frameAt (4 # 10) 0;
     Sample.frameAt (6 # 10) 0; Sample.frameAt (8 # 10) 1] in
  Forall (fun v =>
            Forall (fun g => Segmenter.seg_start v <= Server.t g /\
                             Server.t g <= Segmenter.seg_end v)
                   (Segmenter.seg_frames v))
         [Segmenter.mkSegment 0 (4 # 10) (firstn 2 frames);
          Segmenter.mkSegment (8 # 10) 1 (skipn 4 frames)].
Proof.
  intro frames.
  assert (E : Segmenter.segmentIntoVerses Server.t Server.amplitude frames 1
              = [Segmenter.mkSegment 0 (4 # 10) (firstn 2 frames);
                 Segmenter.mkSegment (8 # 10) 1 (skipn 4 frames)])
    by (vm_compute; reflexivity).
  rewrite <- E.
  apply (@segments_enclose_their_frames Server.AudioFrame Server.t
           Server.amplitude frames 1).
  - unfold timeOrdered.
    repeat (constructor; [|repeat constructor; vm_compute; discriminate]).
    constructor.
  - repeat constructor; vm_compute; discriminate.
Defined.

(** ** The second server variant, end to end *)

Section ServerPcaEndToEnd.

Import ServerPcaPipeline.

Variable K : Kernels.
Variable eigenvalueDecomposition :
  ServerPca.Matrix -> option ServerPca.Decomposition.
Variable sqrt : Q -> Q.

Lemma mapFrequencyToHue_range (frequency : Q) :
  mapFrequencyToHue frequency <= 60 /\
  (0 <= frequency -> 0 <= mapFrequencyToHue frequency).
Proof.
  unfold mapFrequencyToHue, Js.min. cbv zeta.
  pose proof (Q.le_min_r (frequency / 10000) 1) as H1.
  split; [lra|].
  intro H0.
  assert (0 <= Qmin (frequency / 10000) 1); [|lra].
  apply Q.min_glb; [|discriminate].
  apply Qle_shift_div_l; [reflexivity | lra].
Qed.

Lemma calculateDominantFrequency_nonneg (fft : list Q) (sampleRate : Q)
  (fftSize : nat) :
  0 <= sampleRate -> 0 <= calculateDominantFrequency fft sampleRate fftSize.
Proof.
  intro Hs. unfold calculateDominantFrequency, Qdiv.
  assert (Hnat : forall n : nat, 0 <= inject_Z (Z.of_nat n)).
  { intro n. change 0 with (inject_Z 0). rewrite <- Zle_Qle. lia. }
  apply Qmult_le_0_compat.
  - apply Qmult_le_0_compat; [apply Hnat | exact Hs].
  - destruct fftSize as [|n]; [discriminate|].
    apply Qlt_le_weak, Qinv_lt_0_compat.
    change 0 with (inject_Z 0). rewrite <- Zlt_Qlt. lia.
Qed.

(** What the frame loop stores in a frame. *)
Lemma extracted_frame (samples : list Q) (sampleRate : Q)
  (g : ServerPca.AudioFrame) :
  0 < sampleRate ->
  In g (extractAudioFrames K samples sampleRate) ->
  (0 <= ServerPca.t g /\
   ServerPca.t g < inject_Z (Z.of_nat (length samples)) / sampleRate) /\
  (exists v, ServerPca.frequency g = Some v /\ 0 <= v) /\
  (exists start, ServerPca.amplitude g
                 = Some (computeRMS K samples start frameSize)).
Proof.
  intros Hs Hg. unfold extractAudioFrames in Hg.
  apply in_map_iff in Hg. destruct Hg as (i & <- & Hi). apply in_seq in Hi.
  unfold frameAt.
  cbn [ServerPca.t ServerPca.frequency ServerPca.amplitude].
  destruct (hop_and_count samples) as (_ & Hge & Hn).
  split; [|split].
  - assert (Hpos : 0 < / sampleRate) by (apply Qinv_lt_0_compat; exact Hs).
    assert (Hlt : (Z.of_nat (i * Z.to_nat (hopSize samples))
                   < Z.of_nat (length samples))%Z).
    { pose proof (Z.mul_div_le (span samples) (hopSize samples) ltac:(lia)).
      rewrite <- Hn in *. unfold span, frameSize in *. nia. }
    unfold Qdiv. split.
    + apply Qmult_le_0_compat; [|lra].
      change 0 with (inject_Z 0). rewrite <- Zle_Qle. lia.
    + apply Qmult_lt_compat_r; [exact Hpos|].
      rewrite <- Zlt_Qlt. exact Hlt.
  - eexists. split; [reflexivity|].
    apply calculateDominantFrequency_nonneg. apply Qlt_le_weak. exact Hs.
  - eexists. reflexivity.
Qed.

Lemma segmentIntoVerses_subset (Frame : Type)
  (frame_t frame_amplitude : Frame -> Q) (frames : list Frame) (duration : Q)
  (v : Segmenter.VerseSegment Frame) (g : Frame) :
  In v (Segmenter.segmentIntoVerses frame_t frame_amplitude frames duration) ->
  In g (Segmenter.seg_frames v) -> In g frames.
Proof.
  unfold Segmenter.segmentIntoVerses. intros Hv Hg.
  destruct frames as [|f0 rest]; [contradiction|].
  destruct (Segmenter.isEmpty _).
  - destruct (fallbackVerses_contents frame_t _ _ _ Hv) as (_ & H).
    apply (H g Hg).
  - pose proof (silenceVerses_contents frame_t frame_amplitude (f0 :: rest)
                  duration) as Hs.
    rewrite Forall_forall in Hs. destruct (Hs v Hv) as (_ & H).
    apply (H g Hg).
Qed.

Lemma toPoint_size (amplitudeMax : Q) (frame : ServerPca.AudioFrame) :
  0 <= ServerPca.amplitudeOrZero frame ->
  ServerPca.amplitudeOrZero frame <= amplitudeMax ->
  5 # 100 <= size (toPoint amplitudeMax frame) /\
  size (toPoint amplitudeMax frame) <= 20 # 100.
Proof.
  intros H0 H1. unfold toPoint. cbn [size].
  set (na := if Js.ltb 0 amplitudeMax
             then ServerPca.amplitudeOrZero frame / amplitudeMax else 1 # 2).
  assert (Hna : 0 <= na /\ na <= 1).
  { unfold na. destruct (Js.ltb 0 amplitudeMax) eqn:E.
    - apply Js.ltb_lt in E. apply ratio_in_unit; assumption.
    - split; discriminate. }
  destruct Hna. split; lra.
Qed.

End ServerPcaEndToEnd.

(** X28: for a non-empty buffer and a positive sample rate, the second
    server variant returns a result, with the duration
    [samples.length / sampleRate]; every verse has fewer than 800 points
    and edges that join two distinct points of the verse; every point has a
    hue in [0, 60], saturation 0.8 and lightness 0.6, and the time of a
    frame inside the track; and when [computeRMS] is never negative every
    size lies in [0.05, 0.2]. *)
Theorem pca_variant_result_well_formed
  (K : ServerPcaPipeline.Kernels)
  (eigenvalueDecomposition : ServerPca.Matrix -> option ServerPca.Decomposition)
  (sqrt : Q -> Q) (samples : list Q) (sampleRate : Q) :
  samples <> [] -> 0 < sampleRate ->
  exists result,
    ServerPcaPipeline.analyzeAudioFile K eigenvalueDecomposition sqrt samples
      sampleRate = inr result /\
    ServerPcaPipeline.duration result
    = inject_Z (Z.of_nat (length samples)) / sampleRate /\
    Forall
      (fun verse =>
         (length (ServerPcaPipeline.points verse) < 800)%nat /\
         (forall a b,
             In (a, b) (ServerPcaPipeline.edges verse) ->
             a <> b /\ (a < length (ServerPcaPipeline.points verse))%nat /\
             (b < length (ServerPcaPipeline.points verse))%nat) /\
         Forall
           (fun p =>
              (let '(hue, saturation, lightness) :=
                 ServerPcaPipeline.color p in
               (0 <= hue /\ hue <= 60) /\ saturation = 8 # 10 /\
               lightness = 6 # 10) /\
              (0 <= ServerPcaPipeline.time p /\
               ServerPcaPipeline.time p
               < inject_Z (Z.of_nat (length samples)) / sampleRate) /\
              ((forall s start n,
                   0 <= ServerPcaPipeline.computeRMS K s start n) ->
               5 # 100 <= ServerPcaPipeline.size p /\
               ServerPcaPipeline.size p <= 20 # 100))
           (ServerPcaPipeline.points verse))
      (ServerPcaPipeline.verses result).
Proof.
  intros Hne Hs. unfold ServerPcaPipeline.analyzeAudioFile.
  destruct samples as [|s0 more]; [contradiction|].
  set (samples := s0 :: more) in *.
  replace (length samples =? 0)%nat with false by reflexivity.
  eexists. split; [reflexivity|]. split; [reflexivity|].
  cbn [ServerPcaPipeline.verses].
  set (duration := inject_Z (Z.of_nat (length samples)) / sampleRate).
  set (frames := ServerPcaPipeline.extractAudioFrames K samples sampleRate).
  set (framesWithPCA := ServerPca.applyPCA eigenvalueDecomposition frames).
  set (segments := ServerPca.segmentIntoVerses framesWithPCA duration).
  assert (Hframe : forall seg f,
             In seg segments -> In f (Segmenter.seg_frames seg) ->
             exists g, In g frames /\ butCoordinates f = butCoordinates g).
  { intros seg f Hseg Hf.
    assert (Hin : In f framesWithPCA).
    { eapply segmentIntoVerses_subset; [exact Hseg | exact Hf]. }
    apply (in_map butCoordinates) in Hin.
    unfold framesWithPCA in Hin.
    rewrite (proj1 (applyPCA_preserves eigenvalueDecomposition frames)) in Hin.
    apply in_map_iff in Hin. destruct Hin as (g & E & Hg).
    exists g. split; [exact Hg | symmetry; exact E]. }
  unfold ServerPcaPipeline.mapFramesToVisualization.
  destruct (flat_map (@Segmenter.seg_frames ServerPca.AudioFrame) segments)
    as [|first rest] eqn:Eall; [constructor|].
  set (amplitudeMax := Js.maxOf (ServerPca.amplitudeOrZero first)
                                (map ServerPca.amplitudeOrZero rest)).
  apply Forall_forall. intros verse Hverse.
  apply in_map_iff in Hverse. destruct Hverse as ((i, seg) & <- & Hseg).
  apply in_combine_r in Hseg.
  unfold ServerPcaPipeline.toVerse.
  cbn [ServerPcaPipeline.points ServerPcaPipeline.edges fst snd].
  set (sampled := Server.everyNth _ (Segmenter.seg_frames seg)).
  split; [|split].
  - rewrite length_map.
    pose proof (@everyNth_cap _ 400 (Segmenter.seg_frames seg) ltac:(lia)).
    unfold sampled, ServerPcaPipeline.maxPoints. lia.
  - intros a b Hab.
    destruct (1 <? length (map (ServerPcaPipeline.toPoint amplitudeMax)
                               sampled))%nat; [|contradiction].
    unfold ServerPcaPipeline.findKNearestNeighbors in Hab.
    destruct (findKNearestNeighbors_ok ServerPcaPipeline.x ServerPcaPipeline.y
                ServerPcaPipeline.z sqrt
                (map (ServerPcaPipeline.toPoint amplitudeMax) sampled) 3)
      as (edgeSet & [Hd _ _]).
    apply (Hd (a, b) Hab).
  - apply Forall_forall. intros p Hp.
    apply in_map_iff in Hp. destruct Hp as (f & <- & Hf).
    apply everyNth_In in Hf.
    destruct (Hframe seg f Hseg Hf) as (g & Hg & E).
    unfold butCoordinates in E. injection E as Et Em Efreq Eamp.
    destruct (@extracted_frame K samples sampleRate g Hs Hg)
      as (Htime & (v & Hv & Hv0) & (start & Hamp)).
    split; [|split].
    + unfold ServerPcaPipeline.toPoint. cbn [ServerPcaPipeline.color].
      unfold ServerPcaPipeline.frequencyOrZero. rewrite Efreq, Hv.
      destruct (mapFrequencyToHue_range v) as (H60 & H0).
      split; [split; [apply H0; exact Hv0 | exact H60]|].
      split; reflexivity.
    + unfold ServerPcaPipeline.toPoint. cbn [ServerPcaPipeline.time].
      rewrite Et. exact Htime.
    + intro Hrms. apply toPoint_size.
      * unfold ServerPca.amplitudeOrZero. rewrite Eamp, Hamp. apply Hrms.
      * assert (Hin : In f (first :: rest)).
        { rewrite <- Eall. apply in_flat_map. exists seg.
          split; assumption. }
        unfold amplitudeMax. destruct Hin as [<-|Hin].
        -- apply maxOf_ge_seed.
        -- apply maxOf_ge_elem. apply in_map. exact Hin.
Qed.

Lemma pca_variant_result_well_formed_witness :
  exists result,
    ServerPcaPipeline.analyzeAudioFile
      (ServerPcaPipeline.mkKernels
         (fun _ _ _ => [0; 1; 3; 2]) (fun _ _ _ => [])
         (fun _ _ _ => [1; 2; 3]) (fun _ _ _ => 1))
      (fun _ => None) Sample.sqrtQ (repeat 1 1200) 22050
    = inr result /\
    ServerPcaPipeline.duration result = inject_Z 1200 / 22050.
Proof.
  destruct (@pca_variant_result_well_formed
              (ServerPcaPipeline.mkKernels
                 (fun _ _ _ => [0; 1; 3; 2]) (fun _ _ _ => [])
                 (fun _ _ _ => [1; 2; 3]) (fun _ _ _ => 1))
              (fun _ => None) Sample.sqrtQ (repeat 1 1200) 22050)
    as (result & E & Hd & _).
  - discriminate.
  - reflexivity.
  - exists result. split; [exact E|]. rewrite Hd.
    rewrite repeat_length. reflexivity.
Defined.

(** ** Descriptors *)

Section WeightedMean.

(** The running pair [(sumMag, sumFreqMag)] of a centroid loop over the
    bins [ks], with weight [w k] and frequency [f k] at bin [k]. *)
Variable f w : nat -> Q.
Variable lo hi : Q.

Definition centroidStep (acc : Q * Q) (k : nat) : Q * Q :=
  (fst acc + w k, snd acc + f k * w k).

Lemma centroid_sums_between (ks : list nat) (acc : Q * Q) :
  (forall k, In k ks -> 0 <= w k /\ lo <= f k /\ f k <= hi) ->
  0 <= fst acc -> lo * fst acc <= snd acc -> snd acc <= hi * fst acc ->
  let r := fold_left centroidStep ks acc in
  fst acc <= fst r /\ lo * fst r <= snd r /\ snd r <= hi * fst r.
Proof.
  revert acc. induction ks as [|k ks IH]; intros acc Hk H0 H1 H2; simpl.
  - split; [apply Qle_refl|]. split; assumption.
  - destruct (Hk k (or_introl eq_refl)) as (Hw & Hlo & Hhi).
    assert (Hlw : lo * w k <= f k * w k)
      by (apply Qmult_le_compat_r; assumption).
    assert (Hhw : f k * w k <= hi * w k)
      by (apply Qmult_le_compat_r; assumption).
    destruct (IH (centroidStep acc k)) as (Ha & Hb & Hc).
    + intros k' Hk'. apply Hk. right. exact Hk'.
    + unfold centroidStep. simpl. lra.
    + unfold centroidStep. simpl. lra.
    + unfold centroidStep. simpl. lra.
    + split; [|split; assumption].
      eapply Qle_trans; [|exact Ha]. unfold centroidStep. simpl. lra.
Qed.

Lemma centroid_sums_positive (ks : list nat) (acc : Q * Q) (k : nat) :
  (forall k, In k ks -> 0 <= w k) -> 0 <= fst acc ->
  In k ks -> 0 < w k ->
  0 < fst (fold_left centroidStep ks acc).
Proof.
  revert acc. induction ks as [|k0 ks IH]; intros acc Hw H0 Hin Hpos;
    [contradiction|].
  simpl. pose proof (Hw k0 (or_introl eq_refl)) as Hw0.
  destruct Hin as [->|Hin].
  - assert (Hstep : 0 < fst (centroidStep acc k))
      by (unfold centroidStep; simpl; lra).
    assert (Hmono : forall l a, (forall k, In k l -> 0 <= w k) ->
                                fst a <= fst (fold_left centroidStep l a)).
    { clear. induction l as [|x l IHl]; intros a Hl; simpl;
        [apply Qle_refl|].
      eapply Qle_trans; [|apply IHl; intros y Hy; apply Hl; right; exact Hy].
      unfold centroidStep. simpl.
      pose proof (Hl x (or_introl eq_refl)). lra. }
    eapply Qlt_le_trans; [exact Hstep|].
    apply Hmono. intros y Hy. apply Hw. right. exact Hy.
  - apply IH; try assumption.
    + intros y Hy. apply Hw. right. exact Hy.
    + unfold centroidStep. simpl. lra.
Qed.

Lemma centroid_sums_zero (ks : list nat) (acc : Q * Q) :
  (forall k, In k ks -> w k == 0) -> fst acc == 0 ->
  fst (fold_left centroidStep ks acc) == 0.
Proof.
  revert acc. induction ks as [|k ks IH]; intros acc Hw H0; simpl;
    [exact H0|].
  apply IH.
  - intros y Hy. apply Hw. right. exact Hy.
  - unfold centroidStep. simpl. rewrite (Hw k (or_introl eq_refl)), H0.
    reflexivity.
Qed.

End WeightedMean.

(** X29: for non-negative magnitudes, a non-negative sample rate and a
    positive FFT size, the spectral centroid of the client
    ([computeSpectralCentroid]) and of the first server variant
    ([computeSpectralFeatures]) lies between the frequencies of bin 1 and
    of the last bin as soon as some bin from 1 on has a positive magnitude;
    when all these magnitudes are 0 the client returns 0 and the server
    returns the defaults 1000 and 500. *)
Theorem spectral_centroid_within_bins
  (sqrt : Q -> Q) (magnitude : list Q) (fftSize : nat) (sampleRate : Q) :
  (0 < fftSize)%nat -> 0 <= sampleRate ->
  Forall (fun m => 0 <= m) magnitude ->
  let lo := AudioFeatures.binFrequency 1 sampleRate fftSize in
  let hi :=
    AudioFeatures.binFrequency (length magnitude - 1) sampleRate fftSize in
  let client :=
    ClientDescriptors.computeSpectralCentroid magnitude fftSize sampleRate in
  let server :=
    ServerDescriptors.computeSpectralFeatures sqrt magnitude fftSize
      sampleRate in
  ((exists k, (1 <= k < length magnitude)%nat /\ 0 < nth k magnitude 0) ->
   (lo <= client /\ client <= hi) /\ (lo <= fst server /\ fst server <= hi)) /\
  ((forall k, (1 <= k < length magnitude)%nat -> nth k magnitude 0 == 0) ->
   client = 0 /\ server = (1000, 500)).
Proof.
  intros Hsize Hrate Hmag lo hi client server.
  set (bins := seq 1 (length magnitude - 1)).
  set (w := fun k : nat => nth k magnitude 0).
  set (fc := fun k : nat =>
               inject_Z (Z.of_nat k) * sampleRate / inject_Z (Z.of_nat fftSize)).
  set (fs := fun k : nat =>
               inject_Z (Z.of_nat k)
               * (sampleRate / inject_Z (Z.of_nat fftSize))).
  assert (Ec : ClientDescriptors.centroidSums magnitude fftSize sampleRate
               = fold_left (centroidStep fc w) bins (0, 0)) by reflexivity.
  assert (Es : ServerDescriptors.centroidSums magnitude fftSize sampleRate
               = fold_left (centroidStep fs w) bins (0, 0)) by reflexivity.
  assert (Hn : 0 < inject_Z (Z.of_nat fftSize)).
  { change 0 with (inject_Z 0). rewrite <- Zlt_Qlt. lia. }
  assert (Hunit : 0 <= sampleRate / inject_Z (Z.of_nat fftSize)).
  { apply Qle_shift_div_l; [exact Hn | lra]. }
  assert (Hw : forall k, In k bins -> 0 <= w k).
  { intros k Hk. apply in_seq in Hk. rewrite Forall_forall in Hmag.
    apply Hmag. apply nth_In. lia. }
  assert (Hfs : forall k, In k bins -> lo <= fs k /\ fs k <= hi).
  { intros k Hk. apply in_seq in Hk.
    unfold lo, hi, fs, AudioFeatures.binFrequency.
    assert (H1 : inject_Z (Z.of_nat 1) <= inject_Z (Z.of_nat k))
      by (rewrite <- Zle_Qle; lia).
    assert (H2 : inject_Z (Z.of_nat k)
                 <= inject_Z (Z.of_nat (length magnitude - 1)))
      by (rewrite <- Zle_Qle; lia).
    split.
    - setoid_replace (inject_Z (Z.of_nat 1) * sampleRate
                      / inject_Z (Z.of_nat fftSize))
        with (inject_Z (Z.of_nat 1)
              * (sampleRate / inject_Z (Z.of_nat fftSize)))
        by (unfold Qdiv; ring).
      apply Qmult_le_compat_r; assumption.
    - setoid_replace (inject_Z (Z.of_nat (length magnitude - 1)) * sampleRate
                      / inject_Z (Z.of_nat fftSize))
        with (inject_Z (Z.of_nat (length magnitude - 1))
              * (sampleRate / inject_Z (Z.of_nat fftSize)))
        by (unfold Qdiv; ring).
      apply Qmult_le_compat_r; assumption. }
  assert (Hfc : forall k, In k bins -> lo <= fc k /\ fc k <= hi).
  { intros k Hk. destruct (Hfs k Hk) as (H1 & H2).
    assert (E : fc k == fs k) by (unfold fc, fs, Qdiv; ring).
    rewrite E. split; assumption. }
  assert (Hmean : forall S F, 0 < S -> lo * S <= F -> F <= hi * S ->
                              lo <= F / S /\ F / S <= hi).
  { intros S F HS H1 H2. split.
    - apply Qle_shift_div_l; assumption.
    - apply Qle_shift_div_r; assumption. }
  split.
  - intros (k & Hk & Hpos).
    assert (Hin : In k bins) by (apply in_seq; lia).
    split.
    + unfold client, ClientDescriptors.computeSpectralCentroid. rewrite Ec.
      destruct (@centroid_sums_between fc w lo hi bins (0, 0)) as (_ & H1 & H2).
      { intros j Hj. split; [apply Hw; exact Hj | apply Hfc; exact Hj]. }
      { apply Qle_refl. }
      { simpl. lra. }
      { simpl. lra. }
      pose proof (@centroid_sums_positive fc w bins (0, 0) k Hw
                    (Qle_refl _) Hin Hpos) as HS.
      destruct (fold_left (centroidStep fc w) bins (0, 0)) as (S, F).
      simpl in *. apply Js.ltb_lt in HS. rewrite HS.
      apply Js.ltb_lt in HS. apply Hmean; assumption.
    + unfold server, ServerDescriptors.computeSpectralFeatures. rewrite Es.
      destruct (@centroid_sums_between fs w lo hi bins (0, 0)) as (_ & H1 & H2).
      { intros j Hj. split; [apply Hw; exact Hj | apply Hfs; exact Hj]. }
      { apply Qle_refl. }
      { simpl. lra. }
      { simpl. lra. }
      pose proof (@centroid_sums_positive fs w bins (0, 0) k Hw
                    (Qle_refl _) Hin Hpos) as HS.
      destruct (fold_left (centroidStep fs w) bins (0, 0)) as (S, F).
      simpl in *. apply Js.ltb_lt in HS. rewrite HS. cbn [fst].
      apply Js.ltb_lt in HS. apply Hmean; assumption.
  - intro Hzero.
    assert (Hz : forall k, In k bins -> w k == 0).
    { intros k Hk. apply in_seq in Hk. apply Hzero. lia. }
    split.
    + unfold client, ClientDescriptors.computeSpectralCentroid. rewrite Ec.
      pose proof (@centroid_sums_zero fc w bins (0, 0) Hz (Qeq_refl _)) as HS.
      destruct (fold_left (centroidStep fc w) bins (0, 0)) as (S, F).
      simpl in HS.
      assert (E : Js.ltb 0 S = false)
        by (apply Js.ltb_ge; rewrite HS; apply Qle_refl).
      rewrite E. reflexivity.
    + unfold server, ServerDescriptors.computeSpectralFeatures. rewrite Es.
      pose proof (@centroid_sums_zero fs w bins (0, 0) Hz (Qeq_refl _)) as HS.
      destruct (fold_left (centroidStep fs w) bins (0, 0)) as (S, F).
      simpl in HS.
      assert (E : Js.ltb 0 S = false)
        by (apply Js.ltb_ge; rewrite HS; apply Qle_refl).
      rewrite E. reflexivity.
Qed.

Lemma spectral_centroid_within_bins_witness :
  let magnitude := [5; 1; 0; 3] in
  ClientDescriptors.computeSpectralCentroid magnitude 8 8000 <= 3000 /\
  1000 <= fst (ServerDescriptors.computeSpectralFeatures Sample.sqrtQ
                 magnitude 8 8000).
Proof.
  intro magnitude.
  destruct (@spectral_centroid_within_bins Sample.sqrtQ magnitude 8 8000)
    as (H & _).
  - lia.
  - discriminate.
  - repeat constructor; discriminate.
  - destruct H as ((_ & Hc) & (Hs & _)).
    + exists 1%nat. split; [simpl; lia | reflexivity].
    + split; [exact Hc | exact Hs].
Defined.

(** X30: on a window that lies inside the buffer,
    [computeZeroCrossingRate] counts at most [length - 1] crossings, so the
    rate lies in [0, 1), and the pitch that [estimatePitchFromZCR] derives
    from it never exceeds the larger of 80 Hz and half the sample rate. *)
Theorem zero_crossing_rate_below_one
  (samples : list Q) (start len : nat) (sampleRate : Q) :
  (0 < len)%nat -> (start + len <= length samples)%nat -> 0 <= sampleRate ->
  let zcr := ServerDescriptors.computeZeroCrossingRate samples start len in
  (0 <= zcr /\ zcr * inject_Z (Z.of_nat len) <= inject_Z (Z.of_nat len) - 1) /\
  zcr < 1 /\
  Server.estimatePitchFromZCR zcr sampleRate <= Qmax 80 (sampleRate / 2).
Proof.
  intros Hlen Hfit Hrate zcr.
  unfold zcr, ServerDescriptors.computeZeroCrossingRate.
  rewrite Nat.min_l by exact Hfit.
  set (crossings := length (filter (ServerDescriptors.isCrossing samples)
                                   (seq (start + 1) (start + len - (start + 1))))).
  assert (Hc : (crossings <= len - 1)%nat).
  { unfold crossings.
    eapply Nat.le_trans; [apply filter_length_le|].
    rewrite length_seq. lia. }
  replace (Z.of_nat (start + len) - Z.of_nat start)%Z with (Z.of_nat len)
    by lia.
  set (n := inject_Z (Z.of_nat len)).
  set (c := inject_Z (Z.of_nat crossings)).
  assert (Hn : 1 <= n).
  { unfold n. change 1 with (inject_Z 1). rewrite <- Zle_Qle. lia. }
  assert (Hc0 : 0 <= c).
  { unfold c. change 0 with (inject_Z 0). rewrite <- Zle_Qle. lia. }
  assert (Hc1 : c <= n - 1).
  { assert (H : c + inject_Z 1 <= n)
      by (unfold c, n; rewrite <- inject_Z_plus, <- Zle_Qle; lia).
    change (inject_Z 1) with 1 in H. lra. }
  assert (E : c / n * n == c) by (field; lra).
  assert (H0 : 0 <= c / n) by (apply Qle_shift_div_l; lra).
  assert (H1 : c / n < 1) by (apply Qlt_shift_div_r; lra).
  split; [split; [exact H0 | rewrite E; exact Hc1]|].
  split; [exact H1|].
  unfold Server.estimatePitchFromZCR, Js.max, Js.min.
  apply Q.max_lub; [apply Q.le_max_l|].
  eapply Qle_trans; [apply Q.le_min_r|].
  eapply Qle_trans; [|apply Q.le_max_r].
  unfold Qdiv at 1 3. apply Qmult_le_compat_r; [|discriminate].
  setoid_replace sampleRate with (1 * sampleRate) at 2 by ring.
  apply Qmult_le_compat_r; [lra | exact Hrate].
Qed.

Lemma zero_crossing_rate_below_one_witness :
  ServerDescriptors.computeZeroCrossingRate [1; -1; 1; -1; 1; -1] 1 4 < 1 /\
  ServerDescriptors.computeZeroCrossingRate [1; -1; 1; -1; 1; -1] 1 4
  == 3 # 4.
Proof.
  split; [|vm_compute; reflexivity].
  apply (@zero_crossing_rate_below_one [1; -1; 1; -1; 1; -1] 1 4 44100).
  - lia.
  - simpl. lia.
  - discriminate.
Defined.
